(** * Segmenta: timeline store, transport clock, playback resolver and
      render pipeline

    A shallow embedding of the TypeScript sources
    ([types.ts], the App component's segment and clock handlers, the
    PlayerPanel timeline effect and [services/ffmpegService.ts]) together with
    the properties of the specification that were checked against them.

    Numbers.  A JavaScript [number] is modelled by an exact rational ([Q]):
    frame indices, durations in seconds and progress fractions are carried
    without rounding error.  [Math.round], [Math.max] and [Math.min] are
    modelled on rationals below. *)

From Stdlib Require Import List String Ascii Bool Arith ZArith QArith Qround
  Qminmax Lia Lqa Sorted Permutation DecimalString.
From Stdlib Require Import DecimalNat Qabs.
Import ListNotations.

Open Scope string_scope.
Open Scope Q_scope.

(* ================================================================== *)
(** * Numbers *)

(** [a < b] on numbers, as a boolean. *)
Definition Qlt_bool (a b : Q) : bool := negb (Qle_bool b a).

(** [Math.round]: the nearest integer, halves rounded towards +infinity. *)
Definition Math_round (x : Q) : Z := Qfloor (x + (1 # 2)).

(** A number with no fractional part. *)
Definition is_whole (x : Q) : Prop := x == inject_Z (Qfloor x).

(* ================================================================== *)
(** * Data model ([types.ts]) *)

Module AssetType.
Inductive t : Set := IMAGE | VIDEO | AUDIO.

Definition eqb (a b : t) : bool :=
  match a, b with
  | IMAGE, IMAGE | VIDEO, VIDEO | AUDIO, AUDIO => true
  | _, _ => false
  end.
End AssetType.

Module TrackType.
Inductive t : Set := VIDEO_MAIN | OVERLAY | AUDIO.

Definition eqb (a b : t) : bool :=
  match a, b with
  | VIDEO_MAIN, VIDEO_MAIN | OVERLAY, OVERLAY | AUDIO, AUDIO => true
  | _, _ => false
  end.
End TrackType.

Inductive PlaybackMode : Set := ASSET | TIMELINE.

(** [Asset]: the fields the modelled functions read.  [base64], [parentId],
    [version], [category] and the image dimensions are never consulted by the
    store, the resolver or the render pipeline. *)
Module Asset.
Record t : Type := mk {
  id : string;
  type : AssetType.t;
  url : string;
  name : string;
  mimeType : string;
  duration : option Q          (* metadata?.duration *)
}.
End Asset.

Record SegmentMetadata : Type := mkMetadata {
  overlayX : option Q;
  overlayY : option Q;
  maskData : option string
}.

(** [TimelineSegment]; an optional property is an [option]. *)
Record TimelineSegment : Type := mkSegment {
  id : string;
  assetId : string;
  trackId : TrackType.t;
  startFrame : Q;
  endFrame : Q;
  duration : Q;
  label : string;
  isAiGenerated : bool;
  continuityScore : option Q;
  linkedSegmentId : option string;
  assetUrl : option string;
  assetType : option AssetType.t;
  metadata : option SegmentMetadata
}.

(** [Partial<TimelineSegment>]: [Some v] when the property is present.  For a
    property that is optional in [TimelineSegment] the carried value is itself
    an [option], so that an update can clear it. *)
Record SegmentUpdates : Type := mkUpdates {
  u_id : option string;
  u_assetId : option string;
  u_trackId : option TrackType.t;
  u_startFrame : option Q;
  u_endFrame : option Q;
  u_duration : option Q;
  u_label : option string;
  u_isAiGenerated : option bool;
  u_continuityScore : option (option Q);
  u_linkedSegmentId : option (option string);
  u_assetUrl : option (option string);
  u_assetType : option (option AssetType.t);
  u_metadata : option (option SegmentMetadata)
}.

Definition no_updates : SegmentUpdates :=
  mkUpdates None None None None None None None None None None None None None.

(** The update the timeline issues when a drag ends: [{ startFrame: x }]. *)
Definition startFrame_only (x : Q) : SegmentUpdates :=
  mkUpdates None None None (Some x) None None None None None None None None None.

Definition or_else {A : Type} (o : option A) (d : A) : A :=
  match o with Some v => v | None => d end.

(** Object spread [{ ...s, ...updates }]. *)
Definition spread (s : TimelineSegment) (u : SegmentUpdates) : TimelineSegment :=
  {| id := or_else (u_id u) (id s);
     assetId := or_else (u_assetId u) (assetId s);
     trackId := or_else (u_trackId u) (trackId s);
     startFrame := or_else (u_startFrame u) (startFrame s);
     endFrame := or_else (u_endFrame u) (endFrame s);
     duration := or_else (u_duration u) (duration s);
     label := or_else (u_label u) (label s);
     isAiGenerated := or_else (u_isAiGenerated u) (isAiGenerated s);
     continuityScore := or_else (u_continuityScore u) (continuityScore s);
     linkedSegmentId := or_else (u_linkedSegmentId u) (linkedSegmentId s);
     assetUrl := or_else (u_assetUrl u) (assetUrl s);
     assetType := or_else (u_assetType u) (assetType s);
     metadata := or_else (u_metadata u) (metadata s) |}.

Definition with_endFrame (s : TimelineSegment) (e : Q) : TimelineSegment :=
  {| id := id s; assetId := assetId s; trackId := trackId s;
     startFrame := startFrame s; endFrame := e; duration := duration s;
     label := label s; isAiGenerated := isAiGenerated s;
     continuityScore := continuityScore s;
     linkedSegmentId := linkedSegmentId s; assetUrl := assetUrl s;
     assetType := assetType s; metadata := metadata s |}.

(** [{ ...s, startFrame: a, endFrame: e }]. *)
Definition with_frames (s : TimelineSegment) (a e : Q) : TimelineSegment :=
  {| id := id s; assetId := assetId s; trackId := trackId s;
     startFrame := a; endFrame := e; duration := duration s;
     label := label s; isAiGenerated := isAiGenerated s;
     continuityScore := continuityScore s;
     linkedSegmentId := linkedSegmentId s; assetUrl := assetUrl s;
     assetType := assetType s; metadata := metadata s |}.

(** [{ ...s, linkedSegmentId: undefined }]. *)
Definition without_link (s : TimelineSegment) : TimelineSegment :=
  {| id := id s; assetId := assetId s; trackId := trackId s;
     startFrame := startFrame s; endFrame := endFrame s;
     duration := duration s; label := label s;
     isAiGenerated := isAiGenerated s;
     continuityScore := continuityScore s;
     linkedSegmentId := None; assetUrl := assetUrl s;
     assetType := assetType s; metadata := metadata s |}.

(** [o === x] for an optional string [o]: [undefined] equals no string. *)
Definition opt_is (o : option string) (x : string) : bool :=
  match o with Some v => String.eqb v x | None => false end.

(* ================================================================== *)
(** * Segment store (App component) *)

(** The store the application starts with. *)
Definition initialSegments : list TimelineSegment :=
  [ mkSegment "1" "start" TrackType.VIDEO_MAIN 0 120 4 "Intro Hook" false
      None None
      (Some "https://commondatastorage.googleapis.com/gtv-videos-bucket/sample/ForBiggerJoyrides.mp4")
      None None;
    mkSegment "2" "mid" TrackType.VIDEO_MAIN 121 240 4 "Value Prop" true
      None None
      (Some "https://commondatastorage.googleapis.com/gtv-videos-bucket/sample/ForBiggerBlazes.mp4")
      None None ].

(** One step of the [prev.map] callback of [handleUpdateSegment]. *)
Definition updateOne (id0 : string) (updates : SegmentUpdates)
    (prev : list TimelineSegment) (s : TimelineSegment) : TimelineSegment :=
  if String.eqb (id s) id0 then
    let updated := spread s updates in
    match u_startFrame updates with
    | Some newStart => with_endFrame updated (newStart + duration s * 30)
    | None => updated
    end
  else
    let movedSeg := find (fun p => String.eqb (id p) id0) prev in
    match movedSeg, u_startFrame updates with
    | Some m, Some newStart =>
        if opt_is (linkedSegmentId m) (id s)
        then with_frames s newStart (newStart + duration s * 30)
        else s
    | _, _ => s
    end.

Definition handleUpdateSegment (id0 : string) (updates : SegmentUpdates)
    (prev : list TimelineSegment) : list TimelineSegment :=
  map (updateOne id0 updates prev) prev.

Definition handleUnlink (id0 : string) (prev : list TimelineSegment)
  : list TimelineSegment :=
  map (fun s =>
         if String.eqb (id s) id0 || opt_is (linkedSegmentId s) id0
         then without_link s else s) prev.

Definition handleDeleteSegment (id0 : string) (prev : list TimelineSegment)
  : list TimelineSegment :=
  filter (fun s => negb (String.eqb (id s) id0)) prev.

(** A sequence of [update(id, { startFrame: x })] calls, oldest first. *)
Definition update_calls (calls : list (string * Q))
    (prev : list TimelineSegment) : list TimelineSegment :=
  fold_left (fun st c => handleUpdateSegment (fst c) (startFrame_only (snd c)) st)
            calls prev.

(** The frame equation of the data model, with the rounding the
    specification names. *)
Definition frame_equation (s : TimelineSegment) : Prop :=
  endFrame s == startFrame s + inject_Z (Math_round (duration s * 30)).

(** The segment spans a whole number of frames. *)
Definition whole_frames (s : TimelineSegment) : Prop :=
  is_whole (duration s * 30).

(** [handleDropAssetOnTimeline]; [segId] stands for the fresh
    [crypto.randomUUID()]. *)
Definition handleDropAssetOnTimeline (segId : string) (asset : Asset.t)
    (trackId0 : TrackType.t) (time : Q) (prev : list TimelineSegment)
  : list TimelineSegment :=
  let startFrame0 := inject_Z (Qfloor (time * 30)) in
  let duration0 :=
    match Asset.duration asset with
    | Some d => if Qeq_bool d 0 then 4 else d
    | None => 4
    end in
  let lengthInFrames := inject_Z (Qceiling (duration0 * 30)) in
  let isVideo := AssetType.eqb (Asset.type asset) AssetType.VIDEO in
  let audioId := "audio-" ++ segId in
  let base :=
    mkSegment segId (Asset.id asset)
      (if isVideo then TrackType.VIDEO_MAIN else trackId0)
      startFrame0 (startFrame0 + lengthInFrames) duration0
      (Asset.name asset) false None
      (if isVideo then Some audioId else None)
      (Some (Asset.url asset)) (Some (Asset.type asset)) None in
  let split :=
    mkSegment audioId (Asset.id asset) TrackType.AUDIO
      startFrame0 (startFrame0 + lengthInFrames) duration0
      ("Audio: " ++ Asset.name asset) false None
      (Some segId) (Some (Asset.url asset)) None None in
  (prev ++ (if isVideo then [base; split] else [base]))%list.

(* ================================================================== *)
(** * Transport clock (App component) *)

(** [Math.max(...xs)] for a non-empty argument list [x :: xs]. *)
Definition Math_max_of (x : Q) (xs : list Q) : Q := fold_left Qmax xs x.

Definition contentDuration (segments : list TimelineSegment) : Q :=
  match map endFrame segments with
  | [] => 10
  | e :: es => Math_max_of e es / 30
  end.

Record Transport : Type := mkTransport {
  playbackMode : PlaybackMode;
  timelineTime : Q;
  isTimelinePlaying : bool;
  lastTick : Q                  (* lastTickRef.current *)
}.

(** The seconds elapsed since the previous tick; a [lastTickRef] of 0 is
    first set to the timestamp. *)
Definition tickDelta (timestamp : Q) (st : Transport) : Q :=
  let last := if Qeq_bool (lastTick st) 0 then timestamp else lastTick st in
  (timestamp - last) / 1000.

(** One run of the animation-frame callback [loop(timestamp)]. *)
Definition loop (segments : list TimelineSegment) (timestamp : Q)
    (st : Transport) : Transport :=
  let delta := tickDelta timestamp st in
  if isTimelinePlaying st then
    let nextTime := timelineTime st + delta in
    if Qle_bool (contentDuration segments) nextTime
    then mkTransport (playbackMode st) (contentDuration segments) false timestamp
    else mkTransport (playbackMode st) nextTime (isTimelinePlaying st) timestamp
  else
    mkTransport (playbackMode st) (timelineTime st) (isTimelinePlaying st)
                timestamp.

Definition handleSeek (segments : list TimelineSegment) (t : Q)
    (st : Transport) : Transport :=
  let clampedTime := Qmin (Qmax 0 t) (contentDuration segments) in
  mkTransport TIMELINE clampedTime (isTimelinePlaying st) (lastTick st).

Definition toggleTimelinePlay (segments : list TimelineSegment)
    (st : Transport) : Transport :=
  if Qle_bool (contentDuration segments) (timelineTime st) then
    mkTransport TIMELINE 0 true 0
  else
    match playbackMode st with
    | TIMELINE =>
        mkTransport TIMELINE (timelineTime st) (negb (isTimelinePlaying st)) 0
    | ASSET => mkTransport TIMELINE (timelineTime st) true 0
    end.

(* ================================================================== *)
(** * Playback resolver (PlayerPanel timeline effect) *)

(** The predicate handed to [segments.find] for a track. *)
Definition on_track_at (track : TrackType.t) (currentFrame : Q)
    (s : TimelineSegment) : bool :=
  TrackType.eqb (trackId s) track
  && Qle_bool (startFrame s) currentFrame
  && Qlt_bool currentFrame (endFrame s).

Definition resolveTrack (track : TrackType.t) (segments : list TimelineSegment)
    (currentFrame : Q) : option TimelineSegment :=
  find (on_track_at track currentFrame) segments.

(** [seg?.assetType === k]. *)
Definition assetType_is (seg : option TimelineSegment) (k : AssetType.t) : bool :=
  match seg with
  | Some m => match assetType m with
              | Some a => AssetType.eqb a k
              | None => false
              end
  | None => false
  end.

(** The composition state of the player. *)
Record Composition : Type := mkComposition {
  activeVideoSeg : option TimelineSegment;
  activeMainImageSeg : option TimelineSegment;
  activeOverlaySeg : option TimelineSegment;
  activeAudioSeg : option TimelineSegment
}.

(** The segment resolution of the timeline effect at a frame (the
    synchronisation of the media elements that follows it is not modelled). *)
Definition resolveFrame (segments : list TimelineSegment) (currentFrame : Q)
  : Composition :=
  let mainSeg := resolveTrack TrackType.VIDEO_MAIN segments currentFrame in
  let ovl := resolveTrack TrackType.OVERLAY segments currentFrame in
  let aud := resolveTrack TrackType.AUDIO segments currentFrame in
  {| activeVideoSeg :=
       if assetType_is mainSeg AssetType.VIDEO then mainSeg else None;
     activeMainImageSeg :=
       if assetType_is mainSeg AssetType.VIDEO then None
       else if assetType_is mainSeg AssetType.IMAGE then mainSeg else None;
     activeOverlaySeg := ovl;
     activeAudioSeg := aud |}.

Definition timelineEffect (mode : PlaybackMode) (time : Q)
    (segments : list TimelineSegment) (st : Composition) : Composition :=
  match mode with
  | TIMELINE => resolveFrame segments (time * 30)
  | ASSET => st
  end.

(** The main-track segment that is shown, as a video or as a still. *)
Definition activeMainSeg (c : Composition) : option TimelineSegment :=
  match activeVideoSeg c with
  | Some s => Some s
  | None => activeMainImageSeg c
  end.

(** The resolution the specification describes, as a relation: [r] is the
    first segment of the store, in iteration order, that lies on [track] and
    whose half-open interval holds [frame]; it is [None] when there is none. *)
Definition covers (s : TimelineSegment) (frame : Q) : Prop :=
  startFrame s <= frame /\ frame < endFrame s.

Definition first_covering (track : TrackType.t)
    (segments : list TimelineSegment) (frame : Q)
    (r : option TimelineSegment) : Prop :=
  match r with
  | Some s =>
      exists before after,
        segments = (before ++ s :: after)%list
        /\ trackId s = track /\ covers s frame
        /\ forall x, In x before -> ~ (trackId x = track /\ covers x frame)
  | None =>
      forall x, In x segments -> ~ (trackId x = track /\ covers x frame)
  end.

(* ================================================================== *)
(** * Render pipeline ([services/ffmpegService.ts]) *)

(** ** What a run does, and the world it runs in *)

(** Bytes handed to [writeFile]. *)
Inductive Data : Type :=
| Fetched (url : string)           (* result of [fetchFile(url)] *)
| Contents (name : string)         (* result of [readFile(name)] *)
| Text (s : string).

(** One element of an [exec] argument vector: a string of the source, or
    [String(x)] of a number. *)
Inductive Arg : Type :=
| Lit (s : string)
| Num (x : Q).

(** A thrown value: an [Error] the pipeline builds itself, or whatever an
    awaited call of the engine or the network rejected with. *)
Inductive Failure : Type :=
| Error (message : string)
| Thrown (call : string).

(** The observable actions of a run, in order. *)
Inductive Event : Type :=
| OnProgress (progress : Q) (stage : string)
| EngineLoad
| FetchFile (url : string)
| WriteFile (name : string) (data : Data)
| Exec (argv : list Arg)
| ReadFile (name : string)
| DeleteFile (name : string)
| ConsoleError (msg : string) (err : Failure)
| ConsoleWarn (msg : string) (err : Failure).

(** How the [try] block of one video clip ends. *)
Inductive ClipFate : Set :=
| ClipEncoded | ClipFetchThrows | ClipWriteThrows | ClipExecThrows.

(** How the [try] block of one audio segment ends. *)
Inductive AudioFate : Set :=
| AudioLoaded | AudioFetchThrows | AudioWriteThrows.

(** The transcoding engine and the network as one run meets them: each
    awaited call either resolves or throws.  Clips and audio segments are
    attempted once each, so their outcomes are indexed by loop counter. *)
Record Engine : Type := mkEngine {
  loaded : bool;                   (* [ffmpeg && ffmpeg.loaded] on entry *)
  load_ok : bool;                  (* [ff.load] resolves *)
  clip_fate : nat -> ClipFate;
  single_read_ok : bool;           (* stage 2, one clip: [readFile] *)
  single_write_ok : bool;          (* stage 2, one clip: [writeFile] *)
  concat_write_ok : bool;          (* stage 2: [writeFile('concat.txt')] *)
  concat_exec_ok : bool;           (* stage 2: the concat [exec] *)
  audio_fate : nat -> AudioFate;
  mix_exec_ok : bool;              (* stage 3: the mix [exec] *)
  output_read_ok : bool;           (* stage 4: [readFile(finalOutput)] *)
  object_url : string              (* what [URL.createObjectURL] returns *)
}.

(** ** A small monad: a trace of events and a normal or abrupt completion *)

Inductive Completion (A : Type) : Type :=
| Normal (a : A)
| Throw (e : Failure).
Arguments Normal {A} a.
Arguments Throw {A} e.

Definition M (A : Type) : Type := (list Event * Completion A)%type.

Definition ret {A : Type} (a : A) : M A := ([], Normal a).

Definition bind {A B : Type} (m : M A) (k : A -> M B) : M B :=
  match snd m with
  | Normal a => ((fst m ++ fst (k a))%list, snd (k a))
  | Throw e => (fst m, Throw e)
  end.

Definition emit (e : Event) : M unit := ([e], Normal tt).

Definition throw {A : Type} (e : Failure) : M A := ([], Throw e).

(** An awaited external call: the event, then a throw when it fails. *)
Definition await (ok : bool) (call : string) (e : Event) : M unit :=
  ([e], if ok then Normal tt else Throw (Thrown call)).

(** [try { m } catch (err) { h err }]. *)
Definition try_catch {A : Type} (m : M A) (h : Failure -> M A) : M A :=
  match snd m with
  | Normal a => m
  | Throw e => ((fst m ++ fst (h e))%list, snd (h e))
  end.

(** [try { await ff.deleteFile(name); } catch { }]: the outcome is ignored. *)
Definition deleteFile_quietly (name : string) : M unit :=
  emit (DeleteFile name).

Notation "x <- m ;; k" := (bind m (fun x => k))
  (at level 61, m at next level, right associativity).
Notation "m ;;; k" := (bind m (fun _ => k))
  (at level 61, right associativity).

Definition trace {A : Type} (m : M A) : list Event := fst m.
Definition completion {A : Type} (m : M A) : Completion A := snd m.

(** The fractions handed to the progress callback, in order. *)
Definition progress_of (t : list Event) : list Q :=
  flat_map (fun e => match e with OnProgress p _ => [p] | _ => [] end) t.

(** ** Strings of numbers *)

(** Template-literal rendering of a loop counter or a length. *)
Definition nat_str (n : nat) : string :=
  NilZero.string_of_uint (Nat.to_uint n).

(** Template-literal rendering of an integral number such as a
    [Math.round] result. *)
Definition int_str (z : Z) : string :=
  NilZero.string_of_int (Z.to_int z).

Definition dquote : string := String (ascii_of_nat 34) EmptyString.
Definition newline : string := String (ascii_of_nat 10) EmptyString.

(** [parts.join(sep)]. *)
Fixpoint join (sep : string) (parts : list string) : string :=
  match parts with
  | [] => ""
  | [p] => p
  | p :: rest => p ++ sep ++ join sep rest
  end.

(** ** The pipeline *)

(** [getExtension]; the argument is the string the caller passes.  The source
    looks the string up in an object literal: this is that lookup for every
    string that names no member of [Object.prototype] (no MIME type does). *)
Definition getExtension (mimeType : string) : string :=
  if String.eqb mimeType "image/png" then "png"
  else if String.eqb mimeType "image/jpeg" then "jpg"
  else if String.eqb mimeType "image/webp" then "webp"
  else if String.eqb mimeType "video/mp4" then "mp4"
  else if String.eqb mimeType "video/webm" then "webm"
  else if String.eqb mimeType "audio/wav" then "wav"
  else if String.eqb mimeType "audio/mpeg" then "mp3"
  else if String.eqb mimeType "audio/aac" then "aac"
  else "bin".

(** Truthiness of an optional string: present and not empty. *)
Definition truthy (o : option string) : bool :=
  match o with
  | Some s => negb (String.eqb s "")
  | None => false
  end.

(** [asset?.mimeType || fallback]. *)
Definition mimeType_or (asset : option Asset.t) (fallback : string) : string :=
  match asset with
  | Some a => if String.eqb (Asset.mimeType a) "" then fallback
              else Asset.mimeType a
  | None => fallback
  end.

(** [xs.sort((a, b) => a.startFrame - b.startFrame)]: ascending and stable. *)
Fixpoint insert_by_startFrame (s : TimelineSegment)
    (l : list TimelineSegment) : list TimelineSegment :=
  match l with
  | [] => [s]
  | x :: r => if Qle_bool (startFrame s) (startFrame x)
              then s :: x :: r
              else x :: insert_by_startFrame s r
  end.

Fixpoint sort_by_startFrame (l : list TimelineSegment) : list TimelineSegment :=
  match l with
  | [] => []
  | s :: r => insert_by_startFrame s (sort_by_startFrame r)
  end.

Definition exportable (track : TrackType.t) (s : TimelineSegment) : bool :=
  TrackType.eqb (trackId s) track && truthy (assetUrl s).

Definition videoSegments (segments : list TimelineSegment) :=
  sort_by_startFrame (filter (exportable TrackType.VIDEO_MAIN) segments).

Definition audioSegments (segments : list TimelineSegment) :=
  sort_by_startFrame (filter (exportable TrackType.AUDIO) segments).

Definition no_video_message : string :=
  "No video segments found on the timeline. Add clips to the V1 MAIN track first.".

Definition all_failed_message : string :=
  "All clips failed to encode. Check your media files.".

Definition scale_pad_filter : string :=
  "scale=1280:720:force_original_aspect_ratio=decrease,pad=1280:720:(ow-iw)/2:(oh-ih)/2,format=yuv420p".

Definition loadFFmpeg (E : Engine) : M unit :=
  if loaded E then ret tt
  else
    emit (OnProgress 0.02 "Downloading FFmpeg WASM core...") ;;;
    await (load_ok E) "load" EngineLoad.

Definition inputName (i : nat) (ext : string) : string :=
  "input_" ++ nat_str i ++ "." ++ ext.

Definition clipName (i : nat) : string := "clip_" ++ nat_str i ++ ".mp4".

Definition is_image (seg : TimelineSegment) : bool :=
  match assetType seg with
  | Some a => AssetType.eqb a AssetType.IMAGE
  | None => false
  end.

(** The [exec] arguments that normalise one clip. *)
Definition encodeArgs (seg : TimelineSegment) (input output : string)
  : list Arg :=
  if is_image seg then
    [Lit "-loop"; Lit "1"; Lit "-i"; Lit input;
     Lit "-t"; Num (Qmax 1 (duration seg));
     Lit "-vf"; Lit scale_pad_filter; Lit "-r"; Lit "30";
     Lit "-c:v"; Lit "libx264"; Lit "-preset"; Lit "ultrafast";
     Lit "-pix_fmt"; Lit "yuv420p"; Lit output]
  else
    [Lit "-i"; Lit input;
     Lit "-t"; Num (Qmax 1 (duration seg));
     Lit "-vf"; Lit scale_pad_filter; Lit "-r"; Lit "30";
     Lit "-c:v"; Lit "libx264"; Lit "-preset"; Lit "ultrafast";
     Lit "-pix_fmt"; Lit "yuv420p"; Lit "-an"; Lit output].

(** The [try] block of stage 1 for clip [i], up to [clipNames.push]. *)
Definition encodeClip (fate : ClipFate) (seg : TimelineSegment)
    (input output : string) : M unit :=
  await (match fate with ClipFetchThrows => false | _ => true end)
        "fetchFile" (FetchFile (or_else (assetUrl seg) "")) ;;;
  await (match fate with ClipWriteThrows => false | _ => true end)
        "writeFile" (WriteFile input (Fetched (or_else (assetUrl seg) ""))) ;;;
  await (match fate with ClipExecThrows => false | _ => true end)
        "exec" (Exec (encodeArgs seg input output)).

(** The [try]/[catch] of stage 1 for clip [i]: the clip is pushed on
    [clipNames] when all three calls resolve, and the failure is logged
    otherwise. *)
Definition attemptClip (fate : ClipFate) (i : nat) (seg : TimelineSegment)
    (input output : string) (clipNames : list string) : M (list string) :=
  try_catch
    (encodeClip fate seg input output ;;;
     ret (List.app clipNames [output]))
    (fun err =>
       emit (ConsoleError
               ("[FFmpeg] Failed to process clip " ++ nat_str i ++ ":") err) ;;;
       ret clipNames).

(** [0.05 + (i / videoSegments.length) * 0.55]. *)
Definition stepProgress (n i : nat) : Q :=
  0.05 + (inject_Z (Z.of_nat i) / inject_Z (Z.of_nat n)) * 0.55.

(** Stage 1: the loop over [videoSegments] from index [i], [n] being
    [videoSegments.length]; returns [clipNames]. *)
Fixpoint normalizeClips (E : Engine) (assets : list Asset.t) (n i : nat)
    (segs : list TimelineSegment) (clipNames : list string)
  : M (list string) :=
  match segs with
  | [] => ret clipNames
  | seg :: rest =>
      emit (OnProgress (stepProgress n i)
              ("Encoding clip " ++ nat_str (i + 1) ++ "/" ++ nat_str n ++ ": "
                 ++ dquote ++ label seg ++ dquote)) ;;;
      let asset :=
        find (fun a => String.eqb (Asset.id a) (assetId seg)) assets in
      let ext :=
        getExtension
          (mimeType_or asset (if is_image seg then "image/png" else "video/mp4")) in
      let input := inputName i ext in
      let output := clipName i in
      clipNames' <- attemptClip (clip_fate E i) i seg input output clipNames ;;
      deleteFile_quietly input ;;;
      normalizeClips E assets n (S i) rest clipNames'
  end.

(** The text of [concat.txt]. *)
Definition concatList (clipNames : list string) : string :=
  join newline (map (fun name => "file '" ++ name ++ "'") clipNames).

(** [for (const name of names) { try { await ff.deleteFile(name); } catch { } }]. *)
Definition deleteFiles (names : list string) : M unit :=
  fold_right (fun name k => deleteFile_quietly name ;;; k) (ret tt) names.

(** The arguments of the concat [exec]. *)
Definition concat_argv : list Arg :=
  [Lit "-f"; Lit "concat"; Lit "-safe"; Lit "0"; Lit "-i"; Lit "concat.txt";
   Lit "-c"; Lit "copy"; Lit "video_only.mp4"].

(** Stage 2: concatenation into [video_only.mp4], then removal of the clips. *)
Definition concatenate (E : Engine) (clipNames : list string) : M unit :=
  emit (OnProgress 0.65
          ("Concatenating " ++ nat_str (List.length clipNames) ++ " clips...")) ;;;
  match clipNames with
  | [only] =>
      await (single_read_ok E) "readFile" (ReadFile only) ;;;
      await (single_write_ok E) "writeFile"
            (WriteFile "video_only.mp4" (Contents only))
  | _ =>
      await (concat_write_ok E) "writeFile"
            (WriteFile "concat.txt" (Text (concatList clipNames))) ;;;
      await (concat_exec_ok E) "exec" (Exec concat_argv) ;;;
      deleteFile_quietly "concat.txt"
  end ;;;
  deleteFiles clipNames.

(** The accumulators of the audio loop of stage 3. *)
Record MixState : Type := mkMixState {
  audioInputArgs : list Arg;
  filterParts : list string;
  mixLabels : list string;
  validAudioCount : nat
}.

Definition audioName (i : nat) (ext : string) : string :=
  "audio_" ++ nat_str i ++ "." ++ ext.

(** [Math.round((seg.startFrame / 30) * 1000)]. *)
Definition delayMs (seg : TimelineSegment) : Z :=
  Math_round ((startFrame seg / 30) * 1000).

(** The statements of the [try] block that follow the awaited calls. *)
Definition pushAudio (seg : TimelineSegment) (name : string) (st : MixState)
  : MixState :=
  let inputIdx := (validAudioCount st + 1)%nat in
  let part :=
    "[" ++ nat_str inputIdx ++ ":a]adelay=" ++ int_str (delayMs seg)
      ++ "|" ++ int_str (delayMs seg) ++ ",apad[a"
      ++ nat_str (validAudioCount st) ++ "]" in
  let mixLabel := "[a" ++ nat_str (validAudioCount st) ++ "]" in
  {| audioInputArgs := List.app (audioInputArgs st) [Lit "-i"; Lit name];
     filterParts := List.app (filterParts st) [part];
     mixLabels := List.app (mixLabels st) [mixLabel];
     validAudioCount := S (validAudioCount st) |}.

(** The [try]/[catch] of stage 3 for audio segment [i]. *)
Definition attemptAudio (fate : AudioFate) (i : nat) (seg : TimelineSegment)
    (name : string) (st : MixState) : M MixState :=
  let url := or_else (assetUrl seg) "" in
  try_catch
    (await (match fate with AudioFetchThrows => false | _ => true end)
           "fetchFile" (FetchFile url) ;;;
     await (match fate with AudioWriteThrows => false | _ => true end)
           "writeFile" (WriteFile name (Fetched url)) ;;;
     ret (pushAudio seg name st))
    (fun err =>
       emit (ConsoleWarn
               ("[FFmpeg] Failed to load audio " ++ nat_str i ++ ":") err) ;;;
       ret st).

(** Stage 3: the loop over [audioSegments] from index [i]. *)
Fixpoint loadAudio (E : Engine) (assets : list Asset.t) (i : nat)
    (segs : list TimelineSegment) (st : MixState) : M MixState :=
  match segs with
  | [] => ret st
  | seg :: rest =>
      if negb (truthy (assetUrl seg)) then
        loadAudio E assets (S i) rest st
      else
        let asset :=
          find (fun a => String.eqb (Asset.id a) (assetId seg)) assets in
        let ext := getExtension (mimeType_or asset "audio/wav") in
        st' <- attemptAudio (audio_fate E i) i seg (audioName i ext) st ;;
        loadAudio E assets (S i) rest st'
  end.

Definition mixFilter (st : MixState) : string :=
  join ";" (filterParts st) ++ ";" ++ join "" (mixLabels st)
    ++ "amix=inputs=" ++ nat_str (validAudioCount st) ++ ":normalize=0[aout]".

(** The arguments of the mix [exec] after the inputs. *)
Definition mixTail (filter : string) : list Arg :=
  [Lit "-filter_complex"; Lit filter; Lit "-map"; Lit "0:v";
   Lit "-map"; Lit "[aout]"; Lit "-c:v"; Lit "copy"; Lit "-c:a"; Lit "aac";
   Lit "-b:a"; Lit "128k"; Lit "-shortest"; Lit "final_output.mp4"].

(** The accumulators before the audio loop. *)
Definition initialMix : MixState :=
  mkMixState [Lit "-i"; Lit "video_only.mp4"] [] [] 0.

(** Stage 3; returns [finalOutput]. *)
Definition mixAudio (E : Engine) (assets : list Asset.t)
    (audio : list TimelineSegment) : M string :=
  match audio with
  | [] => ret "video_only.mp4"
  | _ :: _ =>
      emit (OnProgress 0.75
              ("Mixing " ++ nat_str (List.length audio) ++ " audio track(s)...")) ;;;
      st <- loadAudio E assets 0 audio initialMix ;;
      finalOutput <-
        match validAudioCount st with
        | O => ret "video_only.mp4"
        | S _ =>
            try_catch
              (await (mix_exec_ok E) "exec"
                     (Exec (audioInputArgs st ++ mixTail (mixFilter st))%list) ;;;
               ret "final_output.mp4")
              (fun err =>
                 emit (ConsoleWarn
                         "[FFmpeg] Audio mixing failed, exporting video only:" err) ;;;
                 ret "video_only.mp4")
        end ;;
      deleteFiles
        (map (fun i => "audio_" ++ nat_str i ++ ".wav")
             (seq 0 (List.length audio))) ;;;
      ret finalOutput
  end.

(** Stage 4: read the output back and hand out its URL. *)
Definition package (E : Engine) (finalOutput : string) : M string :=
  emit (OnProgress 0.92 "Packaging final MP4...") ;;;
  await (output_read_ok E) "readFile" (ReadFile finalOutput) ;;;
  deleteFile_quietly "video_only.mp4" ;;;
  deleteFile_quietly "final_output.mp4" ;;;
  emit (OnProgress 1.0 "Export complete!") ;;;
  ret (object_url E).

Definition renderTimeline (E : Engine) (segments : list TimelineSegment)
    (assets : list Asset.t) : M string :=
  loadFFmpeg E ;;;
  let video := videoSegments segments in
  let audio := audioSegments segments in
  match video with
  | [] => throw (Error no_video_message)
  | _ :: _ =>
      clipNames <- normalizeClips E assets (List.length video) 0 video [] ;;
      match clipNames with
      | [] => throw (Error all_failed_message)
      | _ :: _ =>
          concatenate E clipNames ;;;
          finalOutput <- mixAudio E assets audio ;;
          package E finalOutput
      end
  end.

(** The promise a run settles with. *)
Inductive Settled : Type :=
| Resolved (url : string)
| Rejected (reason : Failure).

Definition settle (m : M string) : Settled :=
  match completion m with
  | Normal url => Resolved url
  | Throw e => Rejected e
  end.

(** Work on a clip or an audio segment: a fetch, a write or an encode. *)
Definition is_media_work (e : Event) : bool :=
  match e with
  | FetchFile _ | WriteFile _ _ | Exec _ => true
  | _ => false
  end.

(** ** Vocabulary of the render properties *)

(** Clip [i] came out of stage 1. *)
Definition clip_ok (E : Engine) (i : nat) : bool :=
  match clip_fate E i with ClipEncoded => true | _ => false end.

(** The indices of the clips that came out of stage 1, in loop order. *)
Definition encoded_indices (E : Engine) (n : nat) : list nat :=
  filter (clip_ok E) (seq 0 n).

(** The engine is usable: it was loaded already, or loads now. *)
Definition engine_ready (E : Engine) : bool := loaded E || load_ok E.

(** Stage 2 goes through, whichever of its two branches is taken. *)
Definition concat_ok (E : Engine) : bool :=
  single_read_ok E && single_write_ok E
  && concat_write_ok E && concat_exec_ok E.

(** The audio segments that were loaded (fetched and written), in loop
    order, the loop counter starting at [i]. *)
Fixpoint loaded_audio (E : Engine) (i : nat) (segs : list TimelineSegment)
  : list TimelineSegment :=
  match segs with
  | [] => []
  | seg :: rest =>
      if truthy (assetUrl seg)
         && match audio_fate E i with AudioLoaded => true | _ => false end
      then seg :: loaded_audio E (S i) rest
      else loaded_audio E (S i) rest
  end.

(** The delay filter of the specification: [adelay=<ms>|<ms>] with
    [ms = round((startFrame / 30) * 1000)]. *)
Definition adelay_filter (seg : TimelineSegment) : string :=
  let ms := int_str (Math_round ((startFrame seg / 30) * 1000)) in
  "adelay=" ++ ms ++ "|" ++ ms.

(** The mix filter of the specification: [amix=inputs=<n>:normalize=0]. *)
Definition amix_filter (n : nat) : string :=
  "amix=inputs=" ++ nat_str n ++ ":normalize=0".

(** The chain of the [k]-th loaded audio segment, on input [k + 1]. *)
Definition delay_chain (k : nat) (seg : TimelineSegment) : string :=
  "[" ++ nat_str (k + 1) ++ ":a]" ++ adelay_filter seg
    ++ ",apad[a" ++ nat_str k ++ "]".

Fixpoint delay_chains (k : nat) (segs : list TimelineSegment) : list string :=
  match segs with
  | [] => []
  | seg :: rest => delay_chain k seg :: delay_chains (S k) rest
  end.

Definition mix_labels (k n : nat) : list string :=
  map (fun j => "[a" ++ nat_str j ++ "]") (seq k n).

(** The filter graph for a list of loaded audio segments. *)
Definition filter_graph (segs : list TimelineSegment) : string :=
  join ";" (delay_chains 0 segs) ++ ";"
    ++ join "" (mix_labels 0 (List.length segs))
    ++ amix_filter (List.length segs) ++ "[aout]".

(** The accumulators [st'] are those of [st] after the segments [segs] were
    loaded, in order. *)
Definition extends_mix (st : MixState) (segs : list TimelineSegment)
    (st' : MixState) : Prop :=
  filterParts st'
  = (filterParts st ++ delay_chains (validAudioCount st) segs)%list
  /\ mixLabels st'
     = (mixLabels st ++ mix_labels (validAudioCount st) (List.length segs))%list
  /\ validAudioCount st' = (validAudioCount st + List.length segs)%nat
  /\ exists extra, audioInputArgs st' = (audioInputArgs st ++ extra)%list.


(** A list of fractions that strictly increases within [[lo, hi)]. *)
Definition climbs (lo hi : Q) (l : list Q) : Prop :=
  StronglySorted Qlt l /\ Forall (fun p => lo <= p /\ p < hi) l.

(** The progress of a computation climbs within [[lo, hi)]. *)
Definition progress_within {A : Type} (lo hi : Q) (m : M A) : Prop :=
  climbs lo hi (progress_of (trace m)).

(** The progress of a computation climbs from [lo] and ends, with the
    fraction 1, exactly when the computation completes normally. *)
Definition progress_to_end {A : Type} (lo : Q) (m : M A) : Prop :=
  (exists e, completion m = Throw e /\ climbs lo 1 (progress_of (trace m)))
  \/ (exists a l, completion m = Normal a
                  /\ progress_of (trace m) = (l ++ [1.0])%list
                  /\ climbs lo 1 l).


(** An event other than a progress report. *)
Definition silent (e : Event) : Prop :=
  match e with OnProgress _ _ => False | _ => True end.

(** Every event of a computation satisfies [P]. *)
Definition all_events {A : Type} (P : Event -> Prop) (m : M A) : Prop :=
  Forall P (trace m).

(** ** Sample inputs *)

(** An engine that has to load and on which every call resolves. *)
Definition engine_fine : Engine :=
  mkEngine false true (fun _ => ClipEncoded) true true true true
           (fun _ => AudioLoaded) true true "blob:export".


Definition sample_clip (name : string) (start : Q) : TimelineSegment :=
  mkSegment name ("asset-" ++ name) TrackType.VIDEO_MAIN start (start + 120) 4
            name false None None (Some ("blob:" ++ name))
            (Some AssetType.VIDEO) None.

(** Three clips of four seconds, stored out of timeline order. *)
Definition three_clips : list TimelineSegment :=
  [sample_clip "c" 240; sample_clip "a" 0; sample_clip "b" 120].

(** A voice-over that starts at frame 60, two seconds in. *)
Definition voice_at_2s : TimelineSegment :=
  mkSegment "vo" "asset-vo" TrackType.AUDIO 60 180 4 "Voice" false
            None None (Some "blob:voice") (Some AssetType.AUDIO) None.

(** A Main-Video segment whose asset has no URL yet. *)
Definition clip_without_url : TimelineSegment :=
  mkSegment "pending" "asset-pending" TrackType.VIDEO_MAIN 0 120 4
            "Pending" true None None None (Some AssetType.VIDEO) None.

(* ================================================================== *)
(** * Further handlers of the App component *)

(** [asset.metadata?.duration || fallback]. *)
Definition duration_or (asset : Asset.t) (fallback : Q) : Q :=
  match Asset.duration asset with
  | Some d => if Qeq_bool d 0 then fallback else d
  | None => fallback
  end.

(** [handleDropAssetOnPlayer]; [segId] stands for the fresh
    [crypto.randomUUID()] and [now] for the [timelineTime] of the render. *)
Definition handleDropAssetOnPlayer (segId : string) (asset : Asset.t)
    (x y now : Q) (prev : list TimelineSegment) : list TimelineSegment :=
  let duration0 := duration_or asset 5 in
  let lengthInFrames := inject_Z (Qceiling (duration0 * 30)) in
  let start := inject_Z (Qfloor (now * 30)) in
  let overlayLabel := "Overlay: " ++ Asset.name asset in
  List.app prev
    [mkSegment segId (Asset.id asset) TrackType.OVERLAY
       start (start + lengthInFrames) duration0 overlayLabel false None None
       (Some (Asset.url asset)) None
       (Some (mkMetadata (Some x) (Some y) None))].

(** [handleSelectAsset], on the transport state (the selected asset itself
    is not part of it). *)
Definition handleSelectAsset (st : Transport) : Transport :=
  mkTransport ASSET (timelineTime st) false (lastTick st).

(** The duration an asset may carry: none, or a number that is not
    negative. *)
Definition duration_ok (asset : Asset.t) : Prop :=
  match Asset.duration asset with
  | Some d => 0 <= d
  | None => True
  end.

(* ================================================================== *)
(** * Timeline component ([components/Timeline.tsx]) *)

(** [dragDataRef.current]. *)
Record DragData : Type := mkDragData {
  drag_id : string;
  drag_startX : Q;
  initialLeft : Q;
  originalStartFrame : Q
}.

(** [handleMouseDownSegment], for a press that is not on a button: the drag
    data it records; [zoom] is the pixels per second of the zoom slider. *)
Definition handleMouseDownSegment (zoom clientX : Q) (seg : TimelineSegment)
  : DragData :=
  mkDragData (id seg) clientX ((startFrame seg / 30) * zoom) (startFrame seg).

(** [handleSegmentMouseMove]: the horizontal shift given to the ghost. *)
Definition constrainedDeltaX (d : DragData) (clientX : Q) : Q :=
  Qmax (clientX - drag_startX d) (- initialLeft d).

(** [handleSegmentMouseUp]: the start frame it commits. *)
Definition newStartFrame (zoom : Q) (d : DragData) (clientX : Q) : Q :=
  let deltaX := clientX - drag_startX d in
  let deltaFrames := inject_Z (Math_round ((deltaX / zoom) * 30)) in
  Qmax 0 (originalStartFrame d + deltaFrames).

(** [handleSegmentMouseUp], with [onUpdateSegment] bound to
    [handleUpdateSegment]; [dragData] is [None] when no drag is under way. *)
Definition handleSegmentMouseUp (zoom : Q) (dragData : option DragData)
    (clientX : Q) (segments : list TimelineSegment) : list TimelineSegment :=
  match dragData with
  | Some d =>
      handleUpdateSegment (drag_id d)
        (startFrame_only (newStartFrame zoom d clientX)) segments
  | None => segments
  end.

(** The time under the pointer, as [handleDrop] and the ruler's
    [updateSeek] compute it from the horizontal offset in the lane. *)
Definition pointerTime (zoom offsetX : Q) : Q := Qmax 0 (offsetX / zoom).

(** [handleDrop] of the timeline, with [onDropAsset] bound to
    [handleDropAssetOnTimeline]. *)
Definition timelineDrop (segId : string) (asset : Asset.t)
    (track : TrackType.t) (zoom offsetX : Q) (prev : list TimelineSegment)
  : list TimelineSegment :=
  handleDropAssetOnTimeline segId asset track (pointerTime zoom offsetX) prev.

(** [totalDuration]: the seconds the ruler spans. *)
Definition totalDuration (segments : list TimelineSegment) : Q :=
  Math_max_of 60 (map (fun s => endFrame s / 30) segments) + 10.

(* ================================================================== *)
(** * Media synchronisation (PlayerPanel timeline effect) *)







(* ================================================================== *)
(** * Vocabulary of the further render properties *)

(** The file stage 4 reads back: the mixed file when some audio was loaded
    and the mix went through, the video-only file otherwise. *)
Definition packaged_file (E : Engine) (audio : list TimelineSegment) : string :=
  match loaded_audio E 0 audio with
  | [] => "video_only.mp4"
  | _ :: _ => if mix_exec_ok E then "final_output.mp4" else "video_only.mp4"
  end.

(** The failure of stage 2, if any, for [k] clips: the first of its awaited
    calls that throws. *)
Definition concat_failure (E : Engine) (k : nat) : option Failure :=
  match k with
  | 1%nat =>
      if negb (single_read_ok E) then Some (Thrown "readFile")
      else if negb (single_write_ok E) then Some (Thrown "writeFile")
      else None
  | _ =>
      if negb (concat_write_ok E) then Some (Thrown "writeFile")
      else if negb (concat_exec_ok E) then Some (Thrown "exec")
      else None
  end.

(** The names a run may hand to [deleteFile]. *)
Definition deletable (name : string) : Prop :=
  (exists j ext, name = inputName j ext)
  \/ (exists j, name = clipName j)
  \/ (exists j, name = audioName j "wav")
  \/ In name ["concat.txt"; "video_only.mp4"; "final_output.mp4"].

(** An event that is no [deleteFile], or one of a name that satisfies
    [ok]. *)
Definition deletes_only (ok : string -> Prop) (e : Event) : Prop :=
  match e with
  | DeleteFile name => ok name
  | _ => True
  end.

(** A string without a dot. *)
Fixpoint dot_free (s : string) : bool :=
  match s with
  | EmptyString => true
  | String c rest => negb (Ascii.eqb c ".") && dot_free rest
  end.

(** The fractions of a run that resolves, as the stages announce them: 0.02
    for the download of the engine, [0.05 + (i / n) * 0.55] for the [i]-th of
    [n] clips, 0.65 for the concatenation, 0.75 for the audio mix, 0.92 for
    the packaging and 1 at the end. *)
Definition resolved_progress (E : Engine) (n : nat)
    (audio : list TimelineSegment) : list Q :=
  ((if loaded E then [] else [0.02])
     ++ map (fun i => 0.05 + (inject_Z (Z.of_nat i) / inject_Z (Z.of_nat n)) * 0.55)
            (seq 0 n)
     ++ [0.65]
     ++ (match audio with [] => [] | _ :: _ => [0.75] end)
     ++ [0.92; 1.0])%list.


(** The arguments of the progress callback, in order. *)
Definition reports_of (t : list Event) : list (Q * string) :=
  flat_map (fun e => match e with OnProgress p stage => [(p, stage)] | _ => [] end) t.

(* ================================================================== *)
(** * Export dialog (RenderModal component) *)

(** ['rendering' | 'done' | 'error']. *)
Inductive RenderState : Type :=
| StateRendering
| StateDone
| StateError.

(** The state of the dialog. *)
Record Modal : Type := mkModal {
  modal_progress : Q;
  modal_stage : string;
  modal_state : RenderState;
  downloadUrl : option string;
  modal_error : string;
  logs : list string
}.

Definition initialModal : Modal :=
  mkModal 0 "Initializing..." StateRendering None ""
          ["[init] Segmenta Export Engine v1.0"].

(** [xs.slice(-n)]: the last [n] elements, or all of them. *)
Definition slice_last {A : Type} (n : nat) (xs : list A) : list A :=
  skipn (List.length xs - n) xs.

(** [x.toFixed(0)], for a magnitude below [10^21]: the nearest integer, the
    larger one on a tie, after the sign. *)
Definition toFixed0 (x : Q) : string :=
  if Qlt_bool x 0 then "-" ++ int_str (Math_round (- x))
  else int_str (Math_round x).

Fixpoint spaces (n : nat) : string :=
  match n with
  | O => ""
  | S k => " " ++ spaces k
  end.

(** [s.padStart(n, ' ')]. *)
Definition padStart (n : nat) (s : string) : string :=
  spaces (n - String.length s) ++ s.

(** The line [handleProgress] adds to the log. *)
Definition logLine (p : Q) (s : string) : string :=
  "[" ++ padStart 3 (toFixed0 (p * 100)) ++ "%] " ++ s.

(** [handleProgress]. *)
Definition handleProgress (p : Q) (s : string) (m : Modal) : Modal :=
  mkModal (Qmin (p * 100) 100) s (modal_state m) (downloadUrl m)
          (modal_error m) (slice_last 50 (logs m) ++ [logLine p s])%list.

(** What an event of the run does to the dialog: only the progress callback
    reaches it. *)
Definition onEvent (m : Modal) (e : Event) : Modal :=
  match e with
  | OnProgress p s => handleProgress p s m
  | _ => m
  end.

(** The dialog after the events [t] of a run. *)
Definition during (t : list Event) : Modal := fold_left onEvent t initialModal.

(** [err.message || 'An unknown error occurred during export.'];
    [thrownMessage call] is the [message] of the value the engine call
    rejected with, the empty string standing for a missing one. *)
Definition errorMessage (thrownMessage : string -> string) (err : Failure)
  : string :=
  let message :=
    match err with
    | Error m => m
    | Thrown call => thrownMessage call
    end in
  if String.eqb message "" then "An unknown error occurred during export."
  else message.

(** The effect of the dialog: the run with [handleProgress] as its callback,
    then the [then] or the [catch] handler. *)
Definition exportEffect (thrownMessage : string -> string) (E : Engine)
    (segments : list TimelineSegment) (assets : list Asset.t) : Modal :=
  let run := renderTimeline E segments assets in
  let m := during (trace run) in
  match completion run with
  | Normal url =>
      mkModal 100 (modal_stage m) StateDone (Some url) (modal_error m) (logs m)
  | Throw err =>
      mkModal (modal_progress m) (modal_stage m) StateError (downloadUrl m)
              (errorMessage thrownMessage err) (logs m)
  end.

(* ================================================================== *)
(** * Director mode: [handleDirectorApprove] (App component) *)

(** The fields of a storyboard scene that the handler reads. *)
Record StoryboardSegment : Type := mkScene {
  scene_id : nat;
  action : string;
  camera_movement : string;
  imgA : option Asset.t;
  imgB : option Asset.t;
  audio : option Asset.t
}.

(** The three [crypto.randomUUID()] calls of one iteration. *)
Inductive UuidRole : Type :=
| ForAsset
| ForVideo
| ForAudio.

(** The loop over [storyboardSegments], from the scene at position [k].
    [generateVideo k] is what the call for that scene resolves with, [None]
    when it rejects; [uuid k r] is the identifier drawn for role [r] in that
    iteration.  The result holds the assets handed to [setAssets] so far, and
    [newSegments] unless a call rejected. *)
Fixpoint renderScenes (generateVideo : nat -> option string)
    (uuid : nat -> UuidRole -> string) (includeAudio : bool) (k : nat)
    (scenes : list StoryboardSegment) (currentStartFrame : Q)
    (newSegments : list TimelineSegment) (added : list Asset.t)
  : list Asset.t * option (list TimelineSegment) :=
  match scenes with
  | [] => (added, Some newSegments)
  | scene :: rest =>
      match imgA scene, imgB scene with
      | Some _, Some _ =>
          match generateVideo k with
          | None => (added, None)
          | Some videoUrl =>
              let vidAsset :=
                Asset.mk (uuid k ForAsset) AssetType.VIDEO videoUrl
                         ("Scene " ++ nat_str (scene_id scene) ++ " - Final")
                         "video/mp4" (Some 5) in
              let duration0 := 5 in
              let lengthInFrames := duration0 * 30 in
              let videoSegId := uuid k ForVideo in
              let video :=
                mkSegment videoSegId (Asset.id vidAsset) TrackType.VIDEO_MAIN
                  currentStartFrame (currentStartFrame + lengthInFrames)
                  duration0
                  ("Sc " ++ nat_str (scene_id scene) ++ ": " ++ action scene)
                  true None None (Some (Asset.url vidAsset))
                  (Some AssetType.VIDEO) None in
              let voice :=
                match (if includeAudio then audio scene else None) with
                | Some track =>
                    [mkSegment (uuid k ForAudio) (Asset.id track) TrackType.AUDIO
                       currentStartFrame (currentStartFrame + lengthInFrames)
                       duration0 ("VO: " ++ action scene) true None
                       (Some videoSegId) (Some (Asset.url track))
                       (Some AssetType.AUDIO) None]
                | None => []
                end in
              renderScenes generateVideo uuid includeAudio (S k) rest
                (currentStartFrame + lengthInFrames)
                (newSegments ++ video :: voice)%list
                (added ++ [vidAsset])%list
          end
      | _, _ =>
          renderScenes generateVideo uuid includeAudio (S k) rest
            currentStartFrame newSegments added
      end
  end.

(** The frame the first scene starts on: the last end frame of the store the
    handler sees, or 0 for an empty one. *)
Definition firstSceneFrame (seen : list TimelineSegment) : Q :=
  match map endFrame seen with
  | [] => 0
  | e :: es => Math_max_of e es
  end.

(** [handleDirectorApprove], on the asset library and the segment store.
    [seen] is the store of the render the handler was created in, from which
    it computes the first start frame; [prevAssets] and [prev] are what the
    functional updates find.  The loading indicator, the view mode and the
    alert of the [catch] block are left out. *)
Definition handleDirectorApprove (generateVideo : nat -> option string)
    (uuid : nat -> UuidRole -> string) (includeAudio : bool)
    (storyboardSegments : list StoryboardSegment)
    (seen : list TimelineSegment)
    (prevAssets : list Asset.t) (prev : list TimelineSegment)
  : list Asset.t * list TimelineSegment :=
  let result :=
    renderScenes generateVideo uuid includeAudio 0 storyboardSegments
                 (firstSceneFrame seen) [] [] in
  ((prevAssets ++ fst result)%list,
   match snd result with
   | Some newSegments => (prev ++ newSegments)%list
   | None => prev
   end).

(** A scene the loop renders: both of its frames are there. *)
Definition has_frames (scene : StoryboardSegment) : bool :=
  match imgA scene, imgB scene with
  | Some _, Some _ => true
  | _, _ => false
  end.


(** Segments laid out back to back from frame [c]: one Main-Video segment of
    150 frames per scene, without a link, each followed or not by an Audio
    segment over the same frames that names it as linked. *)
Inductive back_to_back : Q -> list TimelineSegment -> Prop :=
| btb_done (c : Q) : back_to_back c []
| btb_video (c : Q) (v : TimelineSegment) (rest : list TimelineSegment) :
    trackId v = TrackType.VIDEO_MAIN ->
    startFrame v = c -> endFrame v = c + 150 -> duration v = 5 ->
    linkedSegmentId v = None ->
    back_to_back (c + 150) rest ->
    back_to_back c (v :: rest)
| btb_pair (c : Q) (v a : TimelineSegment) (rest : list TimelineSegment) :
    trackId v = TrackType.VIDEO_MAIN ->
    startFrame v = c -> endFrame v = c + 150 -> duration v = 5 ->
    linkedSegmentId v = None ->
    trackId a = TrackType.AUDIO ->
    startFrame a = c -> endFrame a = c + 150 -> duration a = 5 ->
    linkedSegmentId a = Some (id v) ->
    back_to_back (c + 150) rest ->
    back_to_back c (v :: a :: rest).

(* ================================================================== *)
(** * The editor as a whole (App component) *)

(** The part of the state of [App] that the handlers above read and write:
    [segments] and the transport. *)
Record Studio : Type := mkStudio {
  store : list TimelineSegment;
  clock : Transport
}.

(** The state [App] mounts with. *)
Definition initialStudio : Studio :=
  mkStudio initialSegments (mkTransport TIMELINE 0 false 0).

(** A segment with sound frames: it starts at or after frame 0, does not end
    before it starts and has a duration that is not negative. *)
Definition segment_ok (s : TimelineSegment) : Prop :=
  0 <= startFrame s /\ startFrame s <= endFrame s /\ 0 <= duration s.

Definition studio_ok (st : Studio) : Prop :=
  Forall segment_ok (store st) /\ 0 <= timelineTime (clock st).

(** The states the editor can get into.  Every constructor is one handler
    on the state it finds; animation frames carry timestamps that do not run
    backwards, the zoom is positive, dropped assets carry a duration that is
    not negative or none, and the store that [handleDirectorApprove] looked
    at is the store of some earlier state. *)
Inductive Reachable : Studio -> Prop :=
| reach_init : Reachable initialStudio
| reach_tick (st : Studio) (timestamp : Q) :
    Reachable st -> lastTick (clock st) <= timestamp ->
    Reachable (mkStudio (store st) (loop (store st) timestamp (clock st)))
| reach_toggle (st : Studio) :
    Reachable st ->
    Reachable (mkStudio (store st) (toggleTimelinePlay (store st) (clock st)))
| reach_seek (st : Studio) (t : Q) :
    Reachable st ->
    Reachable (mkStudio (store st) (handleSeek (store st) t (clock st)))
| reach_select (st : Studio) :
    Reachable st ->
    Reachable (mkStudio (store st) (handleSelectAsset (clock st)))
| reach_drop (st : Studio) (segId : string) (asset : Asset.t)
    (track : TrackType.t) (zoom offsetX : Q) :
    Reachable st -> duration_ok asset -> 0 < zoom ->
    Reachable (mkStudio (timelineDrop segId asset track zoom offsetX (store st))
                        (clock st))
| reach_player_drop (st : Studio) (segId : string) (asset : Asset.t) (x y : Q) :
    Reachable st -> duration_ok asset ->
    Reachable (mkStudio (handleDropAssetOnPlayer segId asset x y
                           (timelineTime (clock st)) (store st))
                        (clock st))
| reach_drag (st : Studio) (zoom pressX releaseX : Q) (seg : TimelineSegment) :
    Reachable st -> In seg (store st) -> 0 < zoom ->
    Reachable (mkStudio (handleSegmentMouseUp zoom
                           (Some (handleMouseDownSegment zoom pressX seg))
                           releaseX (store st))
                        (clock st))
| reach_delete (st : Studio) (id0 : string) :
    Reachable st ->
    Reachable (mkStudio (handleDeleteSegment id0 (store st)) (clock st))
| reach_unlink (st : Studio) (id0 : string) :
    Reachable st ->
    Reachable (mkStudio (handleUnlink id0 (store st)) (clock st))
| reach_director (st before : Studio) (generateVideo : nat -> option string)
    (uuid : nat -> UuidRole -> string) (includeAudio : bool)
    (scenes : list StoryboardSegment) (assets : list Asset.t) :
    Reachable st -> Reachable before ->
    Reachable (mkStudio (snd (handleDirectorApprove generateVideo uuid
                                includeAudio scenes (store before) assets
                                (store st)))
                        (clock st)).

(* ================================================================== *)
(** * Ruler and playhead ([components/Timeline.tsx]) *)

Definition HEADER_WIDTH : Q := 96.

(** The [left] of the playhead, in pixels of the scrolled content. *)
Definition playheadLeft (zoom currentTime : Q) : Q :=
  HEADER_WIDTH + currentTime * zoom.

(** [updateSeek] of the ruler, with [onSeek] bound to [handleSeek];
    [relativeX] is the pointer position in the lane,
    [clientX - rect.left + scrollLeft - HEADER_WIDTH]. *)
Definition updateSeek (zoom relativeX : Q) (segments : list TimelineSegment)
    (st : Transport) : Transport :=
  handleSeek segments (pointerTime zoom relativeX) st.

(* ================================================================== *)
(** * Image preloading ([utils/PreloadManager.ts]) *)

Module PreloadManager.

(** One [load] call: the keys of the manager's [images] map, the local
    counter [loaded], the arguments given to [onProgress] so far and the
    number of times [resolve] was called. *)
Record t : Type := mk {
  images : list string;
  loaded : nat;
  reported : list Q;
  resolves : nat
}.

(** [this.images.has(url)]. *)
Definition has (url : string) (st : t) : bool :=
  existsb (String.eqb url) (images st).

(** [this.images.set(url, img)], on the keys. *)
Definition set (url : string) (st : t) : t :=
  mk (if has url st then images st else (images st ++ [url])%list)
     (loaded st) (reported st) (resolves st).

(** [loaded++; onProgress(loaded / total); if (loaded === total) resolve()]. *)
Definition count (total : nat) (st : t) : t :=
  let n := S (loaded st) in
  mk (images st) n
     (reported st ++ [inject_Z (Z.of_nat n) / inject_Z (Z.of_nat total)])%list
     (if Nat.eqb n total then S (resolves st) else resolves st).

(** The [forEach] callback: a cached URL is counted at once, and an image is
    created for any other; the second component lists the URLs of the images
    created so far. *)
Definition visit (total : nat) (acc : t * list string) (url : string)
  : t * list string :=
  if has url (fst acc) then (count total (fst acc), snd acc)
  else (fst acc, (snd acc ++ [url])%list).

(** The synchronous part of [load], on a manager whose map holds [cache]. *)
Definition load (cache urls : list string) : t * list string :=
  match List.length urls with
  | O => (mk cache 0 [1] 1, [])
  | S _ =>
      fold_left (visit (List.length urls)) urls (mk cache 0 [] 0, [])
  end.

(** [onload] or [onerror] of the [k]-th image created. *)
Inductive ImageEvent : Type :=
| Onload (k : nat)
| Onerror (k : nat).

Definition image_of (e : ImageEvent) : nat :=
  match e with Onload k | Onerror k => k end.

(** The handler of an image event; an index without an image has no
    handler. *)
Definition handle (total : nat) (created : list string) (st : t)
    (e : ImageEvent) : t :=
  match nth_error created (image_of e) with
  | Some url =>
      match e with
      | Onload _ => count total (set url st)
      | Onerror _ => count total st
      end
  | None => st
  end.

(** [load], then the image events in the order they fire. *)
Definition run (cache urls : list string) (events : list ImageEvent) : t :=
  fold_left (handle (List.length urls) (snd (load cache urls))) events
            (fst (load cache urls)).

(** The URLs of [urls] that the map does not hold, with repetitions. *)
Definition uncached (cache urls : list string) : list string :=
  filter (fun url => negb (existsb (String.eqb url) cache)) urls.

(** The number of times a counter that runs from [a] up to [b] passes
    [total]. *)
Definition passes (total a b : nat) : nat :=
  if Nat.ltb a total && Nat.leb total b then 1 else 0.

(** The state [st] is the state [st0] after some counting. *)
Definition counted (total : nat) (st0 st : t) : Prop :=
  (loaded st0 <= loaded st)%nat
  /\ reported st
     = (reported st0
        ++ map (fun k => inject_Z (Z.of_nat k) / inject_Z (Z.of_nat total))
               (seq (S (loaded st0)) (loaded st - loaded st0)))%list
  /\ resolves st = (resolves st0 + passes total (loaded st0) (loaded st))%nat.

End PreloadManager.

(* ================================================================== *)
(** * Image sequence canvas (ImageSequenceCanvas component) *)

(** The frame drawn for a scroll progress [latest], for [n] URLs. *)
Definition frameIndex (n : nat) (latest : Q) : Z :=
  Z.min (Z.of_nat n - 1)
        (Z.max 0 (Qfloor (latest * (inject_Z (Z.of_nat n) - 1)))).

(* ================================================================== *)
(** * Asset panel: [processFile] (AssetPanel component) *)


(* ================================================================== *)
(** * Properties of numbers *)

Lemma Qlt_bool_iff (a b : Q) : Qlt_bool a b = true <-> a < b.
Proof.
  unfold Qlt_bool. rewrite negb_true_iff. split.
  - intros H. apply Qnot_le_lt. intros Hle.
    apply Qle_bool_iff in Hle. congruence.
  - intros H. destruct (Qle_bool b a) eqn:Hb; [|reflexivity].
    apply Qle_bool_iff in Hb. exfalso. exact (Qlt_not_le _ _ H Hb).
Qed.

(** The floor is the only integer [z] with [z <= x < z + 1]. *)
Lemma Qfloor_unique (x : Q) (z : Z) :
  inject_Z z <= x -> x < inject_Z (z + 1) -> Qfloor x = z.
Proof.
  intros Hlo Hhi.
  assert (H1 : (z <= Qfloor x)%Z).
  { rewrite <- (Qfloor_Z z). now apply Qfloor_resp_le. }
  assert (H2 : (Qfloor x < z + 1)%Z).
  { rewrite Zlt_Qlt. eapply Qle_lt_trans; [apply Qfloor_le | exact Hhi]. }
  lia.
Qed.

(** Rounding leaves a whole number alone. *)
Lemma Math_round_whole (x : Q) : is_whole x -> inject_Z (Math_round x) == x.
Proof.
  unfold is_whole, Math_round. intros H.
  rewrite (Qfloor_unique (x + (1 # 2)) (Qfloor x)).
  - symmetry. exact H.
  - generalize dependent (inject_Z (Qfloor x)). intros q H. lra.
  - rewrite inject_Z_plus. change (inject_Z 1) with 1.
    generalize dependent (inject_Z (Qfloor x)). intros q H. lra.
Qed.

(* ================================================================== *)
(** * Properties of the segment store *)

Section Store.

Implicit Types (prev : list TimelineSegment) (s : TimelineSegment).

Lemma opt_is_true (o : option string) (x : string) :
  opt_is o x = true <-> o = Some x.
Proof.
  destruct o as [v|]; simpl.
  - rewrite String.eqb_eq. split; congruence.
  - split; discriminate.
Qed.

(** With unique ids, [prev.find(p => p.id === id)] is the segment that
    carries the id. *)
Lemma find_by_id prev : forall i s,
  NoDup (map id prev) -> nth_error prev i = Some s ->
  find (fun p => String.eqb (id p) (id s)) prev = Some s.
Proof.
  induction prev as [|a l IH]; intros i s Hnd Hi.
  - destruct i; discriminate.
  - simpl in Hnd. inversion Hnd as [|? ? Hnotin Hnd']; subst.
    destruct i as [|i]; simpl in Hi.
    + injection Hi as ->. simpl. now rewrite String.eqb_refl.
    + simpl. destruct (String.eqb (id a) (id s)) eqn:Heq.
      * apply String.eqb_eq in Heq. exfalso. apply Hnotin.
        rewrite Heq. apply in_map. eapply nth_error_In; eauto.
      * eapply IH; eauto.
Qed.

Lemma unique_id_index prev : forall i j a b,
  NoDup (map id prev) ->
  nth_error prev i = Some a -> nth_error prev j = Some b ->
  id a = id b -> i = j.
Proof.
  intros i j a b Hnd Ha Hb Hid.
  rewrite NoDup_nth_error in Hnd. apply Hnd.
  - rewrite length_map. apply nth_error_Some. congruence.
  - rewrite !nth_error_map, Ha, Hb. simpl. now rewrite Hid.
Qed.

Lemma handleUpdateSegment_nth id0 u prev i :
  nth_error (handleUpdateSegment id0 u prev) i
  = option_map (updateOne id0 u prev) (nth_error prev i).
Proof. unfold handleUpdateSegment. apply nth_error_map. Qed.

(** One update keeps the duration of every segment. *)
Lemma updateOne_duration id0 x prev s :
  duration (updateOne id0 (startFrame_only x) prev s) = duration s.
Proof.
  unfold updateOne. simpl.
  destruct (String.eqb (id s) id0); [reflexivity|].
  destruct (find _ prev) as [m|]; [|reflexivity].
  destruct (opt_is _ _); reflexivity.
Qed.

(** A segment the update rewrites ends [duration * 30] frames after its
    start; any other segment is returned as it was. *)
Lemma updateOne_cases id0 x prev s :
  let s' := updateOne id0 (startFrame_only x) prev s in
  (startFrame s' = x /\ endFrame s' = x + duration s * 30) \/ s' = s.
Proof.
  unfold updateOne. simpl.
  destruct (String.eqb (id s) id0); [left; split; reflexivity|].
  destruct (find _ prev) as [m|]; [|right; reflexivity].
  destruct (opt_is _ _); [left; split; reflexivity | right; reflexivity].
Qed.

Lemma handleUpdateSegment_keeps_equation id0 x prev :
  Forall whole_frames prev -> Forall frame_equation prev ->
  Forall whole_frames (handleUpdateSegment id0 (startFrame_only x) prev)
  /\ Forall frame_equation (handleUpdateSegment id0 (startFrame_only x) prev).
Proof.
  intros Hw He. unfold handleUpdateSegment.
  rewrite !Forall_map. rewrite Forall_forall in Hw, He.
  split; apply Forall_forall; intros s Hs.
  - unfold whole_frames. rewrite updateOne_duration. now apply Hw.
  - unfold frame_equation. rewrite updateOne_duration.
    destruct (updateOne_cases id0 x prev s) as [[Hs1 Hs2]|Hsame].
    + rewrite Hs1, Hs2. rewrite Math_round_whole by now apply Hw.
      reflexivity.
    + rewrite Hsame. now apply He.
Qed.

End Store.

(** C1 fails as stated: after a video asset is dropped on the timeline and
    its video segment is removed, the audio segment that was split off it
    remains and still names the removed segment in [linkedSegmentId]. *)
Lemma remove_leaves_dangling_link :
  let clip := Asset.mk "asset-1" AssetType.VIDEO "blob:clip" "clip.mp4"
                       "video/mp4" (Some 5) in
  let store := handleDropAssetOnTimeline "s" clip TrackType.VIDEO_MAIN 0 [] in
  exists a, In a (handleDeleteSegment "s" store)
            /\ linkedSegmentId a = Some "s".
Proof.
  simpl. eexists. split; [left; reflexivity | reflexivity].
Qed.

(** C1, amended: [remove(id)] deletes exactly the segments whose id is [id];
    every other segment stays in the store as it was, so a segment that named
    the removed one in [linkedSegmentId] still names it after the call. *)
Theorem remove_keeps_other_segments :
  forall (id0 : string) (prev : list TimelineSegment),
    (forall s, In s (handleDeleteSegment id0 prev) <-> In s prev /\ id s <> id0)
    /\ (forall s, In s prev -> id s <> id0 -> linkedSegmentId s = Some id0 ->
          exists s', In s' (handleDeleteSegment id0 prev)
                     /\ linkedSegmentId s' = Some id0).
Proof.
  intros id0 prev.
  assert (Hin : forall s, In s (handleDeleteSegment id0 prev)
                          <-> In s prev /\ id s <> id0).
  { intros s. unfold handleDeleteSegment. rewrite filter_In.
    rewrite negb_true_iff, String.eqb_neq. reflexivity. }
  split; [exact Hin|].
  intros s Hs Hid Hlink. exists s. split; [|exact Hlink].
  apply Hin. now split.
Qed.

(** C2 fails as stated, on both halves.  (1) A voice-over [a] linked to a
    video [v] that starts elsewhere: moving [a] from frame 0 to frame 10 puts
    [v] at frame 10 as well, a move of -90 frames and not of +10.  (2) The
    pair made by dropping a video asset links both ways: with [A] the audio
    half and [B] the video half, [A.linkedSegmentId == B.id], and moving [B]
    moves [A] too. *)
Lemma linked_move_counterexample :
  (let v := mkSegment "v" "clip" TrackType.VIDEO_MAIN 100 250 5 "Sc 1" true
                      None None (Some "blob:v") (Some AssetType.VIDEO) None in
   let a := mkSegment "a" "voice" TrackType.AUDIO 0 150 5 "VO" true
                      None (Some "v") (Some "blob:a") (Some AssetType.AUDIO) None in
   exists v', nth_error (handleUpdateSegment "a" (startFrame_only 10) [v; a]) 0
              = Some v'
              /\ ~ startFrame v' - startFrame v == 10 - startFrame a)
  /\
  (let clip := Asset.mk "asset-1" AssetType.VIDEO "blob:clip" "clip.mp4"
                        "video/mp4" (Some 5) in
   let store := handleDropAssetOnTimeline "s" clip TrackType.VIDEO_MAIN 0 [] in
   exists B A A',
     nth_error store 0 = Some B /\ nth_error store 1 = Some A
     /\ linkedSegmentId A = Some (id B)
     /\ nth_error (handleUpdateSegment (id B) (startFrame_only 30) store) 1
        = Some A'
     /\ ~ startFrame A' == startFrame A).
Proof.
  split.
  - simpl. eexists. split; [reflexivity|]. simpl. intros H. discriminate H.
  - simpl. do 3 eexists.
    repeat (split; [reflexivity|]). simpl. intros H. discriminate H.
Qed.

(** C2, amended: in a store with unique ids, for distinct segments [A] and
    [B] with [A.linkedSegmentId == B.id], [update(A.id, {startFrame: x})]
    puts both on frame [x] in the one call ([B] ends [B.duration * 30] frames
    later), so [B] moves by the delta of [A] exactly when the two started on
    the same frame; and [update(B.id, {startFrame: y})] leaves [A] as it was
    whenever [B] does not name [A] in its own [linkedSegmentId]. *)
Theorem linked_move_sets_same_start :
  forall (prev : list TimelineSegment) (A B : TimelineSegment)
         (i j : nat) (x y : Q),
    NoDup (map id prev) ->
    nth_error prev i = Some A ->
    nth_error prev j = Some B ->
    i <> j ->
    linkedSegmentId A = Some (id B) ->
    let after := handleUpdateSegment (id A) (startFrame_only x) prev in
    let B' := with_frames B x (x + duration B * 30) in
    (exists A', nth_error after i = Some A'
                /\ startFrame A' = x /\ endFrame A' = x + duration A * 30)
    /\ nth_error after j = Some B'
    /\ (startFrame B' - startFrame B == x - startFrame A
        <-> startFrame B == startFrame A)
    /\ (linkedSegmentId B <> Some (id A) ->
        nth_error (handleUpdateSegment (id B) (startFrame_only y) prev) i
        = Some A).
Proof.
  intros prev A B i j x y Hnd HA HB Hij Hlink after B'.
  assert (Hne : String.eqb (id B) (id A) = false).
  { apply String.eqb_neq. intros Heq. apply Hij.
    symmetry. eapply unique_id_index; eauto. }
  assert (Hne' : String.eqb (id A) (id B) = false).
  { rewrite String.eqb_sym. exact Hne. }
  repeat split.
  - exists (updateOne (id A) (startFrame_only x) prev A).
    unfold after. rewrite handleUpdateSegment_nth, HA. simpl.
    unfold updateOne. rewrite String.eqb_refl. simpl. auto.
  - unfold after. rewrite handleUpdateSegment_nth, HB. simpl.
    unfold updateOne. rewrite Hne. simpl.
    rewrite (find_by_id prev i A Hnd HA), Hlink. simpl.
    now rewrite String.eqb_refl.
  - simpl. intros H. lra.
  - simpl. intros H. lra.
  - intros Hback. rewrite handleUpdateSegment_nth, HA. simpl.
    unfold updateOne. rewrite Hne'. simpl.
    rewrite (find_by_id prev j B Hnd HB).
    destruct (opt_is (linkedSegmentId B) (id A)) eqn:Ho; [|reflexivity].
    apply opt_is_true in Ho. contradiction.
Qed.

(** The amended C2 at a voice-over linked one way to its video. *)
Lemma linked_move_sets_same_start_witness :
  let v := mkSegment "v" "clip" TrackType.VIDEO_MAIN 0 150 5 "Sc 1" true
                     None None (Some "blob:v") (Some AssetType.VIDEO) None in
  let a := mkSegment "a" "voice" TrackType.AUDIO 0 150 5 "VO" true
                     None (Some "v") (Some "blob:a") (Some AssetType.AUDIO) None in
  nth_error (handleUpdateSegment "a" (startFrame_only 45) [v; a]) 0
  = Some (with_frames v 45 (45 + 5 * 30))
  /\ nth_error (handleUpdateSegment "v" (startFrame_only 60) [v; a]) 1 = Some a.
Proof.
  intros v a.
  destruct (linked_move_sets_same_start [v; a] a v 1 0 45 60)
    as (_ & HB & _ & Hdir).
  - repeat constructor; simpl; intuition discriminate.
  - reflexivity.
  - reflexivity.
  - discriminate.
  - reflexivity.
  - split; [exact HB|]. apply Hdir. discriminate.
Defined.

(** C3 fails as stated.  (1) In the store the application starts with, the
    second segment spans frames 121 to 240 with a duration of 4 seconds; an
    update of the first segment leaves it so, and 240 is not 121 + 120.
    (2) A dropped asset of 5.37 seconds is 161.1 frames long; after an update
    its segment ends at [x + 161.1], not at [x + round(161.1)]. *)
Lemma frame_equation_counterexample :
  ~ Forall frame_equation (update_calls [("1", 0)] initialSegments)
  /\ (let clip := Asset.mk "asset-2" AssetType.AUDIO "blob:song" "song.mp3"
                           "audio/mpeg" (Some 5.37) in
      let store := handleDropAssetOnTimeline "s" clip TrackType.AUDIO 0 [] in
      ~ Forall frame_equation (update_calls [("s", 30)] store)).
Proof.
  split.
  - intros H. simpl in H. inversion H as [|? ? _ H2]; subst.
    inversion H2 as [|? ? Hbad _]; subst.
    unfold frame_equation in Hbad. vm_compute in Hbad. discriminate Hbad.
  - intros clip store H. simpl in H. inversion H as [|? ? Hbad _]; subst.
    unfold frame_equation in Hbad. vm_compute in Hbad. discriminate Hbad.
Qed.

(** C3, amended: starting from a store in which every segment spans a whole
    number of frames ([duration * 30] is an integer) and satisfies
    [endFrame == startFrame + round(duration * 30)], every segment satisfies
    the equation after each call of any sequence of
    [update(id, {startFrame: x})] calls. *)
Theorem update_calls_keep_frame_equation :
  forall (calls : list (string * Q)) (prev : list TimelineSegment),
    Forall whole_frames prev ->
    Forall frame_equation prev ->
    Forall frame_equation (update_calls calls prev).
Proof.
  induction calls as [|[id0 x] calls IH]; intros prev Hw He.
  - exact He.
  - simpl.
    destruct (handleUpdateSegment_keeps_equation id0 x prev Hw He) as [Hw' He'].
    apply IH; assumption.
Qed.

(** The amended C3 on a linked pair of 5-second segments moved twice. *)
Lemma update_calls_keep_frame_equation_witness :
  let v := mkSegment "v" "clip" TrackType.VIDEO_MAIN 0 150 5 "Sc 1" true
                     None None (Some "blob:v") (Some AssetType.VIDEO) None in
  let a := mkSegment "a" "voice" TrackType.AUDIO 0 150 5 "VO" true
                     None (Some "v") (Some "blob:a") (Some AssetType.AUDIO) None in
  Forall frame_equation (update_calls [("a", 45); ("v", 10)] [v; a]).
Proof.
  intros v a.
  apply (update_calls_keep_frame_equation [("a", 45); ("v", 10)] [v; a]).
  - repeat constructor; vm_compute; reflexivity.
  - repeat constructor; vm_compute; reflexivity.
Defined.

(* ================================================================== *)
(** * Properties of the playback resolver *)

Section Resolver.

Lemma TrackType_eqb_eq (a b : TrackType.t) :
  TrackType.eqb a b = true <-> a = b.
Proof. destruct a, b; simpl; split; congruence. Qed.

Lemma on_track_at_iff track frame s :
  on_track_at track frame s = true <-> trackId s = track /\ covers s frame.
Proof.
  unfold on_track_at, covers.
  rewrite !andb_true_iff, TrackType_eqb_eq, Qle_bool_iff, Qlt_bool_iff.
  tauto.
Qed.

(** [Array.prototype.find] returns the first element that passes. *)
Lemma find_first {A : Type} (p : A -> bool) (l : list A) (x : A) :
  find p l = Some x ->
  exists before after,
    l = (before ++ x :: after)%list /\ p x = true
    /\ forall y, In y before -> p y = false.
Proof.
  induction l as [|a l IH]; simpl; [discriminate|].
  destruct (p a) eqn:Hp.
  - intros [= ->]. exists [], l. repeat split; auto. intros y [].
  - intros H. destruct (IH H) as (b & c & -> & Hx & Hb).
    exists (a :: b), c. repeat split; auto.
    intros y [<-|Hy]; auto.
Qed.

Lemma resolveTrack_first track segments frame :
  first_covering track segments frame (resolveTrack track segments frame).
Proof.
  unfold resolveTrack, first_covering.
  destruct (find _ segments) as [s|] eqn:Hf.
  - destruct (find_first _ _ _ Hf) as (b & c & Hl & Hs & Hb).
    exists b, c. apply on_track_at_iff in Hs. destruct Hs as [Ht Hc].
    repeat split; try assumption; try apply Hc.
    intros x Hx Hbad. apply on_track_at_iff in Hbad.
    rewrite (Hb x Hx) in Hbad. discriminate.
  - intros x Hx Hbad. apply on_track_at_iff in Hbad.
    rewrite (find_none _ _ Hf x Hx) in Hbad. discriminate.
Qed.

End Resolver.

(** C4 fails as stated on the main track.  In the store the application
    starts with, the first segment spans frames 0 to 120 on Main-Video and
    holds frame 0, yet it carries no [assetType]: the effect finds it and then
    sets neither [activeVideoSeg] nor [activeMainImageSeg]. *)
Lemma untyped_main_segment_not_active :
  exists s, resolveTrack TrackType.VIDEO_MAIN initialSegments (0 * 30) = Some s
  /\ covers s (0 * 30)
  /\ activeMainSeg
       (timelineEffect TIMELINE 0 initialSegments
          (mkComposition None None None None)) = None.
Proof.
  eexists. split; [reflexivity|]. split; [|reflexivity].
  split; vm_compute; [discriminate | reflexivity].
Qed.

(** C4, amended: in timeline mode the effect resolves each track at frame
    [time * 30] to the first segment, in store order, that lies on the track
    and whose half-open interval [[startFrame, endFrame)] holds the frame, or
    to none.  On the Overlay and Audio tracks that segment is the active one.
    On Main-Video it becomes the active video segment when its [assetType] is
    VIDEO and the active image segment when it is IMAGE; with any other
    [assetType] nothing is active on Main-Video.  With Main-Video segments
    [[0,120)] and [[121,240)] frame 120 resolves to none, and with
    overlapping same-track segments [[0,150)] and [[100,200)] frame 120
    resolves to the first one. *)
Theorem resolver_selects_first_covering :
  forall (segments : list TimelineSegment) (frame : Q),
    let c := resolveFrame segments frame in
    (forall time st,
        timelineEffect TIMELINE time segments st
        = resolveFrame segments (time * 30))
    /\ first_covering TrackType.OVERLAY segments frame (activeOverlaySeg c)
    /\ first_covering TrackType.AUDIO segments frame (activeAudioSeg c)
    /\ (exists mainSeg,
           first_covering TrackType.VIDEO_MAIN segments frame mainSeg
           /\ activeVideoSeg c
              = (if assetType_is mainSeg AssetType.VIDEO then mainSeg else None)
           /\ activeMainImageSeg c
              = (if assetType_is mainSeg AssetType.IMAGE then mainSeg else None))
    /\ (forall s1 s2,
           startFrame s1 == 0 -> endFrame s1 == 120 ->
           startFrame s2 == 121 -> endFrame s2 == 240 ->
           resolveTrack TrackType.VIDEO_MAIN [s1; s2] 120 = None
           /\ activeMainSeg (resolveFrame [s1; s2] 120) = None)
    /\ (forall track s1 s2,
           trackId s1 = track -> trackId s2 = track ->
           startFrame s1 == 0 -> endFrame s1 == 150 ->
           startFrame s2 == 100 -> endFrame s2 == 200 ->
           resolveTrack track [s1; s2] 120 = Some s1).
Proof.
  intros segments frame c.
  split; [reflexivity|].
  split; [apply resolveTrack_first|].
  split; [apply resolveTrack_first|].
  split.
  - exists (resolveTrack TrackType.VIDEO_MAIN segments frame).
    split; [apply resolveTrack_first|]. unfold c, resolveFrame. simpl.
    split; [reflexivity|].
    destruct (resolveTrack TrackType.VIDEO_MAIN segments frame) as [m|];
      simpl; [|reflexivity].
    destruct (assetType m) as [[ | | ]|]; reflexivity.
  - split.
    + intros s1 s2 H1 H2 H3 H4.
      assert (Hnone : resolveTrack TrackType.VIDEO_MAIN [s1; s2] 120 = None).
      { unfold resolveTrack. simpl.
        assert (E1 : on_track_at TrackType.VIDEO_MAIN 120 s1 = false).
        { destruct (on_track_at TrackType.VIDEO_MAIN 120 s1) eqn:Ho; auto.
          apply on_track_at_iff in Ho. destruct Ho as [_ [_ Hc]].
          rewrite H2 in Hc. exfalso. lra. }
        assert (E2 : on_track_at TrackType.VIDEO_MAIN 120 s2 = false).
        { destruct (on_track_at TrackType.VIDEO_MAIN 120 s2) eqn:Ho; auto.
          apply on_track_at_iff in Ho. destruct Ho as [_ [Hc _]].
          rewrite H3 in Hc. exfalso. lra. }
        now rewrite E1, E2. }
      split; [exact Hnone|].
      unfold activeMainSeg, resolveFrame.
      cbn [activeVideoSeg activeMainImageSeg]. now rewrite Hnone.
    + intros track s1 s2 T1 T2 H1 H2 H3 H4.
      unfold resolveTrack. simpl.
      assert (E1 : on_track_at track 120 s1 = true).
      { apply on_track_at_iff. split; [exact T1|].
        unfold covers. rewrite H1, H2. lra. }
      now rewrite E1.
Qed.

(* ================================================================== *)
(** * Properties of the transport clock *)

Section Clock.

Lemma Math_max_of_upper (xs : list Q) : forall x,
  x <= Math_max_of x xs /\ forall y, In y xs -> y <= Math_max_of x xs.
Proof.
  unfold Math_max_of.
  induction xs as [|a xs IH]; intros x; simpl.
  - split; [apply Qle_refl | intros y []].
  - destruct (IH (Qmax x a)) as [H1 H2]. split.
    + eapply Qle_trans; [apply Q.le_max_l | exact H1].
    + intros y [<-|Hy]; [|now apply H2].
      eapply Qle_trans; [apply Q.le_max_r | exact H1].
Qed.

Lemma Math_max_of_attained (xs : list Q) : forall x,
  Math_max_of x xs == x \/ exists y, In y xs /\ Math_max_of x xs == y.
Proof.
  unfold Math_max_of.
  induction xs as [|a xs IH]; intros x; simpl.
  - left. reflexivity.
  - destruct (IH (Qmax x a)) as [H|(y & Hy & H)].
    + destruct (Q.max_dec x a) as [Hm|Hm].
      * left. eapply Qeq_trans; eauto.
      * right. exists a. split; [now left|]. eapply Qeq_trans; eauto.
    + right. exists y. auto.
Qed.

Lemma tickDelta_nonneg (timestamp : Q) (st : Transport) :
  lastTick st <= timestamp -> 0 <= tickDelta timestamp st.
Proof.
  intros H. unfold tickDelta.
  destruct (Qeq_bool (lastTick st) 0).
  - assert (E : (timestamp - timestamp) / 1000 == 0) by field.
    rewrite E. apply Qle_refl.
  - apply Qle_shift_div_l; [reflexivity|]. lra.
Qed.

End Clock.

(** C10 fails as stated: the time is not brought back into range when the
    store shrinks.  From the initial store (8 seconds of content), seek to
    8 s and remove the second segment: the content is now 4 seconds long and
    the clock, which [handleDeleteSegment] does not touch, still reads 8. *)
Lemma clock_outlives_removed_content :
  let st := handleSeek initialSegments 8 (mkTransport TIMELINE 0 false 0) in
  let store := handleDeleteSegment "2" initialSegments in
  timelineTime st == 8
  /\ contentDuration store == 4
  /\ ~ timelineTime st <= contentDuration store.
Proof.
  intros st store.
  split; [vm_compute; reflexivity|].
  split; [vm_compute; reflexivity|].
  intros H. apply Qle_bool_iff in H. vm_compute in H. discriminate H.
Qed.

(** C10, amended: [contentDuration] is the largest [endFrame] of the store
    divided by 30, or 10 for an empty store.  While the store stays as it is
    and its [contentDuration] is not negative, [handleSeek] puts the time
    within [[0, contentDuration]]; a tick whose timestamp is not before the
    previous one keeps a time that lies within the range within it; and a
    tick of a playing clock that reaches or passes [contentDuration] sets the
    time to exactly [contentDuration] and stops playback. *)
Theorem clock_within_content :
  forall (segments : list TimelineSegment) (st : Transport),
    0 <= contentDuration segments ->
    let cd := contentDuration segments in
    (segments = [] -> cd = 10)
    /\ (forall s, In s segments -> endFrame s / 30 <= cd)
    /\ (segments <> [] -> exists s, In s segments /\ cd == endFrame s / 30)
    /\ (forall t,
           0 <= timelineTime (handleSeek segments t st)
           /\ timelineTime (handleSeek segments t st) <= cd)
    /\ (forall timestamp,
           0 <= timelineTime st -> timelineTime st <= cd ->
           lastTick st <= timestamp ->
           0 <= timelineTime (loop segments timestamp st)
           /\ timelineTime (loop segments timestamp st) <= cd)
    /\ (forall timestamp,
           isTimelinePlaying st = true ->
           cd <= timelineTime st + tickDelta timestamp st ->
           timelineTime (loop segments timestamp st) = cd
           /\ isTimelinePlaying (loop segments timestamp st) = false).
Proof.
  intros segments st Hcd cd.
  split; [intros ->; reflexivity|].
  split.
  { intros s Hs. unfold cd, contentDuration.
    destruct segments as [|s0 rest]; [destruct Hs|]. simpl.
    destruct (Math_max_of_upper (map endFrame rest) (endFrame s0)) as [H0 Hr].
    apply Qmult_le_compat_r; [|discriminate].
    destruct Hs as [<-|Hs]; [exact H0|]. apply Hr. now apply in_map. }
  split.
  { intros Hne. unfold cd, contentDuration.
    destruct segments as [|s0 rest]; [congruence|]. simpl.
    destruct (Math_max_of_attained (map endFrame rest) (endFrame s0))
      as [H|(y & Hy & H)].
    - exists s0. split; [now left|]. now rewrite H.
    - apply in_map_iff in Hy. destruct Hy as (s & <- & Hs).
      exists s. split; [now right|]. now rewrite H. }
  split.
  { intros t. unfold handleSeek. simpl. split.
    - apply Q.min_glb; [apply Q.le_max_l | exact Hcd].
    - apply Q.le_min_r. }
  split.
  { intros timestamp H0 H1 Hmono.
    pose proof (tickDelta_nonneg timestamp st Hmono) as Hd.
    unfold loop. destruct (isTimelinePlaying st); [|simpl; auto].
    destruct (Qle_bool (contentDuration segments)
                (timelineTime st + tickDelta timestamp st)) eqn:Hle;
      cbn [timelineTime].
    - split; [exact Hcd | apply Qle_refl].
    - split; [lra|].
      apply Qlt_le_weak. apply Qlt_bool_iff.
      unfold Qlt_bool, cd. now rewrite Hle. }
  { intros timestamp Hplay Hpast. unfold loop. cbv zeta. rewrite Hplay.
    apply Qle_bool_iff in Hpast. unfold cd in Hpast. rewrite Hpast.
    simpl. auto. }
Qed.

(** The amended C10 on the initial store: a playing clock at 7.9 s, ticked
    200 ms later, stops at 8 s. *)
Lemma clock_within_content_witness :
  let st := mkTransport TIMELINE 7.9 true 1000 in
  timelineTime (loop initialSegments 1200 st) = contentDuration initialSegments
  /\ isTimelinePlaying (loop initialSegments 1200 st) = false.
Proof.
  intros st.
  destruct (clock_within_content initialSegments st) as (_ & _ & _ & _ & _ & H).
  - vm_compute. discriminate.
  - apply H; [reflexivity | vm_compute; discriminate].
Defined.

(* ================================================================== *)
(** * Properties of the render pipeline *)

(** ** The monad *)

Section Monad.

Context {A B : Type}.

Lemma trace_bind (m : M A) (k : A -> M B) :
  trace (bind m k)
  = match completion m with
    | Normal a => (trace m ++ trace (k a))%list
    | Throw _ => trace m
    end.
Proof. unfold bind, trace, completion. destruct (snd m); reflexivity. Qed.

Lemma completion_bind (m : M A) (k : A -> M B) :
  completion (bind m k)
  = match completion m with
    | Normal a => completion (k a)
    | Throw e => Throw e
    end.
Proof. unfold bind, completion. destruct (snd m); reflexivity. Qed.

Lemma in_trace_bind (m : M A) (k : A -> M B) (e : Event) :
  In e (trace (bind m k)) ->
  In e (trace m) \/ exists a, completion m = Normal a /\ In e (trace (k a)).
Proof.
  rewrite trace_bind. destruct (completion m) as [a|err] eqn:Hc.
  - rewrite in_app_iff. intros [H|H]; [now left|]. right. now exists a.
  - now left.
Qed.

Lemma in_trace_bind_l (m : M A) (k : A -> M B) (e : Event) :
  In e (trace m) -> In e (trace (bind m k)).
Proof.
  rewrite trace_bind. destruct (completion m); [|auto].
  rewrite in_app_iff. now left.
Qed.

Lemma in_trace_bind_r (m : M A) (k : A -> M B) (a : A) (e : Event) :
  completion m = Normal a -> In e (trace (k a)) -> In e (trace (bind m k)).
Proof.
  intros Hc H. rewrite trace_bind, Hc. rewrite in_app_iff. now right.
Qed.

Lemma all_events_bind (P : Event -> Prop) (m : M A) (k : A -> M B) :
  all_events P m ->
  (forall a, completion m = Normal a -> all_events P (k a)) ->
  all_events P (bind m k).
Proof.
  unfold all_events. intros Hm Hk. rewrite trace_bind.
  destruct (completion m) as [a|err] eqn:Hc; [|exact Hm].
  apply Forall_app. split; [exact Hm | now apply Hk].
Qed.

End Monad.

Lemma all_events_try_catch {A : Type} (P : Event -> Prop) (m : M A)
    (h : Failure -> M A) :
  all_events P m -> (forall e, all_events P (h e)) ->
  all_events P (try_catch m h).
Proof.
  unfold all_events, try_catch, trace. intros Hm Hh.
  destruct (snd m) as [a|e]; [exact Hm|]. simpl.
  apply Forall_app. split; [exact Hm | apply Hh].
Qed.

Lemma all_events_ret {A : Type} (P : Event -> Prop) (a : A) :
  all_events P (ret a).
Proof. constructor. Qed.

Lemma all_events_throw {A : Type} (P : Event -> Prop) (e : Failure) :
  all_events P (@throw A e).
Proof. constructor. Qed.

Lemma all_events_emit (P : Event -> Prop) (e : Event) :
  P e -> all_events P (emit e).
Proof. intros H. repeat constructor. exact H. Qed.

Lemma all_events_await (P : Event -> Prop) (ok : bool) (call : string)
    (e : Event) :
  P e -> all_events P (await ok call e).
Proof. intros H. repeat constructor. exact H. Qed.

Lemma deleteFiles_trace (names : list string) :
  trace (deleteFiles names) = map DeleteFile names
  /\ completion (deleteFiles names) = Normal tt.
Proof.
  induction names as [|n names [IHt IHc]]; [split; reflexivity|].
  unfold deleteFiles in *. simpl fold_right.
  rewrite trace_bind, completion_bind. simpl. rewrite IHt, IHc.
  split; reflexivity.
Qed.

Lemma all_events_deleteFiles (P : Event -> Prop) (names : list string) :
  (forall n, P (DeleteFile n)) -> all_events P (deleteFiles names).
Proof.
  intros H. unfold all_events.
  rewrite (proj1 (deleteFiles_trace names)).
  apply Forall_forall. intros e He. apply in_map_iff in He.
  destruct He as (n & <- & _). apply H.
Qed.






(** ** Progress fractions *)

Lemma progress_of_app (t1 t2 : list Event) :
  progress_of (t1 ++ t2) = (progress_of t1 ++ progress_of t2)%list.
Proof. unfold progress_of. apply flat_map_app. Qed.

Lemma progress_of_deletes (names : list string) :
  progress_of (map DeleteFile names) = [].
Proof. induction names; simpl; auto. Qed.

Lemma progress_of_silent {A : Type} (m : M A) :
  all_events silent m -> progress_of (trace m) = [].
Proof.
  unfold all_events. induction (trace m) as [|e t IH]; intros H; [reflexivity|].
  inversion H as [|? ? He Ht]; subst.
  destruct e; simpl in He; try contradiction; simpl; now apply IH.
Qed.

Lemma climbs_nil (lo hi : Q) : climbs lo hi [].
Proof. split; constructor. Qed.

Lemma climbs_one (lo hi p : Q) : lo <= p -> p < hi -> climbs lo hi [p].
Proof.
  intros H1 H2. split.
  - repeat constructor.
  - repeat constructor; assumption.
Qed.

Lemma climbs_weaken (lo hi lo' hi' : Q) (l : list Q) :
  lo' <= lo -> hi <= hi' -> climbs lo hi l -> climbs lo' hi' l.
Proof.
  intros Hlo Hhi [Hs Hb]. split; [exact Hs|].
  eapply Forall_impl; [|exact Hb]. simpl. intros p [H1 H2]. split; lra.
Qed.

Lemma climbs_app (a b c : Q) (l1 l2 : list Q) :
  climbs a b l1 -> climbs b c l2 -> a <= b -> b <= c ->
  climbs a c (l1 ++ l2).
Proof.
  intros [Hs1 Hb1] [Hs2 Hb2] Hab Hbc. split.
  - induction l1 as [|x l1 IH]; [exact Hs2|]. simpl.
    inversion Hs1 as [|? ? Hs1' Hx]; subst.
    inversion Hb1 as [|? ? Hxb Hb1']; subst.
    constructor; [now apply IH|].
    apply Forall_app. split; [exact Hx|].
    eapply Forall_impl; [|exact Hb2]. simpl. intros p [H1 H2].
    destruct Hxb. lra.
  - apply Forall_app. split.
    + eapply Forall_impl; [|exact Hb1]. simpl. intros p [H1 H2]. split; lra.
    + eapply Forall_impl; [|exact Hb2]. simpl. intros p [H1 H2]. split; lra.
Qed.

Lemma progress_within_bind {A B : Type} (a b c : Q) (m : M A) (k : A -> M B) :
  progress_within a b m ->
  (forall x, completion m = Normal x -> progress_within b c (k x)) ->
  a <= b -> b <= c ->
  progress_within a c (bind m k).
Proof.
  unfold progress_within. intros Hm Hk Hab Hbc. rewrite trace_bind.
  destruct (completion m) as [x|e] eqn:Hc.
  - rewrite progress_of_app. eapply climbs_app; eauto.
  - eapply climbs_weaken; [apply Qle_refl | exact Hbc | exact Hm].
Qed.

Lemma progress_to_end_bind {A B : Type} (a b : Q) (m : M A) (k : A -> M B) :
  progress_within a b m ->
  (forall x, completion m = Normal x -> progress_to_end b (k x)) ->
  a <= b -> b <= 1 ->
  progress_to_end a (bind m k).
Proof.
  unfold progress_within, progress_to_end.
  intros Hm Hk Hab Hb1. rewrite trace_bind, completion_bind.
  destruct (completion m) as [x|e] eqn:Hc.
  - destruct (Hk x eq_refl) as [(e & He & Hcl)|(y & l & Hy & Hl & Hcl)].
    + left. exists e. split; [exact He|].
      rewrite progress_of_app. eapply climbs_app; eauto.
    + right. exists y, (progress_of (trace m) ++ l)%list.
      split; [exact Hy|]. split.
      * rewrite progress_of_app, Hl. now rewrite app_assoc.
      * eapply climbs_app; eauto.
  - left. exists e. split; [reflexivity|].
    eapply climbs_weaken; [apply Qle_refl | exact Hb1 | exact Hm].
Qed.

Lemma progress_to_end_throw {A : Type} (lo : Q) (e : Failure) :
  progress_to_end lo (@throw A e).
Proof. left. exists e. split; [reflexivity | apply climbs_nil]. Qed.

(** ** Sorting by [startFrame] *)

Lemma insert_by_startFrame_perm (s : TimelineSegment) (l : list TimelineSegment) :
  Permutation (insert_by_startFrame s l) (s :: l).
Proof.
  induction l as [|x r IH]; simpl; [reflexivity|].
  destruct (Qle_bool (startFrame s) (startFrame x)); [reflexivity|].
  rewrite IH. apply perm_swap.
Qed.

Lemma sort_by_startFrame_perm (l : list TimelineSegment) :
  Permutation (sort_by_startFrame l) l.
Proof.
  induction l as [|s r IH]; simpl; [reflexivity|].
  rewrite insert_by_startFrame_perm. now constructor.
Qed.



Lemma in_videoSegments (segments : list TimelineSegment) (s : TimelineSegment) :
  In s (videoSegments segments)
  <-> In s segments /\ exportable TrackType.VIDEO_MAIN s = true.
Proof.
  unfold videoSegments. rewrite <- filter_In. split; intros H.
  - eapply Permutation_in; [apply sort_by_startFrame_perm | exact H].
  - eapply Permutation_in; [symmetry; apply sort_by_startFrame_perm | exact H].
Qed.

Lemma in_audioSegments (segments : list TimelineSegment) (s : TimelineSegment) :
  In s (audioSegments segments)
  <-> In s segments /\ exportable TrackType.AUDIO s = true.
Proof.
  unfold audioSegments. rewrite <- filter_In. split; intros H.
  - eapply Permutation_in; [apply sort_by_startFrame_perm | exact H].
  - eapply Permutation_in; [symmetry; apply sort_by_startFrame_perm | exact H].
Qed.

(** A segment that passes the export filter carries its URL. *)
Lemma exportable_url (track : TrackType.t) (s : TimelineSegment) :
  exportable track s = true ->
  assetUrl s = Some (or_else (assetUrl s) "") /\ or_else (assetUrl s) "" <> "".
Proof.
  unfold exportable, truthy. rewrite andb_true_iff. intros [_ H].
  destruct (assetUrl s) as [u|]; [|discriminate]. simpl.
  split; [reflexivity|]. apply String.eqb_neq.
  now apply negb_true_iff.
Qed.

(** ** Stage 1 *)

Lemma attemptClip_completion fate i seg input output acc :
  completion (attemptClip fate i seg input output acc)
  = Normal (match fate with
            | ClipEncoded => (acc ++ [output])%list
            | _ => acc
            end).
Proof. destruct fate; reflexivity. Qed.

Lemma attemptClip_progress fate i seg input output acc :
  progress_of (trace (attemptClip fate i seg input output acc)) = [].
Proof. destruct fate; reflexivity. Qed.


Lemma attemptClip_events (P : Event -> Prop) fate i seg input output acc :
  P (FetchFile (or_else (assetUrl seg) "")) ->
  P (WriteFile input (Fetched (or_else (assetUrl seg) ""))) ->
  P (Exec (encodeArgs seg input output)) ->
  (forall msg err, P (ConsoleError msg err)) ->
  all_events P (attemptClip fate i seg input output acc).
Proof.
  intros HF HW HE HC. unfold all_events.
  destruct fate;
    cbv [attemptClip try_catch encodeClip bind await emit ret
           trace fst snd app]; simpl; repeat constructor; auto.
Qed.

Lemma normalizeClips_completion E assets n : forall segs i acc,
  completion (normalizeClips E assets n i segs acc)
  = Normal (acc ++ map clipName (filter (clip_ok E) (seq i (List.length segs))))%list.
Proof.
  induction segs as [|seg rest IH]; intros i acc.
  - simpl. now rewrite app_nil_r.
  - cbn [normalizeClips]. rewrite completion_bind. cbn [emit completion snd].
    rewrite completion_bind, attemptClip_completion.
    rewrite completion_bind. cbn [deleteFile_quietly emit completion snd].
    rewrite IH. cbn [List.length seq filter]. unfold clip_ok at 2.
    destruct (clip_fate E i); cbn [map]; try reflexivity.
    now rewrite <- app_assoc.
Qed.

Lemma normalizeClips_progress E assets n : forall segs i acc,
  progress_of (trace (normalizeClips E assets n i segs acc))
  = map (stepProgress n) (seq i (List.length segs)).
Proof.
  induction segs as [|seg rest IH]; intros i acc; [reflexivity|].
  cbn [normalizeClips]. rewrite trace_bind. cbn [emit completion snd trace fst].
  rewrite progress_of_app. rewrite trace_bind, attemptClip_completion.
  rewrite progress_of_app, attemptClip_progress.
  rewrite trace_bind. cbn [deleteFile_quietly emit completion snd trace fst].
  rewrite progress_of_app. fold (trace (normalizeClips E assets n (S i) rest
    match clip_fate E i with ClipEncoded => (acc ++ [clipName i])%list | _ => acc end)).
  rewrite IH. reflexivity.
Qed.


Lemma normalizeClips_events (P : Event -> Prop) E assets n : forall segs i acc,
  (forall p stage, P (OnProgress p stage)) ->
  (forall seg, In seg segs -> P (FetchFile (or_else (assetUrl seg) ""))) ->
  (forall name d, P (WriteFile name d)) ->
  (forall seg j ext, In seg segs ->
      P (Exec (encodeArgs seg (inputName j ext) (clipName j)))) ->
  (forall msg err, P (ConsoleError msg err)) ->
  (forall name, P (DeleteFile name)) ->
  all_events P (normalizeClips E assets n i segs acc).
Proof.
  induction segs as [|seg rest IH]; intros i acc HP HF HW HE HC HD.
  - apply all_events_ret.
  - cbn [normalizeClips].
    apply all_events_bind; [apply all_events_emit, HP|]. intros _ _.
    apply all_events_bind.
    { apply attemptClip_events; auto.
      + apply HF. now left.
      + apply HE. now left. }
    intros names _.
    apply all_events_bind; [apply all_events_emit, HD|]. intros _ _.
    apply IH; auto.
    + intros s Hs. apply HF. now right.
    + intros s j ext Hs. apply HE. now right.
Qed.

Lemma stepProgress_bounds (n j : nat) :
  (j < n)%nat -> 0.05 <= stepProgress n j /\ stepProgress n j < 0.6.
Proof.
  intros Hj. unfold stepProgress.
  set (x := inject_Z (Z.of_nat j) / inject_Z (Z.of_nat n)).
  assert (Hn : 0 < inject_Z (Z.of_nat n)).
  { change 0 with (inject_Z 0). rewrite <- Zlt_Qlt. lia. }
  assert (H0 : 0 <= x).
  { unfold x. apply Qle_shift_div_l; [exact Hn|].
    rewrite Qmult_0_l. change 0 with (inject_Z 0). rewrite <- Zle_Qle. lia. }
  assert (H1 : x < 1).
  { unfold x. apply Qlt_shift_div_r; [exact Hn|].
    rewrite Qmult_1_l. rewrite <- Zlt_Qlt. lia. }
  split; lra.
Qed.

Lemma stepProgress_increasing (n j k : nat) :
  (0 < n)%nat -> (j < k)%nat -> stepProgress n j < stepProgress n k.
Proof.
  intros Hn Hjk. unfold stepProgress.
  assert (H : inject_Z (Z.of_nat j) / inject_Z (Z.of_nat n)
              < inject_Z (Z.of_nat k) / inject_Z (Z.of_nat n)).
  { apply Qmult_lt_compat_r.
    - apply Qinv_lt_0_compat. change 0 with (inject_Z 0).
      rewrite <- Zlt_Qlt. lia.
    - rewrite <- Zlt_Qlt. lia. }
  lra.
Qed.

Lemma stepProgress_climbs (n : nat) : forall len i,
  (i + len <= n)%nat ->
  climbs 0.05 0.6 (map (stepProgress n) (seq i len)).
Proof.
  induction len as [|len IH]; intros i Hi; [apply climbs_nil|].
  cbn [seq map]. destruct (IH (S i)) as [Hs Hb]; [lia|]. split.
  - constructor; [exact Hs|].
    apply Forall_forall. intros q Hq. apply in_map_iff in Hq.
    destruct Hq as (k & <- & Hk). apply in_seq in Hk.
    apply stepProgress_increasing; lia.
  - constructor; [|exact Hb]. apply stepProgress_bounds. lia.
Qed.

Lemma normalizeClips_progress_within E assets segs acc :
  progress_within 0.05 0.6
    (normalizeClips E assets (List.length segs) 0 segs acc).
Proof.
  unfold progress_within. rewrite normalizeClips_progress.
  apply stepProgress_climbs. lia.
Qed.

(** ** Stage 2 *)

Lemma concatenation_events (P : Event -> Prop) E names :
  (forall name, P (ReadFile name)) ->
  (forall name d, P (WriteFile name d)) ->
  P (Exec concat_argv) ->
  (forall name, P (DeleteFile name)) ->
  all_events P
    (match names with
     | [only] =>
         await (single_read_ok E) "readFile" (ReadFile only) ;;;
         await (single_write_ok E) "writeFile"
               (WriteFile "video_only.mp4" (Contents only))
     | _ =>
         await (concat_write_ok E) "writeFile"
               (WriteFile "concat.txt" (Text (concatList names))) ;;;
         await (concat_exec_ok E) "exec" (Exec concat_argv) ;;;
         deleteFile_quietly "concat.txt"
     end ;;;
     deleteFiles names).
Proof.
  intros HR HW HE HD.
  apply all_events_bind; [|intros; now apply all_events_deleteFiles].
  destruct names as [|a [|b names]];
    repeat (first [ apply all_events_bind; [|intros _ _]
                  | apply all_events_await
                  | apply all_events_emit ]); auto.
Qed.

Lemma concatenate_progress E names :
  progress_of (trace (concatenate E names)) = [0.65].
Proof.
  unfold concatenate. rewrite trace_bind. cbn [emit completion snd trace fst].
  rewrite progress_of_app. rewrite progress_of_silent; [reflexivity|].
  apply concatenation_events; simpl; auto.
Qed.

Lemma concatenate_completion E names :
  concat_ok E = true -> completion (concatenate E names) = Normal tt.
Proof.
  unfold concat_ok. rewrite !andb_true_iff. intros [[[H1 H2] H3] H4].
  unfold concatenate. rewrite completion_bind. cbn [emit completion snd].
  rewrite completion_bind, (proj2 (deleteFiles_trace names)).
  rewrite H1, H2, H3, H4.
  destruct names as [|a [|b names]]; reflexivity.
Qed.


Lemma concatenate_events (P : Event -> Prop) E names :
  (forall p stage, P (OnProgress p stage)) ->
  (forall name, P (ReadFile name)) ->
  (forall name d, P (WriteFile name d)) ->
  P (Exec concat_argv) ->
  (forall name, P (DeleteFile name)) ->
  all_events P (concatenate E names).
Proof.
  intros HP HR HW HE HD. unfold concatenate.
  apply all_events_bind; [apply all_events_emit, HP|]. intros _ _.
  now apply concatenation_events.
Qed.

(** ** Stage 3 *)

Lemma append_assoc (a b c : string) : ((a ++ b) ++ c = a ++ (b ++ c))%string.
Proof. induction a as [|ch a IH]; simpl; [reflexivity | now rewrite IH]. Qed.

Lemma pushAudio_extends seg name st :
  extends_mix st [seg] (pushAudio seg name st).
Proof.
  unfold extends_mix, pushAudio. cbn [filterParts mixLabels validAudioCount
    audioInputArgs delay_chains mix_labels List.length seq map].
  repeat split.
  - do 2 f_equal. unfold delay_chain, adelay_filter, delayMs.
    cbn [append]. rewrite !append_assoc. cbn [append]. reflexivity.
  - lia.
  - eexists. reflexivity.
Qed.

Lemma extends_mix_refl st : extends_mix st [] st.
Proof.
  unfold extends_mix. simpl. rewrite !app_nil_r. repeat split; [lia|].
  exists []. now rewrite app_nil_r.
Qed.

Lemma extends_mix_step st seg st1 segs st2 :
  extends_mix st [seg] st1 -> extends_mix st1 segs st2 ->
  extends_mix st (seg :: segs) st2.
Proof.
  unfold extends_mix.
  intros (F1 & L1 & C1 & X1 & A1) (F2 & L2 & C2 & X2 & A2).
  cbn [delay_chains mix_labels List.length seq map] in *.
  rewrite F2, L2, C2, A2, F1, L1, C1, A1.
  replace (validAudioCount st + 1)%nat with (S (validAudioCount st)) by lia.
  rewrite <- !app_assoc. repeat split; try reflexivity; try lia.
  eexists. reflexivity.
Qed.

Lemma attemptAudio_completion fate i seg name st :
  completion (attemptAudio fate i seg name st)
  = Normal (match fate with
            | AudioLoaded => pushAudio seg name st
            | _ => st
            end).
Proof. destruct fate; reflexivity. Qed.

Lemma attemptAudio_events (P : Event -> Prop) fate i seg name st :
  P (FetchFile (or_else (assetUrl seg) "")) ->
  (forall n d, P (WriteFile n d)) ->
  (forall msg err, P (ConsoleWarn msg err)) ->
  all_events P (attemptAudio fate i seg name st).
Proof.
  intros HF HW HC. unfold all_events.
  destruct fate;
    cbv [attemptAudio try_catch bind await emit ret trace fst snd app];
    simpl; repeat constructor; auto.
Qed.

Lemma loadAudio_completion E assets : forall segs i st,
  exists st',
    completion (loadAudio E assets i segs st) = Normal st'
    /\ extends_mix st (loaded_audio E i segs) st'.
Proof.
  induction segs as [|seg rest IH]; intros i st.
  - exists st. split; [reflexivity | apply extends_mix_refl].
  - cbn [loadAudio loaded_audio].
    destruct (truthy (assetUrl seg)); cbn [negb andb]; [|apply IH].
    rewrite completion_bind, attemptAudio_completion.
    destruct (audio_fate E i).
    + destruct (IH (S i) (pushAudio seg
        (audioName i (getExtension (mimeType_or
           (find (fun a => String.eqb (Asset.id a) (assetId seg)) assets)
           "audio/wav"))) st)) as (st' & Hc & He).
      exists st'. split; [exact Hc|].
      eapply extends_mix_step; [apply pushAudio_extends | exact He].
    + apply IH.
    + apply IH.
Qed.

Lemma loadAudio_events (P : Event -> Prop) E assets : forall segs i st,
  (forall seg, In seg segs -> P (FetchFile (or_else (assetUrl seg) ""))) ->
  (forall n d, P (WriteFile n d)) ->
  (forall msg err, P (ConsoleWarn msg err)) ->
  all_events P (loadAudio E assets i segs st).
Proof.
  induction segs as [|seg rest IH]; intros i st HF HW HC.
  - apply all_events_ret.
  - cbn [loadAudio].
    assert (HF' : forall s, In s rest -> P (FetchFile (or_else (assetUrl s) ""))).
    { intros s Hs. apply HF. now right. }
    destruct (negb (truthy (assetUrl seg))); [now apply IH|].
    apply all_events_bind.
    + apply attemptAudio_events; auto. apply HF. now left.
    + intros st' _. now apply IH.
Qed.

(** After the loop, [mixFilter] is the filter graph of the loaded segments. *)
Lemma mixFilter_graph (segs : list TimelineSegment) (st : MixState) :
  extends_mix initialMix segs st -> mixFilter st = filter_graph segs.
Proof.
  unfold extends_mix, initialMix. cbn [filterParts mixLabels validAudioCount app].
  intros (F & L & C & _). unfold mixFilter, filter_graph, amix_filter.
  rewrite F, L, C. cbn [Nat.add append].
  rewrite !append_assoc. cbn [append]. reflexivity.
Qed.


Lemma mixAudio_events (P : Event -> Prop) E assets audio :
  (forall p stage, P (OnProgress p stage)) ->
  (forall seg, In seg audio -> P (FetchFile (or_else (assetUrl seg) ""))) ->
  (forall n d, P (WriteFile n d)) ->
  (forall msg err, P (ConsoleWarn msg err)) ->
  (forall n, P (DeleteFile n)) ->
  (forall inputs,
      P (Exec (inputs ++ mixTail (filter_graph (loaded_audio E 0 audio))))) ->
  all_events P (mixAudio E assets audio).
Proof.
  intros HP HF HW HC HD HE. unfold mixAudio.
  destruct audio as [|a rest]; [apply all_events_ret|].
  apply all_events_bind; [apply all_events_emit, HP|]. intros _ _.
  apply all_events_bind; [now apply loadAudio_events|].
  intros st Hst.
  destruct (loadAudio_completion E assets (a :: rest) 0 initialMix)
    as (st' & Hc & Hext).
  rewrite Hc in Hst. injection Hst as <-.
  apply all_events_bind.
  - destruct (validAudioCount st'); [apply all_events_ret|].
    apply all_events_try_catch.
    + apply all_events_bind; [|intros; apply all_events_ret].
      apply all_events_await. rewrite (mixFilter_graph _ _ Hext).
      apply HE.
    + intros e. apply all_events_bind; [|intros; apply all_events_ret].
      apply all_events_emit, HC.
  - intros out _.
    apply all_events_bind; [|intros; apply all_events_ret].
    now apply all_events_deleteFiles.
Qed.

Lemma mixAudio_progress_within E assets audio :
  progress_within 0.75 0.92 (mixAudio E assets audio).
Proof.
  unfold progress_within, mixAudio.
  destruct audio as [|a rest]; [apply climbs_nil|].
  rewrite trace_bind. cbn [emit completion snd trace fst].
  rewrite progress_of_app. rewrite progress_of_silent.
  - apply climbs_one; lra.
  - apply all_events_bind; [apply loadAudio_events; simpl; auto|].
    intros st _. apply all_events_bind.
    + destruct (validAudioCount st); [apply all_events_ret|].
      apply all_events_try_catch.
      * apply all_events_bind; [|intros; apply all_events_ret].
        apply all_events_await. exact I.
      * intros e. apply all_events_bind; [|intros; apply all_events_ret].
        apply all_events_emit. exact I.
    + intros out _.
      apply all_events_bind; [|intros; apply all_events_ret].
      apply all_events_deleteFiles. intros; exact I.
Qed.

(** ** Loading the engine, and stage 4 *)

Lemma loadFFmpeg_progress_within E : progress_within 0 0.05 (loadFFmpeg E).
Proof.
  unfold progress_within, loadFFmpeg.
  destruct (loaded E); [apply climbs_nil|].
  destruct (load_ok E); simpl; apply climbs_one; lra.
Qed.

Lemma loadFFmpeg_completion E :
  engine_ready E = true -> completion (loadFFmpeg E) = Normal tt.
Proof.
  unfold engine_ready, loadFFmpeg.
  destruct (loaded E); [reflexivity|]. simpl. now intros ->.
Qed.

Lemma loadFFmpeg_events (P : Event -> Prop) E :
  (forall p stage, P (OnProgress p stage)) -> P EngineLoad ->
  all_events P (loadFFmpeg E).
Proof.
  intros HP HL. unfold loadFFmpeg.
  destruct (loaded E); [apply all_events_ret|].
  apply all_events_bind; [apply all_events_emit, HP|]. intros _ _.
  now apply all_events_await.
Qed.

Lemma package_progress_to_end E out : progress_to_end 0.92 (package E out).
Proof.
  unfold progress_to_end, package. destruct (output_read_ok E).
  - right. exists (object_url E), [0.92]. repeat split.
    + repeat constructor.
    + repeat constructor; lra.
  - left. eexists. split; [reflexivity|]. simpl. apply climbs_one; lra.
Qed.


Lemma package_events (P : Event -> Prop) E out :
  (forall p stage, P (OnProgress p stage)) ->
  (forall name, P (ReadFile name)) ->
  (forall name, P (DeleteFile name)) ->
  all_events P (package E out).
Proof.
  intros HP HR HD. unfold package.
  repeat (first [ apply all_events_bind; [|intros _ _]
                | apply all_events_await
                | apply all_events_emit
                | apply all_events_ret ]); auto.
Qed.

(** ** The whole run *)

(** Every event of a run is one of the following. *)
Lemma renderTimeline_events (P : Event -> Prop) E segments assets :
  (forall p stage, P (OnProgress p stage)) ->
  P EngineLoad ->
  (forall seg, In seg (videoSegments segments) ->
      P (FetchFile (or_else (assetUrl seg) ""))) ->
  (forall seg, In seg (audioSegments segments) ->
      P (FetchFile (or_else (assetUrl seg) ""))) ->
  (forall name d, P (WriteFile name d)) ->
  (forall name, P (ReadFile name)) ->
  (forall name, P (DeleteFile name)) ->
  (forall msg err, P (ConsoleError msg err)) ->
  (forall msg err, P (ConsoleWarn msg err)) ->
  (forall seg j ext, In seg (videoSegments segments) ->
      P (Exec (encodeArgs seg (inputName j ext) (clipName j)))) ->
  P (Exec concat_argv) ->
  (forall inputs,
      P (Exec (inputs ++ mixTail
                 (filter_graph (loaded_audio E 0 (audioSegments segments)))))) ->
  all_events P (renderTimeline E segments assets).
Proof.
  intros HP HL HFv HFa HW HR HD HCe HCw HEe HEc HEm.
  unfold renderTimeline.
  apply all_events_bind; [now apply loadFFmpeg_events|]. intros _ _.
  destruct (videoSegments segments) as [|v video] eqn:Hv;
    [apply all_events_throw|].
  apply all_events_bind; [now apply normalizeClips_events|].
  intros [|c names] _; [apply all_events_throw|].
  apply all_events_bind; [now apply concatenate_events|]. intros _ _.
  apply all_events_bind; [now apply mixAudio_events|]. intros out _.
  now apply package_events.
Qed.

Lemma renderTimeline_progress_to_end E segments assets :
  progress_to_end 0 (renderTimeline E segments assets).
Proof.
  unfold renderTimeline.
  eapply (progress_to_end_bind 0 0.05);
    [apply loadFFmpeg_progress_within | | lra | lra].
  intros _ _.
  destruct (videoSegments segments) as [|v video];
    [apply progress_to_end_throw|].
  eapply (progress_to_end_bind 0.05 0.6);
    [apply normalizeClips_progress_within | | lra | lra].
  intros [|c names] _; [apply progress_to_end_throw|].
  eapply (progress_to_end_bind 0.6 0.75); [ | | lra | lra].
  { unfold progress_within. rewrite concatenate_progress.
    apply climbs_one; lra. }
  intros _ _.
  eapply (progress_to_end_bind 0.75 0.92);
    [apply mixAudio_progress_within | | lra | lra].
  intros out _. apply package_progress_to_end.
Qed.

Lemma videoSegments_none (segments : list TimelineSegment) :
  (forall s, In s segments -> exportable TrackType.VIDEO_MAIN s = false) ->
  videoSegments segments = [].
Proof.
  intros H. unfold videoSegments.
  replace (filter (exportable TrackType.VIDEO_MAIN) segments) with
    (@nil TimelineSegment); [reflexivity|].
  symmetry. induction segments as [|s r IH]; [reflexivity|]. simpl.
  rewrite (H s (or_introl eq_refl)). apply IH.
  intros x Hx. apply H. now right.
Qed.

(** Without exportable video the run is the engine load, then the throw. *)
Lemma renderTimeline_no_video E segments assets :
  videoSegments segments = [] ->
  renderTimeline E segments assets
  = (loadFFmpeg E ;;; throw (Error no_video_message)).
Proof. intros H. unfold renderTimeline. now rewrite H. Qed.

Lemma filter_exportable_url (track : TrackType.t)
    (segments : list TimelineSegment) :
  filter (exportable track) (filter (fun s => truthy (assetUrl s)) segments)
  = filter (exportable track) segments.
Proof.
  induction segments as [|s r IH]; [reflexivity|]. simpl.
  destruct (truthy (assetUrl s)) eqn:Hu; simpl.
  - now rewrite IH.
  - unfold exportable at 2. rewrite Hu, andb_false_r. exact IH.
Qed.

Lemma encodeArgs_no_filter_complex seg j ext :
  ~ In (Lit "-filter_complex") (encodeArgs seg (inputName j ext) (clipName j)).
Proof.
  unfold encodeArgs, inputName, clipName.
  destruct (is_image seg); simpl; intuition discriminate.
Qed.








(** C6: when no segment of the input lies on the Main-Video track, the run
    does nothing but load the engine and rejects: no fetch, write or encode
    is attempted, and once the engine is usable the rejection carries the
    message "No video segments found on the timeline. ...". *)
Theorem no_main_video_rejects_at_once :
  forall (E : Engine) (segments : list TimelineSegment) (assets : list Asset.t),
    (forall s, In s segments -> trackId s <> TrackType.VIDEO_MAIN) ->
    let run := renderTimeline E segments assets in
    (exists reason, settle run = Rejected reason)
    /\ (engine_ready E = true ->
        settle run = Rejected (Error no_video_message))
    /\ trace run = trace (loadFFmpeg E)
    /\ Forall (fun e => is_media_work e = false) (trace run).
Proof.
  intros E segments assets Hnone run.
  assert (Hv : videoSegments segments = []).
  { apply videoSegments_none. intros s Hs. unfold exportable.
    destruct (TrackType.eqb (trackId s) TrackType.VIDEO_MAIN) eqn:Ht;
      [|reflexivity].
    apply TrackType_eqb_eq in Ht. now destruct (Hnone s Hs). }
  unfold run. rewrite (renderTimeline_no_video E segments assets Hv).
  unfold settle, loadFFmpeg, engine_ready.
  destruct (loaded E), (load_ok E); simpl;
    (split; [eexists; reflexivity|]);
    (split; [intros; try reflexivity; discriminate|]);
    (split; [reflexivity|]); repeat constructor.
Qed.

(** C6 on a timeline that holds one voice-over and no video. *)
Lemma no_main_video_rejects_at_once_witness :
  settle (renderTimeline engine_fine [voice_at_2s] [])
  = Rejected (Error no_video_message)
  /\ Forall (fun e => is_media_work e = false)
            (trace (renderTimeline engine_fine [voice_at_2s] [])).
Proof.
  destruct (no_main_video_rejects_at_once engine_fine [voice_at_2s] [])
    as (_ & Hmsg & _ & Hwork).
  - intros s [<-|[]]. discriminate.
  - split; [apply Hmsg; reflexivity | exact Hwork].
Defined.

(** The mix [exec] names its filter right after [-filter_complex]. *)
Lemma mixTail_shape (filter0 : string) :
  exists rest,
    mixTail filter0 = ([Lit "-filter_complex"; Lit filter0] ++ rest)%list.
Proof. unfold mixTail. eexists. cbn [app]. reflexivity. Qed.

(** When some audio segment was loaded, stage 3 runs the mix [exec]. *)
Lemma mixAudio_runs_filter E assets audio :
  loaded_audio E 0 audio <> [] ->
  exists inputs,
    In (Exec (inputs ++ mixTail (filter_graph (loaded_audio E 0 audio)))%list)
       (trace (mixAudio E assets audio)).
Proof.
  intros Hloaded. unfold mixAudio.
  destruct audio as [|a rest]; [now destruct Hloaded|].
  destruct (loadAudio_completion E assets (a :: rest) 0 initialMix)
    as (st & Hst & Hext).
  exists (audioInputArgs st).
  eapply in_trace_bind_r; [reflexivity|].
  eapply in_trace_bind_r; [exact Hst|]. apply in_trace_bind_l.
  rewrite <- (mixFilter_graph _ st Hext).
  destruct Hext as (_ & _ & Hn & _). cbn [initialMix validAudioCount Nat.add] in Hn.
  destruct (validAudioCount st) eqn:Hc.
  { destruct (loaded_audio E 0 (a :: rest)); [now destruct Hloaded | discriminate]. }
  destruct (mix_exec_ok E);
    cbv [try_catch bind await emit ret trace completion fst snd app];
    now left.
Qed.

(** With a usable engine, a clip out of stage 1 and a stage 2 that goes
    through, what stage 3 does is part of the run. *)
Lemma in_run_of_mix E segments assets e :
  engine_ready E = true ->
  encoded_indices E (List.length (videoSegments segments)) <> [] ->
  concat_ok E = true ->
  In e (trace (mixAudio E assets (audioSegments segments))) ->
  In e (trace (renderTimeline E segments assets)).
Proof.
  intros Hready Hgood Hconcat He. unfold renderTimeline.
  eapply in_trace_bind_r; [exact (loadFFmpeg_completion E Hready)|].
  destruct (videoSegments segments) as [|v rest] eqn:Hv;
    [now destruct Hgood|].
  eapply in_trace_bind_r; [apply normalizeClips_completion|].
  cbn [app].
  destruct (map clipName
              (filter (clip_ok E) (seq 0 (List.length (v :: rest)))))
    as [|c names] eqn:Hnames.
  { unfold encoded_indices in Hgood.
    destruct (filter (clip_ok E) (seq 0 (List.length (v :: rest))));
      [now destruct Hgood | discriminate]. }
  eapply in_trace_bind_r; [exact (concatenate_completion E _ Hconcat)|].
  apply in_trace_bind_l. exact He.
Qed.

(** C7: the mix [exec] carries, right after [-filter_complex], the graph of
    the audio segments that were loaded, in loop order: for the [k]-th of
    them a chain [[k+1:a]adelay=<ms>|<ms>,apad[ak]] with
    [ms = round((startFrame / 30) * 1000)], then the labels and
    [amix=inputs=<n>:normalize=0[aout]] with [n] the number of loaded
    segments.  Every [exec] of a run that carries [-filter_complex] has this
    form, and a run that reaches stage 3 with some audio loaded runs one;
    the loaded segments are Audio-track segments of the store that carry a
    URL. *)
Theorem mix_filter_encodes_delays :
  forall (E : Engine) (segments : list TimelineSegment) (assets : list Asset.t),
    let run := renderTimeline E segments assets in
    let mixed := loaded_audio E 0 (audioSegments segments) in
    (forall argv,
        In (Exec argv) (trace run) -> In (Lit "-filter_complex") argv ->
        exists inputs rest,
          argv = (inputs ++ [Lit "-filter_complex"; Lit (filter_graph mixed)]
                         ++ rest)%list)
    /\ (engine_ready E = true ->
        encoded_indices E (List.length (videoSegments segments)) <> [] ->
        concat_ok E = true -> mixed <> [] ->
        exists inputs rest,
          In (Exec (inputs ++ [Lit "-filter_complex"; Lit (filter_graph mixed)]
                           ++ rest)%list)
             (trace run))
    /\ (forall seg, In seg mixed ->
          In seg segments /\ trackId seg = TrackType.AUDIO
          /\ truthy (assetUrl seg) = true).
Proof.
  intros E segments assets run mixed. split; [|split].
  - intros argv Hin Hflag.
    pose proof (renderTimeline_events
      (fun e => forall a, e = Exec a -> In (Lit "-filter_complex") a ->
                  exists inputs, a = (inputs ++ mixTail (filter_graph mixed))%list)
      E segments assets) as H.
    unfold all_events in H. rewrite Forall_forall in H.
    assert (Hform : exists inputs,
              argv = (inputs ++ mixTail (filter_graph mixed))%list).
    { apply (H ltac:(discriminate) ltac:(discriminate) ltac:(discriminate)
               ltac:(discriminate) ltac:(discriminate) ltac:(discriminate)
               ltac:(discriminate) ltac:(discriminate) ltac:(discriminate))
        with (x := Exec argv); auto.
      - intros seg j ext _ a [= <-] Ha.
        now destruct (encodeArgs_no_filter_complex seg j ext).
      - intros a [= <-] Ha. simpl in Ha. intuition discriminate.
      - intros inputs a [= <-] _. now exists inputs. }
    destruct Hform as [inputs ->].
    destruct (mixTail_shape (filter_graph mixed)) as [rest ->].
    now exists inputs, rest.
  - intros Hready Hgood Hconcat Hmixed.
    destruct (mixAudio_runs_filter E assets (audioSegments segments) Hmixed)
      as [inputs Hin].
    destruct (mixTail_shape (filter_graph mixed)) as [rest Hrest].
    exists inputs, rest. rewrite <- Hrest.
    now apply in_run_of_mix.
  - intros seg Hseg.
    assert (Hsub : forall segs i, In seg (loaded_audio E i segs) ->
                     In seg segs /\ truthy (assetUrl seg) = true).
    { induction segs as [|s0 segs IH]; intros i Hi; [destruct Hi|].
      cbn [loaded_audio] in Hi.
      destruct (truthy (assetUrl s0)) eqn:Hu; cbn [andb] in Hi.
      - destruct (audio_fate E i).
        + destruct Hi as [<-|Hi]; [split; [now left | exact Hu]|].
          destruct (IH _ Hi). split; [now right | assumption].
        + destruct (IH _ Hi). split; [now right | assumption].
        + destruct (IH _ Hi). split; [now right | assumption].
      - destruct (IH _ Hi). split; [now right | assumption]. }
    destruct (Hsub _ _ Hseg) as [Hin Hurl].
    apply in_audioSegments in Hin. destruct Hin as [Hin Hexp].
    unfold exportable in Hexp. apply andb_true_iff in Hexp.
    destruct Hexp as [Htrack _]. apply TrackType_eqb_eq in Htrack.
    split; [exact Hin|]. split; [exact Htrack | exact Hurl].
Qed.

(** C7 on one clip and a voice-over that starts at frame 60, that is at
    2.0 seconds: the run executes the mix with a delay of 2000 ms and one
    input. *)
Lemma mix_filter_encodes_delays_witness :
  exists inputs rest,
    In (Exec (inputs
              ++ [Lit "-filter_complex";
                  Lit "[1:a]adelay=2000|2000,apad[a0];[a0]amix=inputs=1:normalize=0[aout]"]
              ++ rest)%list)
       (trace (renderTimeline engine_fine [sample_clip "a" 0; voice_at_2s] [])).
Proof.
  destruct (mix_filter_encodes_delays engine_fine
              [sample_clip "a" 0; voice_at_2s] []) as (_ & H & _).
  apply H.
  - reflexivity.
  - vm_compute. discriminate.
  - reflexivity.
  - vm_compute. discriminate.
Defined.

(** C8: in every run the fractions handed to the progress callback strictly
    increase and lie within [[0, 1]], and the fraction 1 is among them
    exactly when the run resolves. *)
Theorem progress_is_monotone :
  forall (E : Engine) (segments : list TimelineSegment) (assets : list Asset.t),
    let run := renderTimeline E segments assets in
    let reported := progress_of (trace run) in
    StronglySorted Qlt reported
    /\ Forall (fun p => 0 <= p /\ p <= 1) reported
    /\ ((exists p, In p reported /\ p == 1)
        <-> exists url, settle run = Resolved url).
Proof.
  intros E segments assets run reported. subst reported run. unfold settle.
  destruct (renderTimeline_progress_to_end E segments assets)
    as [(e & He & [Hs Hb])|(url & l & Hu & Hl & Hc)].
  - rewrite He. split; [exact Hs|]. split.
    + eapply Forall_impl; [|exact Hb]. simpl. intros p [H0 H1]. split; lra.
    + split.
      * intros (p & Hp & H1). rewrite Forall_forall in Hb.
        destruct (Hb p Hp) as [_ Hlt]. rewrite H1 in Hlt.
        exfalso. exact (Qlt_irrefl _ Hlt).
      * intros [u Hu]. discriminate.
  - rewrite Hu, Hl.
    assert (Hall : climbs 0 2 (l ++ [1.0])).
    { eapply climbs_app; [exact Hc | apply climbs_one; lra | lra | lra]. }
    destruct Hall as [Hs Hb]. split; [exact Hs|]. split.
    + destruct Hc as [_ Hbl]. apply Forall_app. split.
      * eapply Forall_impl; [|exact Hbl]. simpl. intros p [H0 H1]. split; lra.
      * repeat constructor; lra.
    + split; [intros _; now exists url|].
      intros _. exists 1.0. split; [|reflexivity].
      apply in_app_iff. right. now left.
Qed.

(** C9: a run on a store is the run on the same store without the segments
    that carry no (or an empty) [assetUrl]; when no Main-Video segment
    carries one, the run of a usable engine rejects with the
    no-video-segments error; and every fetch and every clip encode of a run
    is that of a segment of the store that carries its URL. *)
Theorem segments_without_url_are_invisible :
  forall (E : Engine) (segments : list TimelineSegment) (assets : list Asset.t),
    let run := renderTimeline E segments assets in
    run = renderTimeline E
            (filter (fun s => truthy (assetUrl s)) segments) assets
    /\ ((forall s, In s segments -> trackId s = TrackType.VIDEO_MAIN ->
                   truthy (assetUrl s) = false) ->
        engine_ready E = true ->
        settle run = Rejected (Error no_video_message))
    /\ (forall url, In (FetchFile url) (trace run) ->
          exists s, In s segments /\ assetUrl s = Some url /\ url <> "")
    /\ (forall argv, In (Exec argv) (trace run) ->
          argv = concat_argv
          \/ In (Lit "-filter_complex") argv
          \/ exists s input output,
               In s segments /\ truthy (assetUrl s) = true
               /\ argv = encodeArgs s input output).
Proof.
  intros E segments assets run.
  split.
  { unfold run, renderTimeline, videoSegments, audioSegments.
    now rewrite !filter_exportable_url. }
  split.
  { intros Hnone Hready.
    assert (Hv : videoSegments segments = []).
    { apply videoSegments_none. intros s Hs. unfold exportable.
      destruct (TrackType.eqb (trackId s) TrackType.VIDEO_MAIN) eqn:Ht;
        [|reflexivity].
      apply TrackType_eqb_eq in Ht. now rewrite (Hnone s Hs Ht). }
    unfold run. rewrite (renderTimeline_no_video E segments assets Hv).
    unfold settle. rewrite completion_bind, (loadFFmpeg_completion E Hready).
    reflexivity. }
  assert (Hurl : forall track seg,
            In seg segments /\ exportable track seg = true ->
            exists s, In s segments
                      /\ assetUrl s = Some (or_else (assetUrl seg) "")
                      /\ or_else (assetUrl seg) "" <> "").
  { intros track seg [Hin Hex]. exists seg.
    destruct (exportable_url track seg Hex). auto. }
  split.
  { intros url Hin.
    pose proof (renderTimeline_events
      (fun e => forall u, e = FetchFile u ->
                  exists s, In s segments /\ assetUrl s = Some u /\ u <> "")
      E segments assets) as H.
    unfold all_events in H. rewrite Forall_forall in H.
    apply (H ltac:(discriminate) ltac:(discriminate)) with (x := FetchFile url);
      auto; try discriminate.
    - intros seg Hseg u [= <-].
      apply (Hurl TrackType.VIDEO_MAIN). now apply in_videoSegments.
    - intros seg Hseg u [= <-].
      apply (Hurl TrackType.AUDIO). now apply in_audioSegments. }
  { intros argv Hin.
    pose proof (renderTimeline_events
      (fun e => forall a, e = Exec a ->
                  a = concat_argv
                  \/ In (Lit "-filter_complex") a
                  \/ exists s input output,
                       In s segments /\ truthy (assetUrl s) = true
                       /\ a = encodeArgs s input output)
      E segments assets) as H.
    unfold all_events in H. rewrite Forall_forall in H.
    apply (H ltac:(discriminate) ltac:(discriminate) ltac:(discriminate)
             ltac:(discriminate) ltac:(discriminate) ltac:(discriminate)
             ltac:(discriminate) ltac:(discriminate) ltac:(discriminate))
      with (x := Exec argv); auto.
    - intros seg j ext Hseg a [= <-]. right. right.
      apply in_videoSegments in Hseg. destruct Hseg as [Hs Hex].
      exists seg, (inputName j ext), (clipName j).
      repeat split; auto.
      unfold exportable in Hex. apply andb_true_iff in Hex. apply Hex.
    - intros a [= <-]. now left.
    - intros inputs a [= <-]. right. left.
      apply in_app_iff. right. now left. }
Qed.

(* ================================================================== *)
(** * Further properties of the segment store *)

Lemma without_link_id (s : TimelineSegment) : id (without_link s) = id s.
Proof. reflexivity. Qed.

Lemma handleUnlink_nth id0 prev i :
  nth_error (handleUnlink id0 prev) i
  = option_map (fun s => if String.eqb (id s) id0 || opt_is (linkedSegmentId s) id0
                         then without_link s else s)
               (nth_error prev i).
Proof. unfold handleUnlink. apply nth_error_map. Qed.

Lemma handleUnlink_ids id0 prev :
  map id (handleUnlink id0 prev) = map id prev.
Proof.
  unfold handleUnlink. rewrite map_map. apply map_ext.
  intros s. now destruct (_ || _).
Qed.

Lemma handleUnlink_names_nobody id0 prev s :
  In s (handleUnlink id0 prev) -> linkedSegmentId s <> Some id0.
Proof.
  unfold handleUnlink. intros Hs Hlink. apply in_map_iff in Hs.
  destruct Hs as (s0 & <- & _).
  destruct (String.eqb (id s0) id0) eqn:He; simpl in Hlink; [discriminate|].
  destruct (opt_is (linkedSegmentId s0) id0) eqn:Ho; [discriminate|].
  apply opt_is_true in Hlink. congruence.
Qed.

(** X1: [unlink(id)] clears the link of the segment [id] and of every
    segment that names [id] as linked, so that afterwards no segment of the
    store names [id]; it keeps the number, the order and the ids of the
    segments, and returns every segment that neither carries nor names [id]
    as it was. *)
Theorem unlink_clears_both_sides :
  forall (id0 : string) (prev : list TimelineSegment),
    let st := handleUnlink id0 prev in
    map id st = map id prev
    /\ (forall s, In s st -> id s = id0 -> linkedSegmentId s = None)
    /\ (forall s, In s st -> linkedSegmentId s <> Some id0)
    /\ (forall i s, nth_error prev i = Some s ->
          exists s', nth_error st i = Some s'
                     /\ (s' = s \/ s' = without_link s)
                     /\ (id s <> id0 -> linkedSegmentId s <> Some id0 -> s' = s)).
Proof.
  intros id0 prev st. split; [apply handleUnlink_ids|].
  assert (Hin : forall s', In s' st ->
            exists s, In s prev
              /\ s' = (if String.eqb (id s) id0 || opt_is (linkedSegmentId s) id0
                       then without_link s else s)).
  { intros s' Hs'. unfold st, handleUnlink in Hs'. apply in_map_iff in Hs'.
    destruct Hs' as (s & <- & Hs). now exists s. }
  split.
  { intros s' Hs' Hid. destruct (Hin s' Hs') as (s & _ & ->).
    destruct (String.eqb (id s) id0) eqn:He; simpl in *; [reflexivity|].
    destruct (opt_is (linkedSegmentId s) id0); [reflexivity|].
    apply String.eqb_neq in He. contradiction. }
  split; [intros s' Hs'; now apply (handleUnlink_names_nobody id0 prev)|].
  intros i s Hi. unfold st. rewrite handleUnlink_nth, Hi. simpl.
  eexists. split; [reflexivity|]. split.
  - destruct (_ || _); auto.
  - intros Hid Hlink.
    apply String.eqb_neq in Hid. rewrite Hid. simpl.
    destruct (opt_is (linkedSegmentId s) id0) eqn:Ho; [|reflexivity].
    apply opt_is_true in Ho. contradiction.
Qed.

(** X2: in a store with unique ids, once [unlink(A.id)] was called, moving
    [A] moves no other segment, and moving any other segment leaves [A]
    where it is. *)
Theorem unlinked_segment_moves_alone :
  forall (prev : list TimelineSegment) (A : TimelineSegment) (i : nat) (x : Q),
    NoDup (map id prev) ->
    nth_error prev i = Some A ->
    let st := handleUnlink (id A) prev in
    (forall j, j <> i ->
        nth_error (handleUpdateSegment (id A) (startFrame_only x) st) j
        = nth_error st j)
    /\ (forall j B, j <> i -> nth_error st j = Some B ->
          nth_error (handleUpdateSegment (id B) (startFrame_only x) st) i
          = nth_error st i).
Proof.
  intros prev A i x Hnd HA st.
  assert (Hnd' : NoDup (map id st)) by (unfold st; now rewrite handleUnlink_ids).
  assert (HA' : nth_error st i = Some (without_link A)).
  { unfold st. rewrite handleUnlink_nth, HA. simpl.
    now rewrite String.eqb_refl. }
  split.
  - intros j Hj. rewrite handleUpdateSegment_nth.
    destruct (nth_error st j) as [B|] eqn:HB; [|reflexivity]. simpl. f_equal.
    unfold updateOne.
    destruct (String.eqb (id B) (id A)) eqn:He.
    { apply String.eqb_eq in He. exfalso. apply Hj.
      eapply (unique_id_index st); eauto. }
    simpl. rewrite <- (without_link_id A).
    rewrite (find_by_id st i (without_link A) Hnd' HA'). reflexivity.
  - intros j B Hj HB. rewrite handleUpdateSegment_nth, HA'. simpl. f_equal.
    unfold updateOne.
    destruct (String.eqb (id (without_link A)) (id B)) eqn:He.
    { apply String.eqb_eq in He. exfalso. apply Hj. symmetry.
      eapply (unique_id_index st); eauto. }
    simpl. rewrite (find_by_id st j B Hnd' HB).
    destruct (opt_is (linkedSegmentId B) (id A)) eqn:Ho; [|reflexivity].
    apply opt_is_true in Ho. exfalso.
    apply (handleUnlink_names_nobody (id A) prev B); [|exact Ho].
    eapply nth_error_In. exact HB.
Qed.

(** X2 on a pair that links both ways. *)
Lemma unlinked_segment_moves_alone_witness :
  let v := mkSegment "v" "clip" TrackType.VIDEO_MAIN 0 150 5 "Sc 1" true
                     None (Some "a") (Some "blob:v") (Some AssetType.VIDEO) None in
  let a := mkSegment "a" "clip" TrackType.AUDIO 0 150 5 "Audio" true
                     None (Some "v") (Some "blob:v") None None in
  nth_error (handleUpdateSegment "v" (startFrame_only 60)
               (handleUnlink "v" [v; a])) 1
  = Some (without_link a).
Proof.
  intros v a.
  destruct (unlinked_segment_moves_alone [v; a] v 0 60) as [H _].
  - repeat constructor; simpl; intuition discriminate.
  - reflexivity.
  - apply (H 1%nat). discriminate.
Defined.

(** X3: [update(id, {startFrame: x})] changes nothing but frames: the store
    keeps its length and order, and every segment keeps all its fields other
    than [startFrame] and [endFrame]. *)
Theorem move_changes_frames_only :
  forall (id0 : string) (x : Q) (prev : list TimelineSegment),
    let after := handleUpdateSegment id0 (startFrame_only x) prev in
    List.length after = List.length prev
    /\ forall i s, nth_error prev i = Some s ->
         exists s', nth_error after i = Some s'
                    /\ s' = with_frames s (startFrame s') (endFrame s').
Proof.
  intros id0 x prev after. split.
  - unfold after, handleUpdateSegment. apply length_map.
  - intros i s Hi. unfold after. rewrite handleUpdateSegment_nth, Hi. simpl.
    eexists. split; [reflexivity|].
    unfold updateOne. simpl.
    destruct (String.eqb (id s) id0); [destruct s; reflexivity|].
    destruct (find _ prev) as [m|]; [|destruct s; reflexivity].
    destruct (opt_is _ _); destruct s; reflexivity.
Qed.

(** X4: an id that no segment carries is harmless: [update] with any fields
    and [remove] return the store as it was, and so does [unlink] when no
    segment names the id as linked either. *)
Theorem unknown_id_changes_nothing :
  forall (id0 : string) (updates : SegmentUpdates) (prev : list TimelineSegment),
    (forall s, In s prev -> id s <> id0) ->
    handleUpdateSegment id0 updates prev = prev
    /\ handleDeleteSegment id0 prev = prev
    /\ ((forall s, In s prev -> linkedSegmentId s <> Some id0) ->
        handleUnlink id0 prev = prev).
Proof.
  intros id0 updates prev Hnone.
  assert (Hfind : find (fun p => String.eqb (id p) id0) prev = None).
  { destruct (find _ prev) as [m|] eqn:Hf; [|reflexivity].
    apply find_some in Hf. destruct Hf as [Hm He].
    apply String.eqb_eq in He. now destruct (Hnone m Hm). }
  split; [|split].
  - unfold handleUpdateSegment.
    transitivity (map (fun s : TimelineSegment => s) prev); [|apply map_id].
    apply map_ext_in. intros s Hs. unfold updateOne.
    rewrite (proj2 (String.eqb_neq _ _) (Hnone s Hs)). now rewrite Hfind.
  - unfold handleDeleteSegment. apply forallb_filter_id.
    apply forallb_forall. intros s Hs.
    now rewrite (proj2 (String.eqb_neq _ _) (Hnone s Hs)).
  - intros Hlinks. unfold handleUnlink.
    transitivity (map (fun s : TimelineSegment => s) prev); [|apply map_id].
    apply map_ext_in. intros s Hs.
    rewrite (proj2 (String.eqb_neq _ _) (Hnone s Hs)). simpl.
    destruct (opt_is (linkedSegmentId s) id0) eqn:Ho; [|reflexivity].
    apply opt_is_true in Ho. now destruct (Hlinks s Hs).
Qed.

(** X4 on the initial store and an id it does not hold. *)
Lemma unknown_id_changes_nothing_witness :
  handleUpdateSegment "9" (startFrame_only 30) initialSegments = initialSegments
  /\ handleDeleteSegment "9" initialSegments = initialSegments.
Proof.
  destruct (unknown_id_changes_nothing "9" (startFrame_only 30) initialSegments)
    as (H1 & H2 & _).
  - simpl. intros s [<-|[<-|[]]]; discriminate.
  - split; assumption.
Defined.

(** ** Dropping assets *)

Lemma duration_or_pos (asset : Asset.t) (fallback : Q) :
  duration_ok asset -> 0 < fallback -> 0 < duration_or asset fallback.
Proof.
  unfold duration_ok, duration_or. intros Hok Hf.
  destruct (Asset.duration asset) as [d|]; [|exact Hf].
  destruct (Qeq_bool d 0) eqn:He; [exact Hf|].
  apply Qeq_bool_neq in He. apply Qle_lteq in Hok.
  destruct Hok as [Hlt|Heq]; [exact Hlt|]. exfalso. apply He. now symmetry.
Qed.

Lemma Qceiling_pos (x : Q) : 0 < x -> 1 <= inject_Z (Qceiling x).
Proof.
  intros Hx.
  assert (H : (0 < Qceiling x)%Z).
  { rewrite Zlt_Qlt. eapply Qlt_le_trans; [exact Hx | apply Qle_ceiling]. }
  change 1 with (inject_Z 1). rewrite <- Zle_Qle. lia.
Qed.

(** A segment that starts on the frame of [time] and lasts at least one
    frame holds the frame [time * 30]. *)
Lemma drop_frame_covered (time len : Q) :
  1 <= len ->
  inject_Z (Qfloor (time * 30)) <= time * 30
  /\ time * 30 < inject_Z (Qfloor (time * 30)) + len.
Proof.
  intros Hlen. split; [apply Qfloor_le|].
  pose proof (Qlt_floor (time * 30)) as H.
  rewrite inject_Z_plus in H. change (inject_Z 1) with 1 in H. lra.
Qed.

Lemma Qfloor_nonneg (x : Q) : 0 <= x -> 0 <= inject_Z (Qfloor x).
Proof.
  intros H. change 0 with (inject_Z 0). rewrite <- Zle_Qle.
  rewrite <- (Qfloor_Z 0). now apply Qfloor_resp_le.
Qed.

Lemma find_app {A : Type} (p : A -> bool) (l1 l2 : list A) :
  find p (l1 ++ l2)
  = match find p l1 with Some x => Some x | None => find p l2 end.
Proof.
  induction l1 as [|a l1 IH]; simpl; [reflexivity|].
  destruct (p a); [reflexivity | exact IH].
Qed.

(** X5: a drop on the timeline at a time that is not negative appends one
    segment, or two for a video asset, and leaves the rest of the store as
    it was.  Each new segment starts on the whole frame [floor(time * 30)],
    holds the frame of the drop, and refers to the asset.  A video asset
    goes to Main-Video whatever the lane of the drop and comes with an audio
    segment on the Audio track over the same frames, the two naming each
    other as linked; any other asset goes to the lane of the drop, without
    a link. *)
Theorem timeline_drop_places_segments :
  forall (segId : string) (asset : Asset.t) (track : TrackType.t) (time : Q)
         (prev : list TimelineSegment),
    duration_ok asset -> 0 <= time ->
    let store := handleDropAssetOnTimeline segId asset track time prev in
    let start := inject_Z (Qfloor (time * 30)) in
    exists added,
      store = (prev ++ added)%list
      /\ Forall (fun s => startFrame s = start /\ 0 <= startFrame s
                          /\ covers s (time * 30)
                          /\ assetId s = Asset.id asset
                          /\ assetUrl s = Some (Asset.url asset)) added
      /\ (Asset.type asset = AssetType.VIDEO ->
          exists v a,
            added = [v; a] /\ id v = segId
            /\ trackId v = TrackType.VIDEO_MAIN /\ trackId a = TrackType.AUDIO
            /\ linkedSegmentId v = Some (id a)
            /\ linkedSegmentId a = Some (id v)
            /\ endFrame a = endFrame v /\ duration a = duration v)
      /\ (Asset.type asset <> AssetType.VIDEO ->
          exists s, added = [s] /\ id s = segId /\ trackId s = track
                    /\ linkedSegmentId s = None).
Proof.
  intros segId asset track time prev Hok Htime store start.
  assert (Hd : 0 < duration_or asset 4) by (apply duration_or_pos; [exact Hok|lra]).
  assert (Hlen : 1 <= inject_Z (Qceiling (duration_or asset 4 * 30))).
  { apply Qceiling_pos. lra. }
  pose proof (drop_frame_covered time _ Hlen) as Hcov.
  pose proof (Qfloor_nonneg (time * 30) ltac:(lra)) as H0.
  unfold store, handleDropAssetOnTimeline.
  change (match Asset.duration asset with
          | Some d => if Qeq_bool d 0 then 4 else d
          | None => 4
          end) with (duration_or asset 4).
  assert (Hnew : forall s, startFrame s = start ->
            endFrame s = start + inject_Z (Qceiling (duration_or asset 4 * 30)) ->
            assetId s = Asset.id asset -> assetUrl s = Some (Asset.url asset) ->
            startFrame s = start /\ 0 <= startFrame s /\ covers s (time * 30)
            /\ assetId s = Asset.id asset
            /\ assetUrl s = Some (Asset.url asset)).
  { intros s Hs He Ha Hu. unfold covers. rewrite Hs, He. fold start in Hcov, H0.
    repeat split; auto; apply Hcov. }
  destruct (Asset.type asset) eqn:Ht; simpl AssetType.eqb; cbv iota.
  - eexists. split; [reflexivity|].
    split; [repeat (constructor; [apply Hnew; reflexivity|]); constructor|].
    split; [discriminate|]. intros _. eexists. repeat split.
  - eexists. split; [reflexivity|].
    split; [repeat (constructor; [apply Hnew; reflexivity|]); constructor|].
    split; [|intros H; now destruct H].
    intros _. do 2 eexists. repeat split.
  - eexists. split; [reflexivity|].
    split; [repeat (constructor; [apply Hnew; reflexivity|]); constructor|].
    split; [discriminate|]. intros _. eexists. repeat split.
Qed.

(** X5 on a five-second clip dropped at 2.5 s on the Overlay lane. *)
Lemma timeline_drop_places_segments_witness :
  let clip := Asset.mk "asset-1" AssetType.VIDEO "blob:clip" "clip.mp4"
                       "video/mp4" (Some 5) in
  exists added,
    handleDropAssetOnTimeline "s" clip TrackType.OVERLAY 2.5 initialSegments
    = (initialSegments ++ added)%list
    /\ map trackId added = [TrackType.VIDEO_MAIN; TrackType.AUDIO]
    /\ map startFrame added = [inject_Z 75; inject_Z 75].
Proof.
  intros clip.
  destruct (timeline_drop_places_segments "s" clip TrackType.OVERLAY 2.5
              initialSegments) as (added & Hstore & _ & Hv & _).
  - simpl. discriminate.
  - discriminate.
  - exists added. split; [exact Hstore|].
    apply app_inv_head in Hstore. subst added. split; reflexivity.
Defined.

Lemma length_append (a b : string) :
  String.length (a ++ b) = (String.length a + String.length b)%nat.
Proof. induction a as [|c a IH]; simpl; [reflexivity | now rewrite IH]. Qed.

Lemma audio_id_fresh (segId : string) : String.eqb ("audio-" ++ segId) segId = false.
Proof.
  apply String.eqb_neq. intros H. apply (f_equal String.length) in H.
  rewrite length_append in H. simpl in H. lia.
Qed.

Lemma find_absent_id (id0 : string) (prev : list TimelineSegment) :
  ~ In id0 (map id prev) ->
  find (fun p => String.eqb (id p) id0) prev = None.
Proof.
  intros Hno. destruct (find _ prev) as [m|] eqn:Hf; [|reflexivity].
  apply find_some in Hf. destruct Hf as [Hm He]. apply String.eqb_eq in He.
  exfalso. apply Hno. rewrite <- He. now apply in_map.
Qed.

(** X6: the two halves of a dropped video travel together, whichever is
    dragged: when the ids made by the drop are new to the store, an update of
    the start frame of the video half or of its audio half puts both on the
    new frame, with the same end, and leaves every older segment as it
    was. *)
Theorem dropped_pair_moves_together :
  forall (segId : string) (asset : Asset.t) (track : TrackType.t) (time x : Q)
         (prev : list TimelineSegment) (half : string),
    Asset.type asset = AssetType.VIDEO ->
    ~ In segId (map id prev) ->
    ~ In ("audio-" ++ segId) (map id prev) ->
    half = segId \/ half = "audio-" ++ segId ->
    let store := handleDropAssetOnTimeline segId asset track time prev in
    let after := handleUpdateSegment half (startFrame_only x) store in
    let n := List.length prev in
    firstn n after = prev
    /\ exists v a,
         skipn n after = [v; a]
         /\ id v = segId /\ id a = "audio-" ++ segId
         /\ startFrame v = x /\ startFrame a = x
         /\ endFrame v = endFrame a.
Proof.
  intros segId asset track time x prev half Hvideo Hv Ha Hhalf store after n.
  unfold after, store, handleDropAssetOnTimeline, handleUpdateSegment.
  rewrite Hvideo. simpl AssetType.eqb. cbv iota.
  set (d := match Asset.duration asset with
            | Some d => if Qeq_bool d 0 then 4 else d
            | None => 4
            end).
  set (start := inject_Z (Qfloor (time * 30))).
  set (len := inject_Z (Qceiling (d * 30))).
  set (v := mkSegment segId (Asset.id asset) TrackType.VIDEO_MAIN start
              (start + len) d (Asset.name asset) false None
              (Some ("audio-" ++ segId)) (Some (Asset.url asset))
              (Some AssetType.VIDEO) None).
  set (a := mkSegment ("audio-" ++ segId) (Asset.id asset) TrackType.AUDIO start
              (start + len) d ("Audio: " ++ Asset.name asset) false None
              (Some segId) (Some (Asset.url asset)) None None).
  set (store' := (prev ++ [v; a])%list).
  assert (Hfresh := audio_id_fresh segId).
  assert (Hfresh' : String.eqb segId ("audio-" ++ segId) = false)
    by (now rewrite String.eqb_sym).
  assert (Hhalf_new : ~ In half (map id prev)) by (destruct Hhalf; now subst).
  assert (Hfind : exists m, find (fun p => String.eqb (id p) half) store' = Some m
                            /\ ((half = segId /\ m = v)
                                \/ (half = "audio-" ++ segId /\ m = a))).
  { unfold store'. rewrite find_app, (find_absent_id half prev Hhalf_new).
    destruct Hhalf as [->| ->]; cbn [find]; unfold v at 1; cbn [id].
    - rewrite String.eqb_refl. eauto.
    - rewrite Hfresh'. unfold a at 1. cbn [id]. rewrite String.eqb_refl. eauto. }
  destruct Hfind as (m & Hfind & Hm). clear Hhalf.
  assert (Hold : map (updateOne half (startFrame_only x) store') prev = prev).
  { transitivity (map (fun s : TimelineSegment => s) prev); [|apply map_id].
    apply map_ext_in. intros s Hs. unfold updateOne.
    assert (Hne : String.eqb (id s) half = false).
    { apply String.eqb_neq. intros He. apply Hhalf_new. rewrite <- He.
      now apply in_map. }
    rewrite Hne, Hfind. simpl.
    destruct (opt_is (linkedSegmentId m) (id s)) eqn:Ho; [|reflexivity].
    apply opt_is_true in Ho. exfalso.
    destruct Hm as [[_ ->]|[_ ->]]; [unfold v in Ho | unfold a in Ho];
      cbn [linkedSegmentId] in Ho; injection Ho as Ho.
    - apply Ha.
      assert (E : id s = "audio-" ++ segId) by (symmetry; exact Ho).
      rewrite <- E. now apply in_map.
    - apply Hv. rewrite Ho. now apply in_map. }
  unfold store' at 2 4. rewrite !map_app, !Hold.
  split.
  - unfold n. rewrite firstn_app, Nat.sub_diag, firstn_all. simpl.
    now rewrite app_nil_r.
  - exists (updateOne half (startFrame_only x) store' v),
           (updateOne half (startFrame_only x) store' a).
    split.
    { unfold n. rewrite skipn_app, Nat.sub_diag, skipn_all. reflexivity. }
    unfold updateOne. rewrite Hfind.
    destruct Hm as [[-> ->]|[-> ->]]; unfold v, a;
      cbn [id linkedSegmentId opt_is];
      rewrite ?String.eqb_refl, ?Hfresh, ?Hfresh';
      cbn [u_startFrame startFrame_only];
      rewrite ?String.eqb_refl; repeat split; reflexivity.
Qed.

(** X6 on a clip dropped into the initial store, dragged by its audio
    half. *)
Lemma dropped_pair_moves_together_witness :
  let clip := Asset.mk "asset-1" AssetType.VIDEO "blob:clip" "clip.mp4"
                       "video/mp4" (Some 5) in
  let store := handleDropAssetOnTimeline "s" clip TrackType.VIDEO_MAIN 9
                 initialSegments in
  map startFrame (handleUpdateSegment "audio-s" (startFrame_only 300) store)
  = [0; 121; 300; 300].
Proof.
  intros clip store.
  destruct (dropped_pair_moves_together "s" clip TrackType.VIDEO_MAIN 9 300
              initialSegments "audio-s") as (Hold & v & a & Hnew & _).
  - reflexivity.
  - simpl. intuition discriminate.
  - simpl. intuition discriminate.
  - now right.
  - reflexivity.
Defined.



(* ================================================================== *)
(** * Further properties of the transport clock *)

(** X8: [toggleTimelinePlay] always ends in timeline mode with the tick
    reference reset.  At or past the end of the content it restarts from 0,
    playing; from asset mode it starts playing; otherwise it flips between
    playing and paused without touching the time.  Whatever the time was,
    it is not past a [contentDuration] that is not negative afterwards. *)
Theorem toggle_play_behaviour :
  forall (segments : list TimelineSegment) (st : Transport),
    let cd := contentDuration segments in
    let st' := toggleTimelinePlay segments st in
    playbackMode st' = TIMELINE
    /\ lastTick st' = 0
    /\ (cd <= timelineTime st ->
        timelineTime st' = 0 /\ isTimelinePlaying st' = true)
    /\ (timelineTime st < cd ->
        timelineTime st' = timelineTime st
        /\ isTimelinePlaying st'
           = match playbackMode st with
             | TIMELINE => negb (isTimelinePlaying st)
             | ASSET => true
             end)
    /\ (0 <= cd -> timelineTime st' <= cd).
Proof.
  intros segments st cd st'. unfold st', toggleTimelinePlay. fold cd.
  destruct (Qle_bool cd (timelineTime st)) eqn:Hle.
  - apply Qle_bool_iff in Hle.
    cbn [playbackMode lastTick timelineTime isTimelinePlaying].
    split; [reflexivity|]. split; [reflexivity|].
    split; [intros _; split; reflexivity|].
    split; [|intros H; exact H].
    intros Hlt. exfalso. exact (Qlt_not_le _ _ Hlt Hle).
  - assert (Hlt : timelineTime st < cd).
    { apply Qlt_bool_iff. unfold Qlt_bool. now rewrite Hle. }
    destruct (playbackMode st);
      cbn [playbackMode lastTick timelineTime isTimelinePlaying];
      (split; [reflexivity|]); (split; [reflexivity|]);
      (split; [intros Hge; exfalso; exact (Qlt_not_le _ _ Hlt Hge)|]);
      (split; [intros _; split; reflexivity|]);
      intros _; now apply Qlt_le_weak.
Qed.

(** X9: a tick of a playing clock leaves the time at or before
    [contentDuration] whatever the time was; when the timestamps do not run
    backwards, a playing clock that a store change left at or beyond the
    content is set to exactly [contentDuration] and stopped by its next tick,
    and a tick never moves a time that lies within the content backwards; a
    tick of a paused clock does not move the time at all. *)
Theorem tick_behaviour :
  forall (segments : list TimelineSegment) (timestamp : Q) (st : Transport),
    let cd := contentDuration segments in
    let st' := loop segments timestamp st in
    lastTick st' = timestamp
    /\ playbackMode st' = playbackMode st
    /\ (isTimelinePlaying st = true -> timelineTime st' <= cd)
    /\ (isTimelinePlaying st = true -> lastTick st <= timestamp ->
        cd <= timelineTime st ->
        timelineTime st' = cd /\ isTimelinePlaying st' = false)
    /\ (isTimelinePlaying st = false ->
        timelineTime st' = timelineTime st /\ isTimelinePlaying st' = false)
    /\ (lastTick st <= timestamp -> timelineTime st <= cd ->
        timelineTime st <= timelineTime st').
Proof.
  intros segments timestamp st cd st'. unfold st', loop. fold cd. cbv zeta.
  destruct (isTimelinePlaying st) eqn:Hp.
  - destruct (Qle_bool cd (timelineTime st + tickDelta timestamp st)) eqn:Hle;
      cbn [lastTick playbackMode timelineTime isTimelinePlaying].
    + split; [reflexivity|]. split; [reflexivity|].
      split; [intros _; apply Qle_refl|].
      split; [intros _ _ _; split; reflexivity|].
      split; [discriminate|]. intros _ H. exact H.
    + assert (Hlt : timelineTime st + tickDelta timestamp st < cd).
      { apply Qlt_bool_iff. unfold Qlt_bool. now rewrite Hle. }
      split; [reflexivity|]. split; [reflexivity|].
      split; [intros _; now apply Qlt_le_weak|].
      split.
      { intros _ Hmono Hpast. exfalso.
        pose proof (tickDelta_nonneg timestamp st Hmono). lra. }
      split; [discriminate|].
      intros Hmono _. pose proof (tickDelta_nonneg timestamp st Hmono). lra.
  - cbn [lastTick playbackMode timelineTime isTimelinePlaying].
    split; [reflexivity|]. split; [reflexivity|].
    split; [discriminate|]. split; [discriminate|].
    split; [intros _; split; reflexivity|]. intros _ _. apply Qle_refl.
Qed.

Lemma tickDelta_after_reset (timestamp : Q) (st : Transport) :
  lastTick st = 0 -> tickDelta timestamp st == 0.
Proof.
  intros H. unfold tickDelta. rewrite H.
  change (Qeq_bool 0 0) with true. cbv iota zeta. field.
Qed.

(** X10: play and pause do not make the clock jump: the tick that follows
    [toggleTimelinePlay] finds the tick reference reset, measures no elapsed
    time and leaves the time where the toggle put it, however late its
    timestamp is. *)
Theorem resume_does_not_jump :
  forall (segments : list TimelineSegment) (timestamp : Q) (st : Transport),
    0 <= contentDuration segments ->
    let st1 := toggleTimelinePlay segments st in
    timelineTime (loop segments timestamp st1) == timelineTime st1.
Proof.
  intros segments timestamp st Hcd st1.
  assert (Hreset : lastTick st1 = 0).
  { unfold st1, toggleTimelinePlay.
    destruct (Qle_bool _ _); [reflexivity|]. now destruct (playbackMode st). }
  assert (Hin : timelineTime st1 <= contentDuration segments).
  { unfold st1, toggleTimelinePlay.
    destruct (Qle_bool (contentDuration segments) (timelineTime st)) eqn:Hle;
      [exact Hcd|].
    assert (Hlt : timelineTime st < contentDuration segments).
    { apply Qlt_bool_iff. unfold Qlt_bool. now rewrite Hle. }
    destruct (playbackMode st); simpl; now apply Qlt_le_weak. }
  pose proof (tickDelta_after_reset timestamp st1 Hreset) as Hd.
  unfold loop. cbv zeta. destruct (isTimelinePlaying st1); [|reflexivity].
  destruct (Qle_bool (contentDuration segments)
              (timelineTime st1 + tickDelta timestamp st1)) eqn:Hle;
    cbn [timelineTime].
  - apply Qle_bool_iff in Hle. rewrite Hd in Hle. apply Qle_antisym; lra.
  - rewrite Hd. lra.
Qed.

(** X10 on the initial store: paused at 3 s, play is pressed and the first
    frame arrives at timestamp 987654 ms. *)
Lemma resume_does_not_jump_witness :
  timelineTime
    (loop initialSegments 987654
       (toggleTimelinePlay initialSegments (mkTransport TIMELINE 3 false 5000)))
  == 3.
Proof.
  apply (resume_does_not_jump initialSegments 987654
           (mkTransport TIMELINE 3 false 5000)).
  vm_compute. discriminate.
Defined.

(** X11: [handleSeek] only moves the time and enters timeline mode: it
    keeps the playing flag and the tick reference; a target within
    [[0, contentDuration]] is taken as it is, a negative one becomes 0 and
    one past the content becomes [contentDuration]; seeking again to the
    time just set changes nothing. *)
Theorem seek_clamps :
  forall (segments : list TimelineSegment) (t : Q) (st : Transport),
    0 <= contentDuration segments ->
    let cd := contentDuration segments in
    let st' := handleSeek segments t st in
    playbackMode st' = TIMELINE
    /\ isTimelinePlaying st' = isTimelinePlaying st
    /\ lastTick st' = lastTick st
    /\ (0 <= t -> t <= cd -> timelineTime st' == t)
    /\ (t <= 0 -> timelineTime st' == 0)
    /\ (cd <= t -> timelineTime st' == cd)
    /\ timelineTime (handleSeek segments (timelineTime st') st')
       == timelineTime st'.
Proof.
  intros segments t st Hcd cd st'. unfold st', handleSeek. fold cd.
  cbn [playbackMode isTimelinePlaying lastTick timelineTime].
  split; [reflexivity|]. split; [reflexivity|]. split; [reflexivity|].
  assert (Hin : forall u, 0 <= u -> u <= cd -> Qmin (Qmax 0 u) cd == u).
  { intros u H0 H1. rewrite (Q.max_r 0 u H0). now apply Q.min_l. }
  split; [exact (Hin t)|]. split; [|split].
  - intros Hneg. rewrite (Q.max_l 0 t Hneg). now apply Q.min_l.
  - intros Hpast. apply Q.min_r. eapply Qle_trans; [exact Hpast|].
    apply Q.le_max_r.
  - apply Hin.
    + apply Q.min_glb; [apply Q.le_max_l | exact Hcd].
    + apply Q.le_min_r.
Qed.

(** X11 on the initial store, whose content lasts 8 s. *)
Lemma seek_clamps_witness :
  timelineTime (handleSeek initialSegments 12 (mkTransport ASSET 1 true 40))
  == 8.
Proof.
  destruct (seek_clamps initialSegments 12 (mkTransport ASSET 1 true 40))
    as (_ & _ & _ & _ & _ & H & _).
  - vm_compute. discriminate.
  - rewrite H; [reflexivity|]. vm_compute. discriminate.
Defined.

(** X12: removing segments never lengthens the content as long as some
    segment is left; removing the last one makes [contentDuration] jump to
    the 10 seconds of the empty canvas, which can be more than before. *)
Theorem remove_and_content_duration :
  forall (id0 : string) (prev : list TimelineSegment),
    let after := handleDeleteSegment id0 prev in
    (after <> [] -> contentDuration after <= contentDuration prev)
    /\ (after = [] -> contentDuration after = 10)
    /\ (forall s, prev = [s] -> id s = id0 -> endFrame s < 300 ->
          contentDuration prev < contentDuration after).
Proof.
  intros id0 prev after. split; [|split].
  - intros Hne.
    assert (Hsub : forall s, In s after -> In s prev).
    { intros s Hs. unfold after, handleDeleteSegment in Hs.
      now apply filter_In in Hs. }
    destruct after as [|a rest] eqn:Ha; [congruence|].
    destruct prev as [|p0 prev0] eqn:Hp.
    { exfalso. now apply (Hsub a); left. }
    rewrite <- Ha in *. rewrite <- Hp in *.
    assert (Hup : forall s, In s prev -> endFrame s / 30 <= contentDuration prev).
    { intros s Hs. rewrite Hp in *. unfold contentDuration. simpl.
      destruct (Math_max_of_upper (map endFrame prev0) (endFrame p0)) as [H0 Hr].
      apply Qmult_le_compat_r; [|discriminate].
      destruct Hs as [<-|Hs]; [exact H0|]. apply Hr. now apply in_map. }
    assert (Hatt : exists s, In s after /\ contentDuration after == endFrame s / 30).
    { rewrite Ha. unfold contentDuration. simpl.
      destruct (Math_max_of_attained (map endFrame rest) (endFrame a))
        as [H|(y & Hy & H)].
      - exists a. split; [now left|]. now rewrite H.
      - apply in_map_iff in Hy. destruct Hy as (s & <- & Hs).
        exists s. split; [now right|]. now rewrite H. }
    destruct Hatt as (s & Hs & Heq). rewrite Heq. apply Hup. now apply Hsub.
  - intros ->. reflexivity.
  - intros s -> Hid Hshort. unfold after, handleDeleteSegment. simpl.
    rewrite (proj2 (String.eqb_eq _ _) Hid). simpl.
    unfold contentDuration, Math_max_of. simpl.
    apply Qlt_shift_div_r; [reflexivity|]. exact Hshort.
Qed.

(* ================================================================== *)
(** * Properties of the timeline component *)

Lemma is_whole_inject_Z (z : Z) : is_whole (inject_Z z).
Proof. unfold is_whole. now rewrite Qfloor_Z. Qed.

Lemma is_whole_Qmax (a b : Q) : is_whole a -> is_whole b -> is_whole (Qmax a b).
Proof.
  intros Ha Hb. unfold is_whole in *.
  destruct (Q.max_dec a b) as [H|H]; rewrite (Qfloor_comp _ _ H), H; assumption.
Qed.

Lemma is_whole_plus_Z (a : Q) (z : Z) : is_whole a -> is_whole (a + inject_Z z).
Proof.
  unfold is_whole. intros Ha.
  assert (E : a + inject_Z z == inject_Z (Qfloor a + z)).
  { rewrite inject_Z_plus. now rewrite <- Ha. }
  rewrite (Qfloor_comp _ _ E), Qfloor_Z. exact E.
Qed.

(** X13: the start frame committed when a drag ends is never negative, is a
    whole frame when the segment started on one, and is the original start
    frame when the pointer is released where it was pressed; the ghost shown
    during the drag never goes left of time 0 either. *)
Theorem drag_commits_valid_start :
  forall (zoom pressX releaseX : Q) (seg : TimelineSegment),
    0 < zoom ->
    let d := handleMouseDownSegment zoom pressX seg in
    0 <= newStartFrame zoom d releaseX
    /\ (is_whole (startFrame seg) -> is_whole (newStartFrame zoom d releaseX))
    /\ (0 <= startFrame seg -> newStartFrame zoom d pressX == startFrame seg)
    /\ 0 <= initialLeft d + constrainedDeltaX d releaseX.
Proof.
  intros zoom pressX releaseX seg Hzoom d.
  unfold newStartFrame, constrainedDeltaX, d, handleMouseDownSegment.
  cbn [drag_startX originalStartFrame initialLeft].
  split; [apply Q.le_max_l|]. split; [|split].
  - intros Hw. apply is_whole_Qmax; [apply (is_whole_inject_Z 0)|].
    now apply is_whole_plus_Z.
  - intros H0.
    assert (E : (pressX - pressX) / zoom * 30 == 0).
    { field. intros Hz. rewrite Hz in Hzoom. exact (Qlt_irrefl _ Hzoom). }
    unfold Math_round. rewrite (Qfloor_comp _ (0 + (1 # 2))) by now rewrite E.
    change (Qfloor (0 + (1 # 2))) with 0%Z.
    rewrite Q.max_r; [change (inject_Z 0) with 0; lra|].
    change (inject_Z 0) with 0. lra.
  - pose proof (Q.le_max_r (releaseX - pressX) (- (startFrame seg / 30 * zoom))).
    lra.
Qed.

(** X13 on the first initial segment, dragged 400 pixels to the left at the
    default zoom: it stays on frame 0. *)
Lemma drag_commits_valid_start_witness :
  newStartFrame 30
    (handleMouseDownSegment 30 500 (mkSegment "1" "start" TrackType.VIDEO_MAIN
       0 120 4 "Intro Hook" false None None None None None)) 100
  == 0
  /\ 0 <= newStartFrame 30
            (handleMouseDownSegment 30 500 (mkSegment "1" "start"
               TrackType.VIDEO_MAIN 0 120 4 "Intro Hook" false None None None
               None None)) 100.
Proof.
  split; [vm_compute; reflexivity|].
  apply (drag_commits_valid_start 30 500 100). reflexivity.
Defined.

(** X14: the ruler spans at least 70 seconds and reaches 10 seconds past the
    end of every segment. *)
Theorem ruler_outlasts_content :
  forall (segments : list TimelineSegment),
    70 <= totalDuration segments
    /\ forall s, In s segments -> endFrame s / 30 + 10 <= totalDuration segments.
Proof.
  intros segments. unfold totalDuration.
  destruct (Math_max_of_upper (map (fun s => endFrame s / 30) segments) 60)
    as [H0 Hr].
  split; [lra|]. intros s Hs.
  specialize (Hr (endFrame s / 30)
                 (in_map (fun s => endFrame s / 30) segments s Hs)).
  lra.
Qed.

(* ================================================================== *)
(** * Properties of the media synchronisation *)



(* ================================================================== *)
(** * Further properties of the render pipeline *)

(** ** File names *)

Lemma to_uint_nonnil (n : nat) : Nat.to_uint n <> Decimal.Nil.
Proof.
  rewrite <- (Unsigned.of_to n) at 1. rewrite Unsigned.to_of.
  apply DecimalFacts.unorm_nonnil.
Qed.

Lemma nat_str_inj (a b : nat) : nat_str a = nat_str b -> a = b.
Proof.
  unfold nat_str. intros H. apply (f_equal NilZero.uint_of_string) in H.
  rewrite !NilZero.usu in H by apply to_uint_nonnil.
  injection H as H. now apply Unsigned.to_uint_inj.
Qed.

Lemma digits_dot_free (d : Decimal.uint) :
  dot_free (NilEmpty.string_of_uint d) = true.
Proof. induction d; simpl; auto. Qed.

Lemma nat_str_dot_free (n : nat) : dot_free (nat_str n) = true.
Proof.
  unfold nat_str, NilZero.string_of_uint.
  destruct (Nat.to_uint n) eqn:Hd; try reflexivity;
    rewrite <- Hd; apply digits_dot_free || (simpl; apply digits_dot_free).
Qed.

(** Two names that agree split alike at their first dot. *)
Lemma split_at_dot (a b x y : string) :
  dot_free a = true -> dot_free b = true ->
  (a ++ String "." x = b ++ String "." y)%string -> a = b /\ x = y.
Proof.
  revert b. induction a as [|c a IH]; intros [|c' b] Ha Hb H; simpl in *.
  - injection H as ->. auto.
  - injection H as <- _. rewrite Ascii.eqb_refl in Hb. discriminate.
  - injection H as -> _. rewrite Ascii.eqb_refl in Ha. discriminate.
  - injection H as -> H. apply andb_true_iff in Ha, Hb.
    destruct (IH b (proj2 Ha) (proj2 Hb) H) as [-> ->]. auto.
Qed.

Lemma clipName_inj (i j : nat) : clipName i = clipName j -> i = j.
Proof.
  unfold clipName. intros H. injection H as H.
  apply (split_at_dot _ _ "mp4" "mp4") in H; try apply nat_str_dot_free.
  apply nat_str_inj. apply H.
Qed.

Lemma inputName_inj (i j : nat) (e e' : string) :
  inputName i e = inputName j e' -> i = j /\ e = e'.
Proof.
  unfold inputName. intros H. injection H as H.
  apply split_at_dot in H; try apply nat_str_dot_free.
  destruct H as [H ->]. split; [now apply nat_str_inj | reflexivity].
Qed.

Lemma audioName_inj (i j : nat) (e e' : string) :
  audioName i e = audioName j e' -> i = j /\ e = e'.
Proof.
  unfold audioName. intros H. injection H as H.
  apply split_at_dot in H; try apply nat_str_dot_free.
  destruct H as [H ->]. split; [now apply nat_str_inj | reflexivity].
Qed.

(** X16: the files of a run do not collide: clip, input and audio names
    determine their loop index (and extension), names of different kinds
    differ from each other and from the fixed files, and the clips that
    stage 2 concatenates are pairwise distinct. *)
Theorem file_names_are_distinct :
  forall (E : Engine) (n : nat),
    (forall i j, clipName i = clipName j -> i = j)
    /\ (forall i j e e', inputName i e = inputName j e' -> i = j /\ e = e')
    /\ (forall i j e e', audioName i e = audioName j e' -> i = j /\ e = e')
    /\ (forall i j k e e',
          clipName i <> inputName j e /\ clipName i <> audioName k e'
          /\ inputName j e <> audioName k e'
          /\ ~ In (clipName i) ["concat.txt"; "video_only.mp4"; "final_output.mp4"]
          /\ ~ In (inputName j e) ["concat.txt"; "video_only.mp4"; "final_output.mp4"]
          /\ ~ In (audioName k e') ["concat.txt"; "video_only.mp4"; "final_output.mp4"])
    /\ NoDup (map clipName (encoded_indices E n)).
Proof.
  intros E n.
  split; [exact clipName_inj|]. split; [exact inputName_inj|].
  split; [exact audioName_inj|]. split.
  - intros i j k e e'. unfold clipName, inputName, audioName.
    repeat split; simpl; try discriminate; intuition discriminate.
  - unfold encoded_indices.
    assert (Hnd : NoDup (filter (clip_ok E) (seq 0 n)))
      by (apply NoDup_filter, seq_NoDup).
    induction Hnd as [|i l Hi Hnd IH]; simpl; constructor; [|exact IH].
    intros Hin. apply in_map_iff in Hin. destruct Hin as (j & Hj & Hjl).
    apply clipName_inj in Hj. subst j. contradiction.
Qed.

(** ** The shape of a run *)

Lemma encoded_nonempty_video (E : Engine) (segments : list TimelineSegment) :
  encoded_indices E (List.length (videoSegments segments)) <> [] ->
  exists v rest, videoSegments segments = v :: rest.
Proof.
  destruct (videoSegments segments) as [|v rest]; [intros H; now destruct H|].
  intros _. now exists v, rest.
Qed.

(** A run that gets through stages 1 to 3 is the five stages in sequence. *)
Lemma run_through_stage3 E segments assets :
  engine_ready E = true ->
  encoded_indices E (List.length (videoSegments segments)) <> [] ->
  concat_ok E = true ->
  let video := videoSegments segments in
  let names := map clipName (encoded_indices E (List.length video)) in
  let out := packaged_file E (audioSegments segments) in
  completion (mixAudio E assets (audioSegments segments)) = Normal out ->
  trace (renderTimeline E segments assets)
  = (trace (loadFFmpeg E)
     ++ trace (normalizeClips E assets (List.length video) 0 video [])
     ++ trace (concatenate E names)
     ++ trace (mixAudio E assets (audioSegments segments))
     ++ trace (package E out))%list
  /\ completion (renderTimeline E segments assets) = completion (package E out).
Proof.
  intros Hready Hgood Hconcat video names out Hout.
  destruct (encoded_nonempty_video E segments Hgood) as (v & rest & Hv).
  unfold renderTimeline. fold video. subst names.
  assert (Hclips : completion (normalizeClips E assets (List.length video) 0 video [])
                   = Normal (map clipName (encoded_indices E (List.length video)))).
  { rewrite normalizeClips_completion. reflexivity. }
  unfold video in *. rewrite Hv in *.
  destruct (map clipName (encoded_indices E (List.length (v :: rest))))
    as [|c names] eqn:Hnames.
  { destruct (encoded_indices E (List.length (v :: rest)));
      [now destruct Hgood | discriminate]. }
  rewrite !trace_bind, !completion_bind, (loadFFmpeg_completion E Hready).
  rewrite Hclips. rewrite !trace_bind, !completion_bind.
  rewrite (concatenate_completion E _ Hconcat), Hout.
  split; reflexivity.
Qed.

Lemma loadAudio_valid_count E assets segs st' :
  completion (loadAudio E assets 0 segs initialMix) = Normal st' ->
  validAudioCount st' = List.length (loaded_audio E 0 segs).
Proof.
  intros Hc.
  destruct (loadAudio_completion E assets segs 0 initialMix) as (st & Hst & Hext).
  rewrite Hc in Hst. injection Hst as ->.
  destruct Hext as (_ & _ & Hn & _). exact Hn.
Qed.

Lemma completion_try_catch {A : Type} (m : M A) (h : Failure -> M A) :
  completion (try_catch m h)
  = match completion m with
    | Normal a => Normal a
    | Throw e => completion (h e)
    end.
Proof.
  unfold try_catch, completion. destruct (snd m) eqn:Hm; [exact Hm | reflexivity].
Qed.

Lemma mixAudio_output E assets audio :
  completion (mixAudio E assets audio) = Normal (packaged_file E audio).
Proof.
  unfold mixAudio, packaged_file. destruct audio as [|a rest]; [reflexivity|].
  rewrite completion_bind. cbn [emit completion snd].
  rewrite completion_bind.
  destruct (loadAudio_completion E assets (a :: rest) 0 initialMix)
    as (st & Hst & Hext).
  rewrite Hst. rewrite (loadAudio_valid_count E assets _ st Hst).
  rewrite completion_bind.
  destruct (loaded_audio E 0 (a :: rest)) as [|l ls]; cbn [List.length].
  - cbn [ret completion snd]. rewrite completion_bind.
    now rewrite (proj2 (deleteFiles_trace _)).
  - destruct (mix_exec_ok E);
      repeat (rewrite ?completion_bind, ?completion_try_catch,
                ?(proj2 (deleteFiles_trace _));
              cbn [await emit ret completion snd]);
      reflexivity.
Qed.

Lemma loadAudio_logs E assets : forall segs i st j,
  Forall (fun s => truthy (assetUrl s) = true) segs ->
  (i <= j < i + List.length segs)%nat -> audio_fate E j <> AudioLoaded ->
  exists err,
    In (ConsoleWarn ("[FFmpeg] Failed to load audio " ++ nat_str j ++ ":") err)
       (trace (loadAudio E assets i segs st)).
Proof.
  induction segs as [|seg rest IH]; intros i st j Hurl Hj Hbad.
  - simpl in Hj. lia.
  - inversion Hurl as [|? ? Hseg Hrest]; subst.
    cbn [loadAudio]. rewrite Hseg. cbn [negb]. cbn [List.length] in Hj.
    destruct (Nat.eq_dec j i) as [->|Hne].
    + assert (Hw : exists err,
                In (ConsoleWarn ("[FFmpeg] Failed to load audio " ++ nat_str i ++ ":") err)
                   (trace (attemptAudio (audio_fate E i) i seg
                             (audioName i (getExtension (mimeType_or
                                (find (fun a => String.eqb (Asset.id a) (assetId seg)) assets)
                                "audio/wav"))) st))).
      { destruct (audio_fate E i); [congruence| |];
          eexists;
          cbv [attemptAudio try_catch bind await emit ret trace fst snd app];
          simpl; eauto 6. }
      destruct Hw as [err Herr]. exists err. apply in_trace_bind_l. exact Herr.
    + edestruct (IH (S i)) as [err Herr]; [exact Hrest | | exact Hbad |]; [lia|].
      exists err. eapply in_trace_bind_r; [apply attemptAudio_completion|].
      exact Herr.
Qed.

Lemma audioSegments_truthy (segments : list TimelineSegment) :
  Forall (fun s => truthy (assetUrl s) = true) (audioSegments segments).
Proof.
  apply Forall_forall. intros s Hs. apply in_audioSegments in Hs.
  destruct Hs as [_ Hex]. unfold exportable in Hex.
  apply andb_true_iff in Hex. apply Hex.
Qed.

Lemma package_reads E out : In (ReadFile out) (trace (package E out)).
Proof.
  unfold package. eapply in_trace_bind_r; [reflexivity|].
  apply in_trace_bind_l. now left.
Qed.

Lemma package_settles E out :
  completion (package E out)
  = if output_read_ok E then Normal (object_url E) else Throw (Thrown "readFile").
Proof. unfold package. now destruct (output_read_ok E). Qed.

(** X17: audio is a best-effort layer.  Once a clip came out of stage 1 and
    stage 2 went through, no failure of stage 3 makes the export fail: the
    run resolves exactly when the final read resolves.  Every audio segment
    that cannot be loaded is warned about; stage 4 packages the mixed file
    when some audio was loaded and the mix [exec] resolved, and the
    video-only file otherwise; a failed mix is warned about. *)
Theorem audio_mix_is_best_effort :
  forall (E : Engine) (segments : list TimelineSegment) (assets : list Asset.t),
    engine_ready E = true ->
    encoded_indices E (List.length (videoSegments segments)) <> [] ->
    concat_ok E = true ->
    let run := renderTimeline E segments assets in
    let audio := audioSegments segments in
    settle run = (if output_read_ok E then Resolved (object_url E)
                  else Rejected (Thrown "readFile"))
    /\ In (ReadFile (packaged_file E audio)) (trace run)
    /\ (forall i, (i < List.length audio)%nat -> audio_fate E i <> AudioLoaded ->
          exists err,
            In (ConsoleWarn ("[FFmpeg] Failed to load audio " ++ nat_str i ++ ":")
                            err) (trace run))
    /\ (loaded_audio E 0 audio <> [] -> mix_exec_ok E = false ->
        packaged_file E audio = "video_only.mp4"
        /\ exists err,
             In (ConsoleWarn "[FFmpeg] Audio mixing failed, exporting video only:"
                             err) (trace run)).
Proof.
  intros E segments assets Hready Hgood Hconcat run audio.
  destruct (run_through_stage3 E segments assets Hready Hgood Hconcat
              (mixAudio_output E assets audio)) as [Htrace Hcompl].
  fold run in Htrace, Hcompl. fold audio in Htrace, Hcompl.
  split.
  { unfold settle. rewrite Hcompl, package_settles.
    now destruct (output_read_ok E). }
  split.
  { rewrite Htrace. rewrite !in_app_iff. do 4 right. apply package_reads. }
  assert (Hmix : forall e, In e (trace (mixAudio E assets audio)) ->
                           In e (trace run)).
  { intros e He. rewrite Htrace. rewrite !in_app_iff. auto. }
  split.
  { intros i Hi Hbad.
    destruct audio as [|a rest] eqn:Ha; [simpl in Hi; lia|].
    destruct (loadAudio_logs E assets (a :: rest) 0 initialMix i) as [err Herr];
      [rewrite <- Ha; apply audioSegments_truthy | lia | exact Hbad |].
    exists err. apply Hmix. unfold mixAudio.
    eapply in_trace_bind_r; [reflexivity|]. apply in_trace_bind_l. exact Herr. }
  intros Hloaded Hfail. split.
  { unfold packaged_file. rewrite Hfail. now destruct (loaded_audio E 0 audio). }
  destruct audio as [|a rest] eqn:Ha; [now destruct Hloaded|].
  destruct (loadAudio_completion E assets (a :: rest) 0 initialMix)
    as (st & Hst & _).
  pose proof (loadAudio_valid_count E assets _ st Hst) as Hn.
  exists (Thrown "exec"). apply Hmix. unfold mixAudio.
  eapply in_trace_bind_r; [reflexivity|].
  eapply in_trace_bind_r; [exact Hst|]. apply in_trace_bind_l.
  destruct (validAudioCount st) eqn:Hc.
  { destruct (loaded_audio E 0 (a :: rest)); [now destruct Hloaded | discriminate]. }
  rewrite Hfail.
  cbv [try_catch bind await emit ret trace completion fst snd app].
  right. now left.
Qed.

(** X17 on a clip and a voice-over whose mix fails. *)
Lemma audio_mix_is_best_effort_witness :
  let E := mkEngine true true (fun _ => ClipEncoded) true true true true
                    (fun _ => AudioLoaded) false true "blob:export" in
  settle (renderTimeline E [sample_clip "a" 0; voice_at_2s] [])
  = Resolved "blob:export"
  /\ In (ReadFile "video_only.mp4")
        (trace (renderTimeline E [sample_clip "a" 0; voice_at_2s] [])).
Proof.
  intros E.
  destruct (audio_mix_is_best_effort E [sample_clip "a" 0; voice_at_2s] [])
    as (H1 & H2 & _).
  - reflexivity.
  - vm_compute. discriminate.
  - reflexivity.
  - split; [exact H1 | exact H2].
Defined.

(** ** What a run deletes *)

Lemma normalizeClips_deletes (ok : string -> Prop) E assets n : forall segs i acc,
  (forall j ext, ok (inputName j ext)) ->
  all_events (deletes_only ok) (normalizeClips E assets n i segs acc).
Proof.
  induction segs as [|seg rest IH]; intros i acc Hok.
  - apply all_events_ret.
  - cbn [normalizeClips].
    apply all_events_bind; [apply all_events_emit; exact I|]. intros _ _.
    apply all_events_bind.
    { apply attemptClip_events; simpl; auto. }
    intros names _.
    apply all_events_bind; [apply all_events_emit; apply Hok|]. intros _ _.
    now apply IH.
Qed.

Lemma deleteFiles_deletes (ok : string -> Prop) (names : list string) :
  (forall n, In n names -> ok n) ->
  all_events (deletes_only ok) (deleteFiles names).
Proof.
  intros H. unfold all_events. rewrite (proj1 (deleteFiles_trace names)).
  apply Forall_forall. intros e He. apply in_map_iff in He.
  destruct He as (n & <- & Hn). now apply H.
Qed.

Lemma concatenate_deletes (ok : string -> Prop) E names :
  ok "concat.txt" -> (forall n, In n names -> ok n) ->
  all_events (deletes_only ok) (concatenate E names).
Proof.
  intros Hc Hn. unfold concatenate.
  apply all_events_bind; [apply all_events_emit; exact I|]. intros _ _.
  apply all_events_bind; [|intros; now apply deleteFiles_deletes].
  destruct names as [|a [|b names]];
    repeat (first [ apply all_events_bind; [|intros _ _]
                  | apply all_events_await
                  | apply all_events_emit ]); simpl; auto.
Qed.

Lemma loadAudio_deletes (ok : string -> Prop) E assets : forall segs i st,
  all_events (deletes_only ok) (loadAudio E assets i segs st).
Proof. intros. apply loadAudio_events; simpl; auto. Qed.

Lemma mixAudio_deletes (ok : string -> Prop) E assets audio :
  (forall j, ok (audioName j "wav")) ->
  all_events (deletes_only ok) (mixAudio E assets audio).
Proof.
  intros Hok. unfold mixAudio.
  destruct audio as [|a rest]; [apply all_events_ret|].
  apply all_events_bind; [apply all_events_emit; exact I|]. intros _ _.
  apply all_events_bind; [apply loadAudio_deletes|]. intros st _.
  apply all_events_bind.
  - destruct (validAudioCount st); [apply all_events_ret|].
    apply all_events_try_catch.
    + apply all_events_bind; [|intros; apply all_events_ret].
      apply all_events_await. exact I.
    + intros e. apply all_events_bind; [|intros; apply all_events_ret].
      apply all_events_emit. exact I.
  - intros out _. apply all_events_bind; [|intros; apply all_events_ret].
    apply deleteFiles_deletes. intros n Hn. apply in_map_iff in Hn.
    destruct Hn as (j & <- & _). apply (Hok j).
Qed.

Lemma package_deletes (ok : string -> Prop) E out :
  ok "video_only.mp4" -> ok "final_output.mp4" ->
  all_events (deletes_only ok) (package E out).
Proof.
  intros H1 H2. unfold package.
  repeat (first [ apply all_events_bind; [|intros _ _]
                | apply all_events_await
                | apply all_events_emit
                | apply all_events_ret ]); simpl; auto.
Qed.

Lemma renderTimeline_deletes E segments assets :
  all_events (deletes_only deletable) (renderTimeline E segments assets).
Proof.
  unfold renderTimeline.
  apply all_events_bind; [apply loadFFmpeg_events; simpl; auto|]. intros _ _.
  destruct (videoSegments segments) as [|v video] eqn:Hv;
    [apply all_events_throw|].
  assert (Hclip : forall l i acc,
            (forall nm, In nm acc -> exists j, nm = clipName j) ->
            forall names,
              completion (normalizeClips E assets (List.length (v :: video)) i l acc)
              = Normal names ->
              forall nm, In nm names -> exists j, nm = clipName j).
  { intros l i acc Hacc names Hc nm Hnm.
    rewrite normalizeClips_completion in Hc. injection Hc as <-.
    apply in_app_iff in Hnm. destruct Hnm as [Hnm|Hnm]; [now apply Hacc|].
    apply in_map_iff in Hnm. destruct Hnm as (j & <- & _). now exists j. }
  apply all_events_bind.
  { apply normalizeClips_deletes. intros j ext. left. now exists j, ext. }
  intros [|c names] Hc; [apply all_events_throw|].
  apply all_events_bind.
  { apply concatenate_deletes.
    - do 3 right. now left.
    - intros nm Hnm. right. left.
      eapply (Hclip (v :: video) 0%nat []); [intros ? [] | exact Hc | exact Hnm]. }
  intros _ _.
  apply all_events_bind.
  { apply mixAudio_deletes. intros j. right. right. left. now exists j. }
  intros out _. apply package_deletes.
  - do 3 right. right. now left.
  - do 3 right. right. right. now left.
Qed.

(** X18: a run never deletes an audio file that it wrote under an extension
    other than [wav]: the audio clean-up names [audio_<i>.wav] for every
    index, whatever extension the file of that index was given, so the file of
    an mp3 or aac asset stays in the engine's file system after the run. *)
Theorem audio_cleanup_misses_other_extensions :
  forall (E : Engine) (segments : list TimelineSegment) (assets : list Asset.t)
         (i : nat) (ext : string),
    ext <> "wav" ->
    ~ In (DeleteFile (audioName i ext)) (trace (renderTimeline E segments assets)).
Proof.
  intros E segments assets i ext Hext Hin.
  pose proof (renderTimeline_deletes E segments assets) as H.
  unfold all_events in H. rewrite Forall_forall in H.
  specialize (H _ Hin). simpl in H.
  destruct H as [(j & e & H)|[(j & H)|[(j & H)|H]]].
  - unfold audioName, inputName in H. discriminate H.
  - unfold audioName, clipName in H. discriminate H.
  - apply audioName_inj in H. now destruct H.
  - unfold audioName in H. simpl in H. intuition discriminate.
Qed.

(** X18 on a voice-over whose asset is an mp3: its file is written and not
    deleted. *)
Lemma audio_cleanup_misses_other_extensions_witness :
  let song := Asset.mk "asset-vo" AssetType.AUDIO "blob:voice" "voice.mp3"
                       "audio/mpeg" None in
  let run := renderTimeline engine_fine [sample_clip "a" 0; voice_at_2s] [song] in
  In (WriteFile "audio_0.mp3" (Fetched "blob:voice")) (trace run)
  /\ ~ In (DeleteFile "audio_0.mp3") (trace run).
Proof.
  intros song run. split.
  - vm_compute. repeat first [left; reflexivity | right].
  - apply (audio_cleanup_misses_other_extensions engine_fine
             [sample_clip "a" 0; voice_at_2s] [song] 0 "mp3").
    discriminate.
Defined.

(** ** A run whose concatenation fails *)

Lemma concatenate_settles E names :
  completion (concatenate E names)
  = match concat_failure E (List.length names) with
    | Some e => Throw e
    | None => Normal tt
    end.
Proof.
  unfold concatenate, concat_failure.
  rewrite completion_bind. cbn [emit completion snd].
  rewrite completion_bind, (proj2 (deleteFiles_trace names)).
  destruct names as [|a [|b l]]; cbn [List.length];
    destruct (single_read_ok E), (single_write_ok E),
             (concat_write_ok E), (concat_exec_ok E); reflexivity.
Qed.

Lemma concatenate_failed_deletes_nothing E names e :
  concat_failure E (List.length names) = Some e ->
  all_events (deletes_only (fun _ => False)) (concatenate E names).
Proof.
  unfold concat_failure, all_events, concatenate. intros H.
  destruct names as [|a [|b l]]; cbn [List.length] in H;
    destruct (single_read_ok E), (single_write_ok E),
             (concat_write_ok E), (concat_exec_ok E);
    try discriminate H;
    cbv [trace bind await emit ret fst snd app]; repeat constructor.
Qed.

(** A run that gets through stage 1 goes on with stages 2 to 4. *)
Lemma run_through_stage1 E segments assets :
  engine_ready E = true ->
  encoded_indices E (List.length (videoSegments segments)) <> [] ->
  let video := videoSegments segments in
  let names := map clipName (encoded_indices E (List.length video)) in
  let rest :=
    concatenate E names ;;;
    finalOutput <- mixAudio E assets (audioSegments segments) ;;
    package E finalOutput in
  trace (renderTimeline E segments assets)
  = (trace (loadFFmpeg E)
     ++ trace (normalizeClips E assets (List.length video) 0 video [])
     ++ trace rest)%list
  /\ completion (renderTimeline E segments assets) = completion rest.
Proof.
  intros Hready Hgood video names rest.
  destruct (encoded_nonempty_video E segments Hgood) as (v & more & Hv).
  unfold renderTimeline. fold video. subst rest names.
  assert (Hclips : completion (normalizeClips E assets (List.length video) 0 video [])
                   = Normal (map clipName (encoded_indices E (List.length video)))).
  { rewrite normalizeClips_completion. reflexivity. }
  unfold video in *. rewrite Hv in *.
  destruct (map clipName (encoded_indices E (List.length (v :: more))))
    as [|c names] eqn:Hnames.
  { destruct (encoded_indices E (List.length (v :: more)));
      [now destruct Hgood | discriminate]. }
  rewrite trace_bind, completion_bind, (loadFFmpeg_completion E Hready).
  rewrite trace_bind, completion_bind, Hclips.
  split; reflexivity.
Qed.

Lemma loadFFmpeg_progress E :
  progress_of (trace (loadFFmpeg E)) = if loaded E then [] else [0.02].
Proof. unfold loadFFmpeg. destruct (loaded E); reflexivity. Qed.

Lemma clipName_not_input i j ext : clipName i <> inputName j ext.
Proof. unfold clipName, inputName. discriminate. Qed.

(** X19: when stage 2 fails (the read or the write of the single clip, or
    the write of [concat.txt] or the concat [exec] for several clips), the run
    rejects with that failure; its last progress report is the 0.65 of stage
    2; and it deletes nothing but the input files of stage 1, so that every
    encoded clip, and [concat.txt], stay in the engine's file system. *)
Theorem failed_concat_leaves_clips :
  forall (E : Engine) (segments : list TimelineSegment) (assets : list Asset.t)
         (e : Failure),
    engine_ready E = true ->
    let n := List.length (videoSegments segments) in
    let good := encoded_indices E n in
    good <> [] ->
    concat_failure E (List.length good) = Some e ->
    let run := renderTimeline E segments assets in
    settle run = Rejected e
    /\ progress_of (trace run)
       = ((if loaded E then [] else [0.02])
            ++ map (stepProgress n) (seq 0 n) ++ [0.65])%list
    /\ (forall name, In (DeleteFile name) (trace run) ->
          exists j ext, name = inputName j ext)
    /\ (forall i, ~ In (DeleteFile (clipName i)) (trace run))
    /\ ~ In (DeleteFile "concat.txt") (trace run).
Proof.
  intros E segments assets e Hready n good Hgood Hfail run.
  destruct (run_through_stage1 E segments assets Hready Hgood) as [Htrace Hcompl].
  fold n in Htrace, Hcompl. fold good in Htrace, Hcompl. fold run in Htrace, Hcompl.
  assert (Hlen : List.length (map clipName good) = List.length good)
    by apply length_map.
  assert (Hthrow : completion (concatenate E (map clipName good)) = Throw e).
  { rewrite concatenate_settles, Hlen, Hfail. reflexivity. }
  rewrite trace_bind, Hthrow in Htrace. rewrite completion_bind, Hthrow in Hcompl.
  assert (Hdel : forall name, In (DeleteFile name) (trace run) ->
                              exists j ext, name = inputName j ext).
  { intros name Hin. rewrite Htrace in Hin. rewrite !in_app_iff in Hin.
    destruct Hin as [Hin|[Hin|Hin]].
    - pose proof (loadFFmpeg_events (deletes_only (fun _ => False)) E) as H.
      unfold all_events in H. rewrite Forall_forall in H.
      destruct (H (fun _ _ => I) I _ Hin).
    - pose proof (normalizeClips_deletes
                    (fun nm => exists j ext, nm = inputName j ext)
                    E assets n (videoSegments segments) 0%nat []) as H.
      unfold all_events in H. rewrite Forall_forall in H.
      apply (H (fun j ext => ex_intro _ j (ex_intro _ ext eq_refl)) _ Hin).
    - pose proof (concatenate_failed_deletes_nothing E (map clipName good) e) as H.
      rewrite Hlen in H. specialize (H Hfail).
      unfold all_events in H. rewrite Forall_forall in H.
      destruct (H _ Hin). }
  split; [unfold settle; now rewrite Hcompl|].
  split.
  { rewrite Htrace, !progress_of_app, (loadFFmpeg_progress E).
    rewrite normalizeClips_progress, concatenate_progress. reflexivity. }
  split; [exact Hdel|]. split.
  - intros i Hin. destruct (Hdel _ Hin) as (j & ext & H).
    exact (clipName_not_input i j ext H).
  - intros Hin. destruct (Hdel _ Hin) as (j & ext & H).
    unfold inputName in H. discriminate H.
Qed.

(** X19 on three clips whose concat [exec] throws. *)
Lemma failed_concat_leaves_clips_witness :
  let E := mkEngine true true (fun _ => ClipEncoded) true true true false
                    (fun _ => AudioLoaded) true true "blob:export" in
  settle (renderTimeline E three_clips []) = Rejected (Thrown "exec")
  /\ ~ In (DeleteFile "concat.txt") (trace (renderTimeline E three_clips [])).
Proof.
  intros E.
  destruct (failed_concat_leaves_clips E three_clips [] (Thrown "exec"))
    as (H1 & _ & _ & _ & H5);
    [reflexivity | discriminate | reflexivity |].
  split; assumption.
Defined.

(** ** What a run writes, and what becomes of it *)

Lemma attemptClip_writes fate i seg input output acc name d :
  In (WriteFile name d) (trace (attemptClip fate i seg input output acc)) ->
  name = input.
Proof.
  intros H.
  destruct fate;
    cbv [attemptClip try_catch encodeClip bind await emit ret trace fst snd app]
      in H;
    simpl in H;
    repeat (destruct H as [H|H]; try discriminate H; try contradiction);
    injection H; auto.
Qed.

Lemma normalizeClips_writes_deleted E assets n : forall segs i acc name d,
  In (WriteFile name d) (trace (normalizeClips E assets n i segs acc)) ->
  In (DeleteFile name) (trace (normalizeClips E assets n i segs acc)).
Proof.
  induction segs as [|seg rest IH]; intros i acc name d H; [destruct H|].
  cbn [normalizeClips] in *.
  apply in_trace_bind in H. destruct H as [H|(? & _ & H)].
  { destruct H as [H|[]]. discriminate H. }
  eapply in_trace_bind_r; [reflexivity|].
  apply in_trace_bind in H. destruct H as [H|(names & Hc & H)].
  { apply attemptClip_writes in H. subst name.
    eapply in_trace_bind_r; [apply attemptClip_completion|].
    apply in_trace_bind_l. now left. }
  eapply in_trace_bind_r; [exact Hc|].
  apply in_trace_bind in H. destruct H as [H|(? & _ & H)].
  { destruct H as [H|[]]. discriminate H. }
  eapply in_trace_bind_r; [reflexivity|].
  eapply IH. exact H.
Qed.

Lemma concatenate_writes_deleted E names name d :
  concat_ok E = true ->
  In (WriteFile name d) (trace (concatenate E names)) ->
  name = "video_only.mp4" \/ In (DeleteFile name) (trace (concatenate E names)).
Proof.
  unfold concat_ok. rewrite !andb_true_iff. intros [[[H1 H2] H3] H4].
  unfold concatenate. rewrite H1, H2, H3, H4. intros H.
  apply in_trace_bind in H. destruct H as [H|(? & _ & H)].
  { destruct H as [H|[]]. discriminate H. }
  apply in_trace_bind in H. destruct H as [H|(? & _ & H)].
  - destruct names as [|a [|b l]];
      cbv [trace bind await emit ret deleteFile_quietly fst snd app] in H;
      simpl in H;
      repeat (destruct H as [H|H]; try discriminate H; try contradiction);
      injection H as <- _.
    + right. eapply in_trace_bind_r; [reflexivity|]. apply in_trace_bind_l.
      simpl. tauto.
    + now left.
    + right. eapply in_trace_bind_r; [reflexivity|]. apply in_trace_bind_l.
      simpl. tauto.
  - rewrite (proj1 (deleteFiles_trace names)) in H.
    apply in_map_iff in H. destruct H as (? & H & _). discriminate H.
Qed.

Lemma concatenate_deletes_clips E names name :
  concat_ok E = true -> In name names ->
  In (DeleteFile name) (trace (concatenate E names)).
Proof.
  unfold concat_ok. rewrite !andb_true_iff. intros [[[H1 H2] H3] H4] Hin.
  unfold concatenate.
  eapply in_trace_bind_r; [reflexivity|].
  eapply (in_trace_bind_r _ _ tt).
  - rewrite H1, H2, H3, H4. destruct names as [|a [|b l]]; reflexivity.
  - rewrite (proj1 (deleteFiles_trace names)). now apply in_map.
Qed.

Lemma attemptAudio_writes fate i seg nm st name d :
  In (WriteFile name d) (trace (attemptAudio fate i seg nm st)) -> name = nm.
Proof.
  intros H.
  destruct fate;
    cbv [attemptAudio try_catch bind await emit ret trace fst snd app] in H;
    simpl in H;
    repeat (destruct H as [H|H]; try discriminate H; try contradiction);
    injection H; auto.
Qed.

Lemma loadAudio_writes E assets : forall segs i st name d,
  In (WriteFile name d) (trace (loadAudio E assets i segs st)) ->
  exists j ext, (i <= j < i + List.length segs)%nat /\ name = audioName j ext.
Proof.
  induction segs as [|seg rest IH]; intros i st name d H; [destruct H|].
  cbn [loadAudio] in H. cbn [List.length].
  assert (Hrest : forall st', In (WriteFile name d)
                                 (trace (loadAudio E assets (S i) rest st')) ->
            exists j ext, (i <= j < i + S (List.length rest))%nat
                          /\ name = audioName j ext).
  { intros st' H'. destruct (IH _ _ _ _ H') as (j & ext & Hj & Hn).
    exists j, ext. split; [lia | exact Hn]. }
  destruct (negb (truthy (assetUrl seg))); [now apply (Hrest st)|].
  apply in_trace_bind in H. destruct H as [H|(st' & _ & H)]; [|now apply (Hrest st')].
  apply attemptAudio_writes in H. eexists i, _. split; [lia | exact H].
Qed.

Lemma mixAudio_writes E assets audio name d :
  In (WriteFile name d) (trace (mixAudio E assets audio)) ->
  exists j ext, (j < List.length audio)%nat /\ name = audioName j ext.
Proof.
  unfold mixAudio. destruct audio as [|a rest]; [intros []|]. intros H.
  apply in_trace_bind in H. destruct H as [H|(? & _ & H)].
  { destruct H as [H|[]]. discriminate H. }
  apply in_trace_bind in H. destruct H as [H|(st & _ & H)].
  { destruct (loadAudio_writes _ _ _ _ _ _ _ H) as (j & ext & Hj & Hn).
    exists j, ext. split; [lia | exact Hn]. }
  exfalso.
  apply in_trace_bind in H. destruct H as [H|(out & _ & H)].
  - destruct (validAudioCount st); [destruct H|].
    destruct (mix_exec_ok E);
      cbv [try_catch bind await emit ret trace fst snd app] in H; simpl in H;
      repeat (destruct H as [H|H]; try discriminate H; try contradiction).
  - apply in_trace_bind in H. destruct H as [H|(? & _ & [])].
    rewrite (proj1 (deleteFiles_trace _)) in H.
    apply in_map_iff in H. destruct H as (? & H & _). discriminate H.
Qed.

Lemma mixAudio_deletes_wav E assets audio j :
  (j < List.length audio)%nat ->
  In (DeleteFile (audioName j "wav")) (trace (mixAudio E assets audio)).
Proof.
  intros Hj. unfold mixAudio.
  destruct audio as [|a rest]; [simpl in Hj; lia|].
  eapply in_trace_bind_r; [reflexivity|].
  destruct (loadAudio_completion E assets (a :: rest) 0 initialMix)
    as (st & Hst & _).
  eapply in_trace_bind_r; [exact Hst|].
  assert (Hout : exists out,
            completion
              (match validAudioCount st with
               | O => ret "video_only.mp4"
               | S _ =>
                   try_catch
                     (await (mix_exec_ok E) "exec"
                        (Exec (audioInputArgs st ++ mixTail (mixFilter st))%list) ;;;
                      ret "final_output.mp4")
                     (fun err =>
                        emit (ConsoleWarn
                                "[FFmpeg] Audio mixing failed, exporting video only:"
                                err) ;;;
                        ret "video_only.mp4")
               end) = Normal out).
  { destruct (validAudioCount st); [now eexists|].
    destruct (mix_exec_ok E); now eexists. }
  destruct Hout as [out Hout].
  eapply in_trace_bind_r; [exact Hout|].
  apply in_trace_bind_l. rewrite (proj1 (deleteFiles_trace _)).
  apply in_map_iff. exists ("audio_" ++ nat_str j ++ ".wav")%string.
  split; [reflexivity|].
  apply in_map_iff. exists j. split; [reflexivity|]. apply in_seq. lia.
Qed.

Lemma package_deletes_outputs E out :
  output_read_ok E = true ->
  In (DeleteFile "video_only.mp4") (trace (package E out))
  /\ In (DeleteFile "final_output.mp4") (trace (package E out)).
Proof. unfold package. intros ->. simpl. tauto. Qed.

Lemma package_writes_nothing E out name d :
  ~ In (WriteFile name d) (trace (package E out)).
Proof.
  unfold package. intros H.
  destruct (output_read_ok E); simpl in H;
    repeat (destruct H as [H|H]; try discriminate H; try contradiction).
Qed.

Lemma loadFFmpeg_writes_nothing E name d :
  ~ In (WriteFile name d) (trace (loadFFmpeg E)).
Proof.
  unfold loadFFmpeg. intros H.
  destruct (loaded E); [destruct H|].
  destruct (load_ok E); simpl in H;
    repeat (destruct H as [H|H]; try discriminate H; try contradiction).
Qed.

(** X20: a run that resolves cleans up after itself, with one exception.
    Every file it wrote is deleted before it resolves (each stage-1 input,
    [concat.txt], [video_only.mp4], every audio file named [audio_<i>.wav]),
    as are the encoded clips and the final output; the only written files
    that stay are audio files with an extension other than [wav]. *)
Theorem resolved_run_cleans_up :
  forall (E : Engine) (segments : list TimelineSegment) (assets : list Asset.t),
    engine_ready E = true ->
    encoded_indices E (List.length (videoSegments segments)) <> [] ->
    concat_ok E = true ->
    output_read_ok E = true ->
    let run := renderTimeline E segments assets in
    settle run = Resolved (object_url E)
    /\ (forall name d, In (WriteFile name d) (trace run) ->
          In (DeleteFile name) (trace run)
          \/ exists i ext, name = audioName i ext /\ ext <> "wav")
    /\ (forall i, In i (encoded_indices E (List.length (videoSegments segments))) ->
          In (DeleteFile (clipName i)) (trace run))
    /\ In (DeleteFile "video_only.mp4") (trace run)
    /\ In (DeleteFile "final_output.mp4") (trace run).
Proof.
  intros E segments assets Hready Hgood Hconcat Hread run.
  destruct (run_through_stage3 E segments assets Hready Hgood Hconcat
              (mixAudio_output E assets (audioSegments segments)))
    as [Htrace Hcompl].
  fold run in Htrace, Hcompl.
  destruct (package_deletes_outputs E (packaged_file E (audioSegments segments))
              Hread) as [Hv Hf].
  split; [unfold settle; now rewrite Hcompl, package_settles, Hread|].
  split.
  { intros name d Hin. rewrite Htrace in Hin |- *. rewrite !in_app_iff in Hin.
    rewrite !in_app_iff.
    destruct Hin as [Hin|[Hin|[Hin|[Hin|Hin]]]].
    - now apply loadFFmpeg_writes_nothing in Hin.
    - left. right. left. eapply normalizeClips_writes_deleted. exact Hin.
    - apply (concatenate_writes_deleted E _ _ _ Hconcat) in Hin.
      destruct Hin as [->|Hin]; left.
      + do 4 right. exact Hv.
      + right. right. now left.
    - apply mixAudio_writes in Hin. destruct Hin as (j & ext & Hj & ->).
      destruct (string_dec ext "wav") as [->|Hext].
      + left. do 3 right. left. now apply mixAudio_deletes_wav.
      + right. now exists j, ext.
    - now apply package_writes_nothing in Hin. }
  split.
  { intros i Hi. rewrite Htrace, !in_app_iff. right. right. left.
    apply concatenate_deletes_clips; [exact Hconcat|]. now apply in_map. }
  split; rewrite Htrace, !in_app_iff; do 4 right; assumption.
Qed.

(** X20 on three clips and a voice-over, on an engine where every call
    resolves. *)
Lemma resolved_run_cleans_up_witness :
  In (DeleteFile "clip_2.mp4")
     (trace (renderTimeline engine_fine (voice_at_2s :: three_clips) [])).
Proof.
  destruct (resolved_run_cleans_up engine_fine (voice_at_2s :: three_clips) [])
    as (_ & _ & H & _);
    [reflexivity | discriminate | reflexivity | reflexivity |].
  apply (H 2%nat). vm_compute. tauto.
Defined.

(** ** The progress of a run that resolves *)

Lemma mixAudio_progress E assets audio :
  progress_of (trace (mixAudio E assets audio))
  = match audio with [] => [] | _ :: _ => [0.75] end.
Proof.
  unfold mixAudio. destruct audio as [|a rest]; [reflexivity|].
  rewrite trace_bind. cbn [emit completion snd trace fst].
  rewrite progress_of_app. cbn [progress_of flat_map app].
  rewrite progress_of_silent; [reflexivity|].
  apply all_events_bind; [apply loadAudio_events; simpl; auto|]. intros st _.
  apply all_events_bind.
  - destruct (validAudioCount st); [apply all_events_ret|].
    apply all_events_try_catch.
    + apply all_events_bind; [|intros; apply all_events_ret].
      apply all_events_await. exact I.
    + intros e. apply all_events_bind; [|intros; apply all_events_ret].
      apply all_events_emit. exact I.
  - intros out _. apply all_events_bind; [|intros; apply all_events_ret].
    apply all_events_deleteFiles. simpl. auto.
Qed.

Lemma package_progress E out :
  output_read_ok E = true ->
  progress_of (trace (package E out)) = [0.92; 1.0].
Proof. unfold package. intros ->. reflexivity. Qed.

(** X21: the progress reports of a run that resolves are exactly: 0.02 when
    the engine has to be loaded; [0.05 + (i / n) * 0.55] for each of the [n]
    video segments in turn, encoded or not; 0.65; 0.75 when there is audio on
    the timeline; 0.92; and 1.  Their number is therefore [n + 3], plus one
    for the load and one for the audio. *)
Theorem resolved_run_progress :
  forall (E : Engine) (segments : list TimelineSegment) (assets : list Asset.t),
    engine_ready E = true ->
    encoded_indices E (List.length (videoSegments segments)) <> [] ->
    concat_ok E = true ->
    output_read_ok E = true ->
    let n := List.length (videoSegments segments) in
    let audio := audioSegments segments in
    let reports := progress_of (trace (renderTimeline E segments assets)) in
    reports
    = ((if loaded E then [] else [0.02])
         ++ map (fun i => 0.05 + (inject_Z (Z.of_nat i) / inject_Z (Z.of_nat n))
                                 * 0.55)
                (seq 0 n)
         ++ [0.65]
         ++ (match audio with [] => [] | _ :: _ => [0.75] end)
         ++ [0.92; 1.0])%list
    /\ List.length reports
       = (n + 3 + (if loaded E then 0 else 1)
          + (match audio with [] => 0 | _ :: _ => 1 end))%nat.
Proof.
  intros E segments assets Hready Hgood Hconcat Hread n audio reports.
  destruct (run_through_stage3 E segments assets Hready Hgood Hconcat
              (mixAudio_output E assets (audioSegments segments)))
    as [Htrace _].
  assert (Hrep : reports = resolved_progress E n audio).
  { unfold reports. rewrite Htrace, !progress_of_app, loadFFmpeg_progress.
    rewrite normalizeClips_progress, concatenate_progress, mixAudio_progress.
    rewrite (package_progress E _ Hread). reflexivity. }
  split; [exact Hrep|]. rewrite Hrep. unfold resolved_progress.
  rewrite !length_app, length_map, length_seq.
  destruct (loaded E), audio; simpl; lia.
Qed.

(** X21 on the three sample clips, on an engine that has to load: the
    reports are 0.02, then 0.05, 7/30 and 5/12 for the clips, then 0.65, 0.92
    and 1. *)
Lemma resolved_run_progress_witness :
  Forall2 Qeq
    (progress_of (trace (renderTimeline engine_fine three_clips [])))
    [0.02; 0.05; 7 # 30; 5 # 12; 0.65; 0.92; 1].
Proof.
  destruct (resolved_run_progress engine_fine three_clips [])
    as [H _]; [reflexivity | discriminate | reflexivity | reflexivity |].
  rewrite H. repeat constructor.
Defined.

(* ================================================================== *)
(** * Properties of the export dialog *)

(** The progress callback touches neither the state of the dialog, nor the
    URL, nor the error message. *)
Lemma fold_onEvent_fields (t : list Event) : forall m0,
  modal_state (fold_left onEvent t m0) = modal_state m0
  /\ downloadUrl (fold_left onEvent t m0) = downloadUrl m0
  /\ modal_error (fold_left onEvent t m0) = modal_error m0.
Proof.
  induction t as [|e t IH]; intros m0; [repeat split|].
  cbn [fold_left]. destruct (IH (onEvent m0 e)) as (H1 & H2 & H3).
  rewrite H1, H2, H3. destruct e; repeat split.
Qed.

Lemma slice_last_length {A : Type} (n : nat) (xs : list A) :
  List.length (slice_last n xs) = Nat.min (List.length xs) n.
Proof. unfold slice_last. rewrite length_skipn. lia. Qed.


Lemma during_snoc (t : list Event) (e : Event) :
  during (t ++ [e]) = onEvent (during t) e.
Proof. unfold during. now rewrite fold_left_app. Qed.

(** The value of the bar after the events [t]: that of the last report, or
    the initial 0. *)
Lemma during_progress (t : list Event) :
  modal_progress (during t)
  = match rev (progress_of t) with
    | [] => 0
    | p :: _ => Qmin (p * 100) 100
    end.
Proof.
  induction t as [|e t IH] using rev_ind; [reflexivity|].
  rewrite during_snoc, progress_of_app.
  destruct e; cbn [onEvent progress_of flat_map app];
    rewrite ?app_nil_r; try exact IH.
  rewrite rev_app_distr. reflexivity.
Qed.

Lemma rev_cons_inv {A : Type} (l r : list A) (x : A) :
  rev l = x :: r -> l = (rev r ++ [x])%list.
Proof.
  intros H. rewrite <- (rev_involutive l), H. reflexivity.
Qed.





Lemma slice_last_app {A : Type} (n k : nat) (l r : list A) :
  (n <= k + List.length r)%nat ->
  slice_last n (slice_last k l ++ r) = slice_last n (l ++ r).
Proof.
  intros H. unfold slice_last.
  assert (E : (skipn (List.length l - k) l ++ r)%list
              = skipn (List.length l - k) (l ++ r)).
  { rewrite skipn_app.
    replace (List.length l - k - List.length l)%nat with 0%nat by lia.
    reflexivity. }
  rewrite E, skipn_skipn, length_skipn, !length_app. f_equal. lia.
Qed.

(** The log after the events [t]: the lines it held, then one line per
    report, cut to the last 51. *)
Lemma fold_onEvent_log_lines (t : list Event) : forall m0,
  (List.length (logs m0) <= 51)%nat ->
  logs (fold_left onEvent t m0)
  = slice_last 51
      (List.app (logs m0)
         (map (fun r => "[" ++ padStart 3 (toFixed0 (fst r * 100)) ++ "%] " ++ snd r)
              (reports_of t))).
Proof.
  induction t as [|e t IH]; intros m0 Hlen.
  - cbn [fold_left reports_of flat_map map]. rewrite app_nil_r.
    unfold slice_last.
    replace (List.length (logs m0) - 51)%nat with 0%nat by lia. reflexivity.
  - cbn [fold_left].
    destruct e; cbn [onEvent reports_of flat_map app]; try (now apply IH).
    fold (reports_of t). rewrite IH.
    + cbn [handleProgress logs map fst snd]. unfold logLine.
      rewrite <- app_assoc. cbn [app].
      apply slice_last_app. cbn [List.length]. lia.
    + cbn [handleProgress logs]. rewrite length_app, slice_last_length.
      cbn [List.length]. lia.
Qed.

(** X22: how an export ends in the dialog.  When the run resolves the
    dialog is in state [done] with the URL to download and the bar at 100;
    when it rejects the dialog is in state [error], offers no URL, shows a
    message that is not empty (the message of the pipeline's own error when
    that is what was thrown), and its bar stands below 100.  The log is the
    initial line followed by one line [[<percent>%] <stage>] per progress
    report, in order, the percent padded to three characters, of which the
    last 51 lines are kept. *)
Theorem export_dialog_outcome :
  forall (thrownMessage : string -> string) (E : Engine)
         (segments : list TimelineSegment) (assets : list Asset.t),
    let run := renderTimeline E segments assets in
    let m := exportEffect thrownMessage E segments assets in
    let lines :=
      "[init] Segmenta Export Engine v1.0"
      :: map (fun r => "[" ++ padStart 3 (toFixed0 (fst r * 100)) ++ "%] "
                           ++ snd r)
             (reports_of (trace run)) in
    (forall url, settle run = Resolved url ->
       modal_state m = StateDone /\ downloadUrl m = Some url
       /\ modal_progress m = 100)
    /\ (forall err, settle run = Rejected err ->
          modal_state m = StateError /\ downloadUrl m = None
          /\ 0 <= modal_progress m /\ modal_progress m < 100
          /\ modal_error m <> ""
          /\ (forall msg, err = Error msg -> msg <> "" -> modal_error m = msg))
    /\ logs m = skipn (List.length lines - 51) lines.
Proof.
  intros thrownMessage E segments assets run m lines.
  assert (Hlogs : logs m = logs (during (trace run))).
  { unfold m, exportEffect. fold run. now destruct (completion run). }
  split; [|split].
  - intros url H. unfold settle in H. unfold m, exportEffect. fold run.
    destruct (completion run) as [u|e]; [|discriminate].
    injection H as ->. repeat split.
  - intros err H. unfold settle in H. unfold m, exportEffect. fold run.
    destruct (completion run) as [u|e] eqn:Hc; [discriminate|].
    injection H as ->. cbn [modal_state downloadUrl modal_progress modal_error].
    split; [reflexivity|]. split.
    { unfold during. now rewrite (proj1 (proj2 (fold_onEvent_fields _ _))). }
    assert (Hbar : 0 <= modal_progress (during (trace run))
                   /\ modal_progress (during (trace run)) < 100).
    { rewrite during_progress.
      destruct (renderTimeline_progress_to_end E segments assets)
        as [(e & He & [_ Hb])|(url & l & Hu & _)];
        [|fold run in Hu; congruence].
      fold run in Hb.
      destruct (rev (progress_of (trace run))) as [|p r] eqn:Hr; [lra|].
      apply rev_cons_inv in Hr. rewrite Hr in Hb.
      apply Forall_app in Hb. destruct Hb as [_ Hp].
      inversion Hp as [|? ? [H0 H1] _]; subst. split.
      - apply Q.min_glb; lra.
      - eapply Qle_lt_trans; [apply Q.le_min_l|]. lra. }
    split; [tauto|]. split; [tauto|]. split.
    + unfold errorMessage.
      destruct err as [msg|call].
      * destruct (String.eqb msg "") eqn:Hm; [discriminate|].
        apply String.eqb_neq in Hm. exact Hm.
      * destruct (String.eqb (thrownMessage call) "") eqn:Hm; [discriminate|].
        apply String.eqb_neq in Hm. exact Hm.
    + intros msg -> Hmsg. unfold errorMessage.
      apply String.eqb_neq in Hmsg. now rewrite Hmsg.
  - rewrite Hlogs. unfold during.
    rewrite fold_onEvent_log_lines by (cbn; lia). reflexivity.
Qed.

(** X22 on the export of the three sample clips: the second line of the log
    is that of the download and the last one that of the end. *)
Lemma export_dialog_outcome_witness :
  let m := exportEffect (fun _ => "") engine_fine three_clips [] in
  nth 1 (logs m) "" = "[  2%] Downloading FFmpeg WASM core..."
  /\ last (logs m) "" = "[100%] Export complete!".
Proof.
  intros m.
  destruct (export_dialog_outcome (fun _ => "") engine_fine three_clips [])
    as (_ & _ & H).
  fold m in H. rewrite H. split; reflexivity.
Defined.



(* ================================================================== *)
(** * Properties of director mode *)

Lemma firstSceneFrame_upper (seen : list TimelineSegment) (p : TimelineSegment) :
  In p seen -> endFrame p <= firstSceneFrame seen.
Proof.
  unfold firstSceneFrame. destruct seen as [|s rest]; [intros []|].
  cbn [map]. destruct (Math_max_of_upper (map endFrame rest) (endFrame s))
    as [H1 H2].
  intros [<-|Hp]; [exact H1|]. apply H2. now apply in_map.
Qed.

Lemma firstSceneFrame_nonneg (seen : list TimelineSegment) :
  Forall segment_ok seen -> 0 <= firstSceneFrame seen.
Proof.
  intros Hok. destruct seen as [|s rest]; [apply Qle_refl|].
  inversion Hok as [|? ? (H0 & H1 & _) _]; subst.
  eapply Qle_trans; [|apply (firstSceneFrame_upper (s :: rest) s); now left].
  lra.
Qed.



(** What the loop appends is laid out back to back from the frame it is
    started on. *)
Lemma renderScenes_layout gv uuid includeAudio : forall scenes k c acc added new,
  snd (renderScenes gv uuid includeAudio k scenes c acc added) = Some new ->
  exists ext, new = (acc ++ ext)%list /\ back_to_back c ext.
Proof.
  induction scenes as [|scene rest IH]; intros k c acc added new H.
  - cbn [renderScenes snd] in H. injection H as <-.
    exists []. split; [now rewrite app_nil_r | constructor].
  - cbn [renderScenes] in H.
    destruct (imgA scene), (imgB scene); try (now apply IH in H).
    destruct (gv k) as [url|]; [|discriminate H].
    apply IH in H. destruct H as (ext & -> & Hext).
    rewrite <- app_assoc. eexists. split; [reflexivity|].
    destruct (if includeAudio then audio scene else None) as [track|].
    + cbn [app]. apply btb_pair; try reflexivity. exact Hext.
    + cbn [app]. apply btb_video; try reflexivity. exact Hext.
Qed.

Lemma back_to_back_ok (c : Q) (ext : list TimelineSegment) :
  back_to_back c ext -> 0 <= c -> Forall segment_ok ext.
Proof.
  induction 1 as [c|c v rest Ht Hs He Hd Hl Hrest IH
                   |c v a rest Ht Hs He Hd Hl Hta Hsa Hea Hda Hla Hrest IH];
    intros Hc.
  - constructor.
  - constructor; [|apply IH; lra].
    unfold segment_ok. rewrite Hs, He, Hd. repeat split; lra.
  - constructor; [|constructor; [|apply IH; lra]].
    + unfold segment_ok. rewrite Hs, He, Hd. repeat split; lra.
    + unfold segment_ok. rewrite Hsa, Hea, Hda. repeat split; lra.
Qed.





Lemma renderScenes_fails gv uuid includeAudio : forall scenes k c acc added j scene,
  nth_error scenes j = Some scene -> has_frames scene = true ->
  gv (k + j)%nat = None ->
  snd (renderScenes gv uuid includeAudio k scenes c acc added) = None.
Proof.
  induction scenes as [|scene0 rest IH]; intros k c acc added j scene Hj Hf Hgv.
  - destruct j; discriminate Hj.
  - cbn [renderScenes]. destruct j as [|j].
    + injection Hj as ->. rewrite Nat.add_0_r in Hgv.
      unfold has_frames in Hf.
      destruct (imgA scene), (imgB scene); try discriminate Hf.
      now rewrite Hgv.
    + cbn [nth_error] in Hj.
      replace (k + S j)%nat with (S k + j)%nat in Hgv by lia.
      destruct (imgA scene0), (imgB scene0);
        try (eapply IH; eassumption).
      destruct (gv k); [eapply IH; eassumption | reflexivity].
Qed.

Lemma renderScenes_assets_until gv uuid includeAudio :
  forall scenes k c acc added j scene,
    nth_error scenes j = Some scene -> has_frames scene = true ->
    gv (k + j)%nat = None ->
    (forall i scene', (i < j)%nat -> nth_error scenes i = Some scene' ->
       has_frames scene' = true -> gv (k + i)%nat <> None) ->
    exists extA,
      fst (renderScenes gv uuid includeAudio k scenes c acc added)
      = (added ++ extA)%list
      /\ List.length extA = List.length (filter has_frames (firstn j scenes)).
Proof.
  induction scenes as [|scene0 rest IH];
    intros k c acc added j scene Hj Hf Hgv Hbefore.
  - destruct j; discriminate Hj.
  - cbn [renderScenes]. destruct j as [|j].
    + injection Hj as ->. rewrite Nat.add_0_r in Hgv.
      unfold has_frames in Hf.
      destruct (imgA scene), (imgB scene); try discriminate Hf.
      rewrite Hgv. exists []. now rewrite app_nil_r.
    + cbn [nth_error] in Hj.
      replace (k + S j)%nat with (S k + j)%nat in Hgv by lia.
      assert (Hrest : forall i scene', (i < j)%nat ->
                nth_error rest i = Some scene' ->
                has_frames scene' = true -> gv (S k + i)%nat <> None).
      { intros i scene' Hi Hn Hs.
        replace (S k + i)%nat with (k + S i)%nat by lia.
        apply (Hbefore (S i) scene'); [lia | exact Hn | exact Hs]. }
      cbn [firstn filter].
      destruct (imgA scene0) eqn:Ea; destruct (imgB scene0) eqn:Eb;
        destruct (has_frames scene0) eqn:Hhf;
        try (unfold has_frames in Hhf; rewrite Ea in Hhf; try rewrite Eb in Hhf;
             cbv beta iota in Hhf; discriminate Hhf);
        cbv beta iota;
        try (eapply IH; eassumption).
      pose proof (Hbefore 0%nat scene0 (Nat.lt_0_succ j) eq_refl Hhf) as Hhead.
      rewrite Nat.add_0_r in Hhead.
      destruct (gv k) as [url|]; [|now destruct Hhead].
      match goal with
      | |- context [renderScenes _ _ _ _ _ ?c' ?acc' ?added'] =>
          destruct (IH (S k) c' acc' added' j scene Hj Hf Hgv Hrest)
            as (extA & -> & Hlen)
      end.
      rewrite <- app_assoc. eexists. split; [reflexivity|].
      cbn [List.length app]. now rewrite Hlen.
Qed.

(** X26: one rejected video call discards the whole batch of segments: the
    store stays as it was, whatever was rendered before.  The library does
    not: when the call of the scene at position [k] is the first to reject,
    one asset for each scene rendered before it has joined the library and
    refers to no segment. *)
Theorem rejected_scene_keeps_store :
  forall (generateVideo : nat -> option string)
         (uuid : nat -> UuidRole -> string) (includeAudio : bool)
         (scenes : list StoryboardSegment) (seen : list TimelineSegment)
         (prevAssets : list Asset.t) (prev : list TimelineSegment)
         (k : nat) (scene : StoryboardSegment),
    nth_error scenes k = Some scene -> has_frames scene = true ->
    generateVideo k = None ->
    let result := handleDirectorApprove generateVideo uuid includeAudio scenes
                    seen prevAssets prev in
    snd result = prev
    /\ ((forall i scene', (i < k)%nat -> nth_error scenes i = Some scene' ->
           has_frames scene' = true -> generateVideo i <> None) ->
        List.length (fst result)
        = (List.length prevAssets
           + List.length (filter has_frames (firstn k scenes)))%nat).
Proof.
  intros gv uuid includeAudio scenes seen prevAssets prev k scene Hk Hf Hgv result.
  split.
  - unfold result, handleDirectorApprove. cbn [snd].
    now rewrite (renderScenes_fails gv uuid includeAudio scenes 0 _ [] [] k scene).
  - intros Hbefore.
    destruct (renderScenes_assets_until gv uuid includeAudio scenes 0
                (firstSceneFrame seen) [] [] k scene Hk Hf Hgv Hbefore)
      as (extA & He & Hlen).
    unfold result, handleDirectorApprove. cbn [fst]. rewrite He.
    cbn [app]. rewrite length_app. now rewrite Hlen.
Qed.

(** X26 on two scenes, the second of which fails. *)
Lemma rejected_scene_keeps_store_witness :
  let frame := Asset.mk "f" AssetType.IMAGE "blob:f" "frame.png" "image/png"
                        None in
  let scene := mkScene 1 "A door opens" "Dolly in" (Some frame) (Some frame)
                       None in
  let result :=
    handleDirectorApprove
      (fun k => if Nat.eqb k 1 then None else Some "blob:veo")
      (fun _ _ => "u") true [scene; scene] initialSegments [] initialSegments in
  snd result = initialSegments /\ List.length (fst result) = 1%nat.
Proof.
  intros frame scene result.
  destruct (rejected_scene_keeps_store
              (fun k => if Nat.eqb k 1 then None else Some "blob:veo")
              (fun _ _ => "u") true [scene; scene] initialSegments []
              initialSegments 1 scene eq_refl eq_refl eq_refl) as [H1 H2].
  split; [exact H1|]. apply H2.
  intros i scene' Hi _ _. destruct i; [discriminate | lia].
Defined.

(* ================================================================== *)
(** * An invariant of the editor *)

Lemma contentDuration_nonneg (segments : list TimelineSegment) :
  Forall segment_ok segments -> 0 <= contentDuration segments.
Proof.
  intros Hok. unfold contentDuration.
  destruct segments as [|s rest]; [cbn [map]; lra|]. cbn [map].
  inversion Hok as [|? ? (H0 & H1 & _) _]; subst.
  destruct (Math_max_of_upper (map endFrame rest) (endFrame s)) as [Hm _].
  apply Qle_shift_div_l; [reflexivity|]. lra.
Qed.

Lemma loop_time_nonneg segments timestamp st :
  0 <= contentDuration segments -> 0 <= timelineTime st ->
  lastTick st <= timestamp ->
  0 <= timelineTime (loop segments timestamp st).
Proof.
  intros Hcd Ht Htick. pose proof (tickDelta_nonneg timestamp st Htick) as Hd.
  unfold loop. destruct (isTimelinePlaying st); [|exact Ht].
  destruct (Qle_bool _ _); cbn [timelineTime]; lra.
Qed.

Lemma toggle_time_nonneg segments st :
  0 <= timelineTime st -> 0 <= timelineTime (toggleTimelinePlay segments st).
Proof.
  intros Ht. unfold toggleTimelinePlay.
  destruct (Qle_bool _ _); [cbn [timelineTime]; lra|].
  destruct (playbackMode st); exact Ht.
Qed.

Lemma seek_time_nonneg segments t st :
  0 <= contentDuration segments -> 0 <= timelineTime (handleSeek segments t st).
Proof.
  intros Hcd. unfold handleSeek. cbn [timelineTime].
  apply Q.min_glb; [apply Q.le_max_l | exact Hcd].
Qed.

Lemma dropped_frames_ok (time d : Q) :
  0 <= time -> 0 < d ->
  0 <= inject_Z (Qfloor (time * 30))
  /\ inject_Z (Qfloor (time * 30))
     <= inject_Z (Qfloor (time * 30)) + inject_Z (Qceiling (d * 30))
  /\ 0 <= d.
Proof.
  intros Ht Hd.
  assert (H1 : 0 <= inject_Z (Qfloor (time * 30))) by (apply Qfloor_nonneg; lra).
  assert (H2 : 1 <= inject_Z (Qceiling (d * 30))) by (apply Qceiling_pos; lra).
  repeat split; lra.
Qed.

Lemma handleDropAssetOnTimeline_ok segId asset track time prev :
  duration_ok asset -> 0 <= time -> Forall segment_ok prev ->
  Forall segment_ok (handleDropAssetOnTimeline segId asset track time prev).
Proof.
  intros Hok Ht Hprev.
  pose proof (dropped_frames_ok time (duration_or asset 4) Ht
                (duration_or_pos asset 4 Hok ltac:(lra))) as Hnew.
  unfold handleDropAssetOnTimeline. apply Forall_app. split; [exact Hprev|].
  destruct (AssetType.eqb (Asset.type asset) AssetType.VIDEO);
    repeat (apply Forall_cons; [exact Hnew|]); apply Forall_nil.
Qed.

Lemma handleDropAssetOnPlayer_ok segId asset x y now prev :
  duration_ok asset -> 0 <= now -> Forall segment_ok prev ->
  Forall segment_ok (handleDropAssetOnPlayer segId asset x y now prev).
Proof.
  intros Hok Ht Hprev.
  pose proof (dropped_frames_ok now (duration_or asset 5) Ht
                (duration_or_pos asset 5 Hok ltac:(lra))) as Hnew.
  unfold handleDropAssetOnPlayer. apply Forall_app. split; [exact Hprev|].
  apply Forall_cons; [exact Hnew | apply Forall_nil].
Qed.

Lemma handleUpdateSegment_ok id0 x prev :
  0 <= x -> Forall segment_ok prev ->
  Forall segment_ok (handleUpdateSegment id0 (startFrame_only x) prev).
Proof.
  intros Hx Hprev. unfold handleUpdateSegment.
  rewrite Forall_forall in *. intros s' Hs'.
  apply in_map_iff in Hs'. destruct Hs' as (s & <- & Hs).
  destruct (Hprev s Hs) as (H0 & H1 & H2).
  pose proof (updateOne_duration id0 x prev s) as Hd.
  destruct (updateOne_cases id0 x prev s) as [[Ha Hb]|Hsame].
  - assert (0 <= duration s * 30) by (apply Qmult_le_0_compat; lra).
    unfold segment_ok. rewrite Ha, Hb, Hd. repeat split; lra.
  - rewrite Hsame. repeat split; assumption.
Qed.

Lemma handleDeleteSegment_ok id0 prev :
  Forall segment_ok prev -> Forall segment_ok (handleDeleteSegment id0 prev).
Proof.
  unfold handleDeleteSegment. rewrite !Forall_forall. intros H s Hs.
  apply filter_In in Hs. apply H. tauto.
Qed.

Lemma handleUnlink_ok id0 prev :
  Forall segment_ok prev -> Forall segment_ok (handleUnlink id0 prev).
Proof.
  unfold handleUnlink. rewrite !Forall_forall. intros H s' Hs'.
  apply in_map_iff in Hs'. destruct Hs' as (s & <- & Hs).
  specialize (H s Hs). destruct (_ || _); exact H.
Qed.

Lemma handleDirectorApprove_ok gv uuid includeAudio scenes seen assets prev :
  Forall segment_ok seen -> Forall segment_ok prev ->
  Forall segment_ok
    (snd (handleDirectorApprove gv uuid includeAudio scenes seen assets prev)).
Proof.
  intros Hseen Hprev. unfold handleDirectorApprove. cbn [snd].
  destruct (snd (renderScenes gv uuid includeAudio 0 scenes
                   (firstSceneFrame seen) [] [])) as [new|] eqn:Hrun;
    [|exact Hprev].
  apply renderScenes_layout in Hrun. destruct Hrun as (ext & -> & Hlay).
  apply Forall_app. split; [exact Hprev|]. cbn [app].
  apply (back_to_back_ok _ _ Hlay). now apply firstSceneFrame_nonneg.
Qed.

(** X24: in every state the editor can get into (by animation frames, play
    and pause, seeking, selecting an asset, drops on the timeline and on the
    player, drags, deletions, unlinking and approved storyboards) no segment
    starts before frame 0, ends before it starts or has a negative duration;
    the clock shows no negative time; and the content duration is not
    negative. *)
Theorem reachable_states_are_sound :
  forall (st : Studio),
    Reachable st ->
    Forall segment_ok (store st)
    /\ 0 <= timelineTime (clock st)
    /\ 0 <= contentDuration (store st).
Proof.
  assert (Hcd : forall st, Forall segment_ok (store st) /\ 0 <= timelineTime (clock st) ->
                  Forall segment_ok (store st)
                  /\ 0 <= timelineTime (clock st)
                  /\ 0 <= contentDuration (store st)).
  { intros st [H1 H2]. repeat split; try assumption.
    now apply contentDuration_nonneg. }
  intros st H. apply Hcd.
  induction H as [ | st timestamp _ IH Htick | st _ IH | st t _ IH | st _ IH
                   | st segId asset track zoom offsetX _ IH Hok Hzoom
                   | st segId asset x y _ IH Hok
                   | st zoom pressX releaseX seg _ IH Hin Hzoom
                   | st id0 _ IH | st id0 _ IH
                   | st before gv uuid includeAudio scenes assets _ IH _ IHb ];
    cbn [store clock].
  - split; [|cbn; lra].
    unfold initialStudio, initialSegments. cbn [store].
    repeat constructor; cbn; lra.
  - destruct IH as [H1 H2]. split; [exact H1|].
    apply loop_time_nonneg; [now apply contentDuration_nonneg | exact H2 | exact Htick].
  - destruct IH as [H1 H2]. split; [exact H1|]. now apply toggle_time_nonneg.
  - destruct IH as [H1 H2]. split; [exact H1|].
    apply seek_time_nonneg. now apply contentDuration_nonneg.
  - exact IH.
  - destruct IH as [H1 H2]. split; [|exact H2].
    unfold timelineDrop. apply handleDropAssetOnTimeline_ok; try assumption.
    unfold pointerTime. apply Q.le_max_l.
  - destruct IH as [H1 H2]. split; [|exact H2].
    now apply handleDropAssetOnPlayer_ok.
  - destruct IH as [H1 H2]. split; [|exact H2].
    cbn [handleSegmentMouseUp]. apply handleUpdateSegment_ok; [|exact H1].
    unfold newStartFrame. apply Q.le_max_l.
  - destruct IH as [H1 H2]. split; [|exact H2]. now apply handleDeleteSegment_ok.
  - destruct IH as [H1 H2]. split; [|exact H2]. now apply handleUnlink_ok.
  - destruct IH as [H1 H2]. destruct IHb as [Hb _]. split; [|exact H2].
    now apply handleDirectorApprove_ok.
Qed.

(** X24 on the state reached by deleting the first initial segment and then
    seeking to a negative time. *)
Lemma reachable_states_are_sound_witness :
  let st1 := mkStudio (handleDeleteSegment "1" initialSegments)
                      (clock initialStudio) in
  let st2 := mkStudio (store st1) (handleSeek (store st1) (-3) (clock st1)) in
  0 <= timelineTime (clock st2).
Proof.
  intros st1 st2.
  destruct (reachable_states_are_sound st2) as (_ & H & _).
  - apply (reach_seek st1 (-3)).
    apply (reach_delete initialStudio "1"). apply reach_init.
  - exact H.
Defined.

(* ================================================================== *)
(** * Properties of the ruler and the drag *)

Lemma pointerTime_nonneg (zoom offsetX : Q) : 0 <= pointerTime zoom offsetX.
Proof. unfold pointerTime. apply Q.le_max_l. Qed.

Lemma pointerTime_inside (zoom offsetX : Q) :
  0 < zoom -> 0 <= offsetX -> pointerTime zoom offsetX == offsetX / zoom.
Proof.
  intros Hz Hx. unfold pointerTime. apply Q.max_r.
  apply Qle_shift_div_l; [exact Hz | lra].
Qed.

Lemma Math_round_inject (x : Q) (k : Z) : x == inject_Z k -> Math_round x = k.
Proof.
  intros Hx. unfold Math_round. apply Qfloor_unique.
  - lra.
  - rewrite inject_Z_plus. change (inject_Z 1) with 1. lra.
Qed.


(** X27: the ruler and the drag, for a positive zoom.  A click on the
    ruler within the content sets the time to the pointer position divided by
    the zoom, unclamped; whatever is clicked, the playhead is placed between
    the pixel of time 0 and the pixel of the end of the content.  A drag over
    the width of [k] whole frames commits the start frame moved by [k], or 0
    when that would be negative. *)
Theorem ruler_seek_and_frame_drag :
  forall (zoom : Q),
    0 < zoom ->
    (forall segments st relativeX,
        0 <= relativeX -> relativeX / zoom <= contentDuration segments ->
        timelineTime (updateSeek zoom relativeX segments st)
        == relativeX / zoom)
    /\ (forall segments st relativeX,
          0 <= contentDuration segments ->
          HEADER_WIDTH
          <= playheadLeft zoom (timelineTime (updateSeek zoom relativeX segments st))
          /\ playheadLeft zoom (timelineTime (updateSeek zoom relativeX segments st))
             <= HEADER_WIDTH + contentDuration segments * zoom)
    /\ (forall seg pressX (k : Z),
          newStartFrame zoom (handleMouseDownSegment zoom pressX seg)
                        (pressX + inject_Z k * (zoom / 30))
          == Qmax 0 (startFrame seg + inject_Z k)).
Proof.
  intros zoom Hz. split; [|split].
  - intros segments st relativeX Hx Hcd.
    unfold updateSeek, handleSeek. cbn [timelineTime].
    pose proof (pointerTime_inside zoom relativeX Hz Hx) as Hp.
    pose proof (pointerTime_nonneg zoom relativeX) as Hp0.
    rewrite (Q.max_r 0 (pointerTime zoom relativeX) Hp0).
    rewrite Q.min_l; [exact Hp|]. rewrite Hp. exact Hcd.
  - intros segments st relativeX Hcd.
    unfold playheadLeft, updateSeek, handleSeek. cbn [timelineTime].
    set (t := Qmin (Qmax 0 (pointerTime zoom relativeX))
                   (contentDuration segments)).
    assert (H0 : 0 <= t).
    { apply Q.min_glb; [apply Q.le_max_l | exact Hcd]. }
    assert (H1 : t <= contentDuration segments) by apply Q.le_min_r.
    split.
    + assert (0 <= t * zoom) by (apply Qmult_le_0_compat; lra). lra.
    + assert (t * zoom <= contentDuration segments * zoom)
        by (apply Qmult_le_compat_r; lra). lra.
  - intros seg pressX k. unfold newStartFrame, handleMouseDownSegment.
    cbn [drag_startX originalStartFrame].
    rewrite (Math_round_inject _ k); [reflexivity|].
    field. lra.
Qed.

(** X27 at the default zoom of 30 pixels per second: a drag 90 pixels to the
    right moves the first initial segment by 90 frames. *)
Lemma ruler_seek_and_frame_drag_witness :
  newStartFrame 30
    (handleMouseDownSegment 30 500
       (mkSegment "1" "start" TrackType.VIDEO_MAIN 0 120 4 "Intro Hook" false
          None None None None None))
    (500 + inject_Z 90 * (30 / 30))
  == Qmax 0 (0 + inject_Z 90).
Proof.
  destruct (ruler_seek_and_frame_drag 30) as (_ & _ & H); [reflexivity|].
  apply (H (mkSegment "1" "start" TrackType.VIDEO_MAIN 0 120 4 "Intro Hook" false
              None None None None None) 500 90%Z).
Defined.

(* ================================================================== *)
(** * Properties of the image preloader *)

Lemma passes_step (total a b : nat) :
  (a <= b)%nat ->
  (PreloadManager.passes total a b + (if Nat.eqb (S b) total then 1 else 0))%nat
  = PreloadManager.passes total a (S b).
Proof.
  intros H. unfold PreloadManager.passes.
  destruct (Nat.eqb_spec (S b) total), (Nat.ltb_spec a total),
           (Nat.leb_spec total b), (Nat.leb_spec total (S b));
    cbn [andb]; lia.
Qed.

Lemma counted_refl (total : nat) (st : PreloadManager.t) :
  PreloadManager.counted total st st.
Proof.
  unfold PreloadManager.counted, PreloadManager.passes.
  rewrite Nat.sub_diag. cbn [seq map]. rewrite app_nil_r.
  destruct (Nat.ltb_spec (PreloadManager.loaded st) total),
           (Nat.leb_spec total (PreloadManager.loaded st)); cbn [andb];
    repeat split; lia.
Qed.

Lemma counted_count (total : nat) (st0 st : PreloadManager.t) :
  PreloadManager.counted total st0 st ->
  PreloadManager.counted total st0 (PreloadManager.count total st).
Proof.
  intros (Hle & Hrep & Hres). unfold PreloadManager.counted, PreloadManager.count.
  cbn [PreloadManager.loaded PreloadManager.reported PreloadManager.resolves].
  split; [lia|]. split.
  - rewrite Hrep, <- app_assoc. f_equal.
    replace (S (PreloadManager.loaded st) - PreloadManager.loaded st0)%nat
      with (S (PreloadManager.loaded st - PreloadManager.loaded st0)) by lia.
    rewrite seq_S, map_app. cbn [map]. repeat f_equal. lia.
  - rewrite <- (passes_step total _ _ Hle), Hres.
    destruct (Nat.eqb (S (PreloadManager.loaded st)) total); lia.
Qed.

Lemma partition_length {A : Type} (f : A -> bool) (l : list A) :
  (List.length (filter f l) + List.length (filter (fun x => negb (f x)) l))%nat
  = List.length l.
Proof.
  induction l as [|a l IH]; [reflexivity|].
  cbn [filter]. destruct (f a); cbn [negb List.length]; lia.
Qed.

(** The synchronous part counts the cached URLs and creates an image for
    each of the others. *)
Lemma load_visits (total : nat) (cache : list string) :
  forall urls st0 st created,
    PreloadManager.images st = cache ->
    PreloadManager.counted total st0 st ->
    let r := fold_left (PreloadManager.visit total) urls (st, created) in
    PreloadManager.images (fst r) = cache
    /\ PreloadManager.counted total st0 (fst r)
    /\ PreloadManager.loaded (fst r)
       = (PreloadManager.loaded st
          + List.length (filter (fun url => existsb (String.eqb url) cache) urls))%nat
    /\ snd r = (created ++ PreloadManager.uncached cache urls)%list.
Proof.
  induction urls as [|url urls IH]; intros st0 st created Him Hc.
  - cbn [fold_left fst snd filter List.length PreloadManager.uncached].
    rewrite app_nil_r.
    split; [exact Him|]. split; [exact Hc|]. split; [lia | reflexivity].
  - assert (Hv : PreloadManager.visit total (st, created) url
                 = if existsb (String.eqb url) cache
                   then (PreloadManager.count total st, created)
                   else (st, (created ++ [url])%list)).
    { unfold PreloadManager.visit, PreloadManager.has. cbn [fst snd].
      now rewrite Him. }
    cbn [fold_left]. rewrite Hv.
    unfold PreloadManager.uncached. cbn [filter].
    destruct (existsb (String.eqb url) cache); cbn [negb].
    + destruct (IH st0 (PreloadManager.count total st) created Him
                  (counted_count _ _ _ Hc)) as (H1 & H2 & H3 & H4).
      split; [exact H1|]. split; [exact H2|]. split; [|exact H4].
      rewrite H3. cbn [PreloadManager.count PreloadManager.loaded List.length]. lia.
    + destruct (IH st0 st (created ++ [url])%list Him Hc) as (H1 & H2 & H3 & H4).
      split; [exact H1|]. split; [exact H2|]. split; [exact H3|].
      rewrite H4, <- app_assoc. reflexivity.
Qed.

Lemma in_images_set (url x : string) (st : PreloadManager.t) :
  In x (PreloadManager.images (PreloadManager.set url st))
  <-> In x (PreloadManager.images st) \/ x = url.
Proof.
  unfold PreloadManager.set, PreloadManager.has. cbn [PreloadManager.images].
  destruct (existsb (String.eqb url) (PreloadManager.images st)) eqn:E.
  - apply existsb_exists in E. destruct E as (y & Hy & Heq).
    apply String.eqb_eq in Heq. subst y. split; [tauto|].
    intros [H| ->]; assumption.
  - rewrite in_app_iff. cbn [In]. intuition auto.
Qed.

(** The image events count one each, and [onload] caches its URL. *)
Lemma handle_events (total : nat) (created : list string) :
  forall events st0 st,
    PreloadManager.counted total st0 st ->
    (forall e, In e events ->
       (PreloadManager.image_of e < List.length created)%nat) ->
    let st' := fold_left (PreloadManager.handle total created) events st in
    PreloadManager.counted total st0 st'
    /\ PreloadManager.loaded st'
       = (PreloadManager.loaded st + List.length events)%nat
    /\ (forall url, In url (PreloadManager.images st')
          <-> In url (PreloadManager.images st)
              \/ exists k, In (PreloadManager.Onload k) events
                           /\ nth_error created k = Some url).
Proof.
  induction events as [|e events IH]; intros st0 st Hc Hidx.
  - cbn [fold_left List.length In].
    split; [exact Hc|]. split; [lia|]. intros url. split; [tauto|].
    intros [H|(k & [] & _)]. exact H.
  - cbn [fold_left].
    assert (Hrest : forall e', In e' events ->
              (PreloadManager.image_of e' < List.length created)%nat).
    { intros e' He'. apply Hidx. now right. }
    pose proof (Hidx e (or_introl eq_refl)) as He.
    apply nth_error_Some in He.
    destruct (nth_error created (PreloadManager.image_of e)) as [url|] eqn:Hn;
      [|now destruct He].
    destruct e as [k|k]; cbn [PreloadManager.image_of] in Hn.
    + assert (Hh : PreloadManager.handle total created st (PreloadManager.Onload k)
                   = PreloadManager.count total (PreloadManager.set url st)).
      { unfold PreloadManager.handle. cbn [PreloadManager.image_of].
        now rewrite Hn. }
      rewrite Hh.
      assert (Hc' : PreloadManager.counted total st0
                      (PreloadManager.count total (PreloadManager.set url st)))
        by (apply counted_count; exact Hc).
      destruct (IH st0 _ Hc' Hrest) as (H1 & H2 & H3).
      split; [exact H1|]. split.
      { rewrite H2. cbn [PreloadManager.count PreloadManager.set
                           PreloadManager.loaded List.length]. lia. }
      intros x. rewrite H3.
      change (PreloadManager.images
                (PreloadManager.count total (PreloadManager.set url st)))
        with (PreloadManager.images (PreloadManager.set url st)).
      rewrite in_images_set. split.
      * intros [[H| ->]|(j & Hj & Hx)].
        -- now left.
        -- right. exists k. split; [now left | exact Hn].
        -- right. exists j. split; [now right | exact Hx].
      * intros [H|(j & [Hj|Hj] & Hx)].
        -- left. now left.
        -- injection Hj as <-. left. right. congruence.
        -- right. now exists j.
    + assert (Hh : PreloadManager.handle total created st (PreloadManager.Onerror k)
                   = PreloadManager.count total st).
      { unfold PreloadManager.handle. cbn [PreloadManager.image_of].
        now rewrite Hn. }
      rewrite Hh.
      assert (Hc' : PreloadManager.counted total st0
                      (PreloadManager.count total st))
        by (apply counted_count; exact Hc).
      destruct (IH st0 _ Hc' Hrest) as (H1 & H2 & H3).
      split; [exact H1|]. split.
      { rewrite H2. cbn [PreloadManager.count PreloadManager.loaded List.length].
        lia. }
      intros x. rewrite H3.
      change (PreloadManager.images (PreloadManager.count total st))
        with (PreloadManager.images st).
      split.
      * intros [H|(j & Hj & Hx)]; [now left|].
        right. exists j. split; [now right | exact Hx].
      * intros [H|(j & [Hj|Hj] & Hx)]; [now left | discriminate Hj |].
        right. now exists j.
Qed.

(** X28: [load] resolves exactly when every image it created has settled,
    and not before.  Each image fires [onload] or [onerror] at most once;
    after any such events the counter is the number of cached URLs plus the
    number of events, the progress reports are [1/total, 2/total, ...] up to
    the counter, and [resolve] has been called once if all images have
    settled, failures included, and not at all otherwise.  The map holds what
    it held and the URLs that loaded; a URL that failed is not added.  For no
    URLs at all, [load] reports 1 and resolves at once. *)
Theorem preload_resolves_when_all_settled :
  forall (cache urls : list string) (events : list PreloadManager.ImageEvent),
    NoDup (map PreloadManager.image_of events) ->
    (forall e, In e events ->
       (PreloadManager.image_of e
        < List.length (PreloadManager.uncached cache urls))%nat) ->
    let st := PreloadManager.run cache urls events in
    let total := List.length urls in
    let created := PreloadManager.uncached cache urls in
    (urls = [] ->
     PreloadManager.reported st = [1] /\ PreloadManager.resolves st = 1%nat)
    /\ (urls <> [] ->
        PreloadManager.loaded st
        = (total - List.length created + List.length events)%nat
        /\ (PreloadManager.loaded st <= total)%nat
        /\ PreloadManager.reported st
           = map (fun k => inject_Z (Z.of_nat k) / inject_Z (Z.of_nat total))
                 (seq 1 (PreloadManager.loaded st))
        /\ PreloadManager.resolves st
           = (if Nat.eqb (List.length events) (List.length created)
              then 1 else 0)%nat)
    /\ (forall url, In url (PreloadManager.images st)
          <-> In url cache
              \/ exists k, In (PreloadManager.Onload k) events
                           /\ nth_error created k = Some url).
Proof.
  intros cache urls events Hnd Hidx.
  assert (Hm : (List.length events
                <= List.length (PreloadManager.uncached cache urls))%nat).
  { rewrite <- (length_map PreloadManager.image_of events).
    rewrite <- (length_seq (List.length (PreloadManager.uncached cache urls)) 0).
    apply NoDup_incl_length; [exact Hnd|].
    intros k Hk. apply in_map_iff in Hk. destruct Hk as (e & <- & He).
    apply in_seq. specialize (Hidx e He). lia. }
  destruct urls as [|u urls'].
  - intros st total created.
    assert (events = []) as ->.
    { destruct events as [|e events]; [reflexivity|].
      cbn in Hm. lia. }
    split; [intros _; split; reflexivity|].
    split; [intros H; now destruct H|].
    intros url. cbn. split; [tauto|]. intros [H|(k & [] & _)]. exact H.
  - set (urls := u :: urls') in *.
    assert (Hurls : urls = u :: urls') by reflexivity. clearbody urls.
    intros st total created. fold created in Hm, Hidx.
    assert (Hload : PreloadManager.load cache urls
                    = fold_left (PreloadManager.visit total) urls
                        (PreloadManager.mk cache 0 [] 0, [])).
    { unfold PreloadManager.load.
      destruct (List.length urls) eqn:Hlen; [|reflexivity].
      rewrite Hurls in Hlen. discriminate Hlen. }
    pose (st00 := PreloadManager.mk cache 0 [] 0).
    destruct (load_visits total cache urls st00 st00 [] eq_refl
                (counted_refl total st00)) as (H1 & H2 & H3 & H4).
    cbn [app] in H4. fold st00 in Hload. rewrite <- Hload in H1, H2, H3, H4.
    fold created in H4.
    assert (Hidx' : forall e, In e events ->
              (PreloadManager.image_of e
               < List.length (snd (PreloadManager.load cache urls)))%nat).
    { rewrite H4. exact Hidx. }
    destruct (handle_events total (snd (PreloadManager.load cache urls))
                events st00 (fst (PreloadManager.load cache urls)) H2 Hidx')
      as (G1 & G2 & G3).
    change (fold_left
              (PreloadManager.handle total (snd (PreloadManager.load cache urls)))
              events (fst (PreloadManager.load cache urls)))
      with st in G1, G2, G3.
    assert (Hpart : (List.length
                       (filter (fun url => existsb (String.eqb url) cache) urls)
                     + List.length created)%nat = total)
      by apply (partition_length (fun url => existsb (String.eqb url) cache) urls).
    cbn [PreloadManager.loaded st00] in H3. rewrite H3 in G2.
    assert (Hpos : (1 <= total)%nat) by (unfold total; rewrite Hurls; cbn; lia).
    split; [intros H; rewrite Hurls in H; discriminate H|]. split.
    + intros _. destruct G1 as (_ & Grep & Gres).
      cbn [PreloadManager.loaded PreloadManager.reported PreloadManager.resolves
             st00 app] in Grep, Gres.
      rewrite Nat.sub_0_r in Grep.
      split; [lia|]. split; [lia|]. split; [exact Grep|].
      rewrite Gres. unfold PreloadManager.passes.
      destruct (Nat.ltb_spec 0 total), (Nat.leb_spec total (PreloadManager.loaded st)),
               (Nat.eqb_spec (List.length events) (List.length created));
        cbn [andb]; lia.
    + intros url. rewrite G3, H1, H4. reflexivity.
Qed.

(** X28 on three URLs, one of them cached: the second image fails, the first
    loads, and the call resolves. *)
Lemma preload_resolves_when_all_settled_witness :
  let st := PreloadManager.run ["b.png"] ["a.png"; "b.png"; "c.png"]
              [PreloadManager.Onerror 1; PreloadManager.Onload 0] in
  PreloadManager.resolves st = 1%nat
  /\ (In "c.png" (PreloadManager.images st) -> False).
Proof.
  intros st.
  destruct (preload_resolves_when_all_settled ["b.png"]
              ["a.png"; "b.png"; "c.png"]
              [PreloadManager.Onerror 1; PreloadManager.Onload 0])
    as (_ & H & Him).
  - repeat constructor; cbn; intuition discriminate.
  - intros e [<-|[<-|[]]]; cbn; lia.
  - destruct (H ltac:(discriminate)) as (_ & _ & _ & Hres).
    split; [exact Hres|]. vm_compute. intuition discriminate.
Defined.

(* ================================================================== *)
(** * Properties of the image sequence canvas *)

Lemma frames_minus_one (n : nat) :
  inject_Z (Z.of_nat n) - 1 == inject_Z (Z.of_nat n - 1).
Proof.
  unfold Z.sub. rewrite inject_Z_plus, inject_Z_opp. reflexivity.
Qed.

(** X29: for a sequence of at least one image the frame drawn is always a
    valid index, the first frame at progress 0 (or below) and the last one at
    progress 1 (or above), and it never goes back when the progress goes
    forward; for an empty sequence the index is -1, which holds no image. *)
Theorem frame_index_stays_in_range :
  (forall (n : nat) (latest : Q),
      (1 <= n)%nat -> (0 <= frameIndex n latest < Z.of_nat n)%Z)
  /\ (forall (n : nat) (latest : Q),
        (1 <= n)%nat ->
        (latest <= 0 -> frameIndex n latest = 0%Z)
        /\ (1 <= latest -> frameIndex n latest = (Z.of_nat n - 1)%Z))
  /\ (forall (n : nat) (a b : Q),
        a <= b -> (frameIndex n a <= frameIndex n b)%Z)
  /\ (forall latest : Q, frameIndex 0 latest = (-1)%Z).
Proof.
  assert (Hpos : forall n, (1 <= n)%nat -> 0 <= inject_Z (Z.of_nat n) - 1).
  { intros n Hn. rewrite frames_minus_one. change 0 with (inject_Z 0).
    rewrite <- Zle_Qle. lia. }
  split; [|split; [|split]].
  - intros n latest Hn. unfold frameIndex. lia.
  - intros n latest Hn. pose proof (Hpos n Hn) as Hm. split.
    + intros Hl. unfold frameIndex.
      assert (H : (Qfloor (latest * (inject_Z (Z.of_nat n) - 1)) <= 0)%Z).
      { rewrite <- (Qfloor_Z 0). apply Qfloor_resp_le.
        change (inject_Z 0) with 0.
        assert (0 <= (- latest) * (inject_Z (Z.of_nat n) - 1))
          by (apply Qmult_le_0_compat; lra).
        lra. }
      lia.
    + intros Hl. unfold frameIndex.
      assert (H : (Z.of_nat n - 1 <= Qfloor (latest * (inject_Z (Z.of_nat n) - 1)))%Z).
      { rewrite <- (Qfloor_Z (Z.of_nat n - 1)). apply Qfloor_resp_le.
        rewrite <- frames_minus_one.
        assert (0 <= (latest - 1) * (inject_Z (Z.of_nat n) - 1))
          by (apply Qmult_le_0_compat; lra).
        lra. }
      lia.
  - intros n a b Hab. unfold frameIndex.
    destruct n as [|n]; [cbn [Z.of_nat]; lia|].
    pose proof (Hpos (S n) ltac:(lia)) as Hm.
    assert (H : (Qfloor (a * (inject_Z (Z.of_nat (S n)) - 1))
                 <= Qfloor (b * (inject_Z (Z.of_nat (S n)) - 1)))%Z).
    { apply Qfloor_resp_le. apply Qmult_le_compat_r; assumption. }
    lia.
  - intros latest. unfold frameIndex. cbn [Z.of_nat]. lia.
Qed.

(* ================================================================== *)
(** * Properties of the asset panel *)



